(** * fun-task: the execution engine of [src/index.js]

    A shallow embedding of the settlement guards [safeRun] / [safeRun2] and of
    the [_run] method of every Task variant.  JavaScript closures over mutable
    variables are defunctionalised: every closure the source creates is a
    constructor of [Fn1] (one-argument handlers) or [Fn0] (cancel operations),
    and the variables it captures by reference live in a heap of [Cell]s.
    Exceptions and heap effects are threaded through a small state-and-error
    monad whose results carry the state even when something was thrown, as in
    JavaScript.  The interpreter is driven by a fuel argument.

    Code of the caller is observed, not interpreted: a handler given to [run]
    and a cancel function returned by a computation leave a trace of their
    invocation and then either return or throw.  They do not call back into
    the engine; what the outside world does with the callbacks and handles it
    holds is an [Event]. *)

From Stdlib Require Import ZArith Lia.
From stdpp Require Import base list.

Set Default Proof Using "Type".
Set Warnings "-register-all".

(** ** Values *)

(** [VErr m] is an [Error] object built from the message [String(m)]. *)
Inductive Val :=
| VUndef
| VNum (n : Z)
| VArr (l : list Val)
| VErr (m : Val).

(** Result of a JavaScript call: normal return or a thrown value. *)
Inductive Res (A : Type) :=
| Ok (a : A)
| Throw (e : Val).
Arguments Ok {A} a.
Arguments Throw {A} e.

(** ** User code *)

(** A leaf computation [(succeed, fail) => ...]: it calls its callbacks some
    number of times while it runs, then returns nothing, returns a cancel
    function, or throws.  The cancel function it returns either returns when
    it is invoked ([RetCancel]) or throws ([RetCancelThrows]).  The callbacks
    stay reachable from outside (timers, I/O), see [Event] below. *)
Inductive Act :=
| CallSucc (v : Val)
| CallFail (v : Val).

Inductive CompRet :=
| RetUndefined
| RetCancel (tag : nat)
| RetThrow (e : Val)
| RetCancelThrows (tag : nat) (e : Val).

Record Computation := { acts : list Act; ret : CompRet }.

(** ** Task nodes (the class hierarchy of [index.js]) *)

Inductive Task :=
| FromComputation (_computation : Computation)
| Of (_value : Val)
| Rejected (_error : Val)
| Empty
| All (_tasks : list Task)
| Race (_tasks : list Task)
| Map (_task : Task) (_fn : Val -> Res Val)
| MapRejected (_task : Task) (_fn : Val -> Res Val)
| Chain (_task : Task) (_fn : Val -> Res Task)
| OrElse (_task : Task) (_fn : Val -> Res Task).

(** ** Closures *)

(** Cancel operations [() => void]. *)
Inductive Fn0 :=
| noop0                                   (* noop *)
| UserCancel (tag : nat)                  (* the function a computation returned *)
| SafeRunCancel (i : nat)                 (* () => { cancel(); close() }    of safeRun  *)
| SafeRun2Cancel (i : nat)                (* () => { onCancel(); close() }  of safeRun2 *)
| OnClose (cancels : list Fn0)            (* onClose() { cancels.forEach(cancel => cancel()) } *)
| ChainOnCancel (cancel1 : Fn0) (c : nat) (* onCancel() { cancel1(); cancel2() } *)
| OrElseCancel (cancel1 : Fn0) (c : nat)  (* () => { cancel1(); cancel2() } *)
| UserCancelThrows (tag : nat) (e : Val). (* a computation's cancel function that throws *)

(** Handlers [x => void]. *)
Inductive Fn1 :=
| noop1
| User (tag : nat)                        (* a callback given to run by the caller *)
| defaultFailureHandler
| SafeRunSucc (i : nat)                   (* x => { handlers.success(x); close() } *)
| SafeRunFail (i : nat)                   (* x => { handlers.failure(x); close() } *)
| SafeRun2Succ (i : nat)                  (* x => { success(x); close() } *)
| SafeRun2Fail (i : nat)                  (* x => { failure(x); close() } *)
| SafeRun2Catch (i : nat)                 (* x => { catch_(x); close() } *)
| AllSuccess (a length index : nat) (success : Fn1)
| MapSuccess (_fn : Val -> Res Val) (handlers_success : Fn1)
| MapRejectedFailure (_fn : Val -> Res Val) (handlers_failure : Fn1)
| ChainSuccess (c : nat) (_fn : Val -> Res Task) (success failure : Fn1) (catch_ : option Fn1)
| OrElseFailure (c : nat) (_fn : Val -> Res Task) (success failure : Fn1)
| UserThrows (tag : nat) (e : Val).       (* a callback of the caller that throws *)

(** [Handlers<S, F>]: what [_run] receives. *)
Record Handlers := mkHandlers
  { success : Fn1; failure : Fn1; catch : option Fn1 }.

(** [LooseHandlers<S, F>]: what [run] receives from the caller, a bare success
    callback or a record with optional fields; user callbacks are named by a
    tag. *)
Inductive LooseHandlers :=
| LFn (h : nat)
| LRec (success failure catch : option nat).

Definition noopHandlers : Handlers := mkHandlers noop1 noop1 None.

(** ** Heap and observations *)

(** The mutable variables captured by closures.  For the two guards the
    variable [close] is either the real close procedure ([true]) or [noop]. *)
Inductive Cell :=
| SafeRunVars (handlers : Handlers) (cancel onClose : Fn0) (closed close : bool)
| SafeRun2Vars (success failure : Fn1) (catch_ : option Fn1)
               (onCancel onClose : Fn0) (closed close : bool)
| AllVars (values : list Val) (completedCount : nat)
| ChainVars (cancel2 : Fn0).

(** What the outside world sees. *)
Inductive Obs :=
| Called (tag : nat) (v : Val)      (* a callback given to run was invoked *)
| Cancelled (tag : nat)             (* a computation's cancel function was invoked *)
| Uncaught (e : Val).               (* an exception reached the event loop *)

Record State := mkState { heap : list Cell; log : list Obs }.

Definition init : State := mkState [] [].

(** ** The monad *)

(** [None]: no answer, because the fuel ran out or because a closure found a
    cell that is not the one it was created over, which no execution does. *)
Definition M (A : Type) : Type := State -> option (Res A * State).

Definition mret {A} (a : A) : M A := fun s => Some (Ok a, s).
Definition throw {A} (e : Val) : M A := fun s => Some (Throw e, s).
Definition out_of_fuel {A} : M A := fun _ => None.
Definition impossible {A} : M A := fun _ => None.

Definition bind {A B} (m : M A) (k : A -> M B) : M B :=
  fun s =>
    match m s with
    | Some (Ok a, s') => k a s'
    | Some (Throw e, s') => Some (Throw e, s')
    | None => None
    end.

(** [try { m } catch (e) { h e }] *)
Definition try_catch {A} (m : M A) (h : Val -> M A) : M A :=
  fun s =>
    match m s with
    | Some (Throw e, s') => h e s'
    | r => r
    end.

Notation "'do' x <- m ; k" := (bind m (fun x => k))
  (at level 10, x name, m at level 100, k at level 200).
Notation "m ;; k" := (bind m (fun _ => k))
  (at level 100, k at level 200, right associativity).

Definition emit (o : Obs) : M unit :=
  fun s => Some (Ok tt, mkState (heap s) (log s ++ [o])).

Definition alloc (c : Cell) : M nat :=
  fun s => Some (Ok (length (heap s)), mkState (heap s ++ [c]) (log s)).

Definition read (i : nat) : M Cell :=
  fun s => match heap s !! i with
           | Some c => Some (Ok c, s)
           | None => None
           end.

(** An assignment to variables of cell [i]; [f] is undefined on cells of
    another shape. *)
Definition modify (i : nat) (f : Cell -> option Cell) : M unit :=
  fun s => match heap s !! i with
           | Some c => match f c with
                       | Some c' => Some (Ok tt, mkState (<[i := c']> (heap s)) (log s))
                       | None => None
                       end
           | None => None
           end.

Fixpoint forEach {A} (f : A -> M unit) (l : list A) : M unit :=
  match l with
  | [] => mret tt
  | x :: l' => f x ;; forEach f l'
  end.

(** [Array.prototype.map] with the index passed to the callback. *)
Fixpoint mapi {A B} (f : A -> nat -> M B) (index : nat) (l : list A) : M (list B) :=
  match l with
  | [] => mret []
  | x :: l' => do y <- f x index; do ys <- mapi f (S index) l'; mret (y :: ys)
  end.

(** ** The settlement guards *)

(** What the computation given to [safeRun] returns:
    [?(Cancel | {cancel?: Cancel, onClose: Cancel})]. *)
Inductive SafeRunReturn :=
| ReturnNothing
| ReturnFunction (cancel : Fn0)
| ReturnObject (cancel : option Fn0) (onClose : Fn0).

(** What the body given to [safeRun2] returns: [{onCancel?, onClose?}]. *)
Record BodyReturn := mkBodyReturn
  { ret_onCancel : option Fn0; ret_onClose : option Fn0 }.

(** [x || noop] *)
Definition or_noop0 (x : option Fn0) : Fn0 := default noop0 x.
Definition or_noop1 (x : option Fn1) : Fn1 := default noop1 x.

(** The assignments of the [close] procedure, after [onClose()]. *)
Definition closeSafeRun (c : Cell) : option Cell :=
  match c with
  | SafeRunVars _ _ onClose _ _ => Some (SafeRunVars noopHandlers noop0 onClose true false)
  | _ => None
  end.

Definition closeSafeRun2 (c : Cell) : option Cell :=
  match c with
  | SafeRun2Vars _ _ catch_ _ onClose _ _ =>
      (* catch_ = catch_ && noop *)
      Some (SafeRun2Vars noop1 noop1 (option_map (fun _ => noop1) catch_) noop0 onClose true false)
  | _ => None
  end.

(** The assignments after the body has returned. *)
Definition setCancel (cancel : Fn0) (c : Cell) : option Cell :=
  match c with
  | SafeRunVars h _ onClose closed close => Some (SafeRunVars h cancel onClose closed close)
  | _ => None
  end.

Definition setCancelOnClose (cancel onClose : Fn0) (c : Cell) : option Cell :=
  match c with
  | SafeRunVars h _ _ closed close => Some (SafeRunVars h cancel onClose closed close)
  | _ => None
  end.

Definition setOnCancelOnClose (onCancel onClose : Fn0) (c : Cell) : option Cell :=
  match c with
  | SafeRun2Vars s f ct _ _ closed close => Some (SafeRun2Vars s f ct onCancel onClose closed close)
  | _ => None
  end.

Definition setOnCancel (onCancel : Fn0) (c : Cell) : option Cell :=
  match c with
  | SafeRun2Vars s f ct _ onClose closed close => Some (SafeRun2Vars s f ct onCancel onClose closed close)
  | _ => None
  end.

Section Guards.
(** The two guards call closures; the interpreter below passes itself. *)
Variable call0 : Fn0 -> M unit.

(** [close()] inside [safeRun] of cell [i]: the variable [close] is looked
    up when the call happens. *)
Definition close (i : nat) : M unit :=
  do c <- read i;
  match c with
  | SafeRunVars _ _ onClose _ true => call0 onClose ;; modify i closeSafeRun
  | SafeRunVars _ _ _ _ false => mret tt
  | _ => impossible
  end.

Definition close2 (i : nat) : M unit :=
  do c <- read i;
  match c with
  | SafeRun2Vars _ _ _ _ onClose _ true => call0 onClose ;; modify i closeSafeRun2
  | SafeRun2Vars _ _ _ _ _ _ false => mret tt
  | _ => impossible
  end.

Definition safeRun (computation : Fn1 -> Fn1 -> M SafeRunReturn)
           (_handlers : Handlers) : M Fn0 :=
  do i <- alloc (SafeRunVars _handlers noop0 noop0 false true);
  do computationReturn <- computation (SafeRunSucc i) (SafeRunFail i);
  match computationReturn with
  | ReturnNothing => mret tt
  | ReturnFunction f => modify i (setCancel f)
  | ReturnObject cancel onClose => modify i (setCancelOnClose (or_noop0 cancel) onClose)
  end ;;
  do c <- read i;
  match c with
  | SafeRunVars _ _ onClose true _ => modify i (setCancel noop0) ;; call0 onClose
  | SafeRunVars _ _ _ false _ => mret tt
  | _ => impossible
  end ;;
  mret (SafeRunCancel i).

Definition safeRun2 (body : Fn1 -> Fn1 -> option Fn1 -> M BodyReturn)
           (handlers : Handlers) : M Fn0 :=
  do i <- alloc (SafeRun2Vars (success handlers) (failure handlers) (catch handlers)
                              noop0 noop0 false true);
  do bodyReturn <- body (SafeRun2Succ i) (SafeRun2Fail i)
                        (option_map (fun _ => SafeRun2Catch i) (catch handlers));
  modify i (setOnCancelOnClose (or_noop0 (ret_onCancel bodyReturn))
                               (or_noop0 (ret_onClose bodyReturn))) ;;
  do c <- read i;
  match c with
  | SafeRun2Vars _ _ _ _ onClose true _ => modify i (setOnCancel noop0) ;; call0 onClose
  | SafeRun2Vars _ _ _ _ _ false _ => mret tt
  | _ => impossible
  end ;;
  mret (SafeRun2Cancel i).
End Guards.

(** [Task.run]'s normalisation of its argument. *)
Definition normalise (h : LooseHandlers) : Handlers :=
  match h with
  | LFn f => mkHandlers (User f) defaultFailureHandler None
  | LRec s f c =>
      mkHandlers (or_noop1 (option_map User s))
                 (default defaultFailureHandler (option_map User f))
                 (option_map User c)
  end.

(** The same normalisation where the engine itself calls [task.run({...})]
    with closures of its own. *)
Definition normaliseRec (s f c : option Fn1) : Handlers :=
  mkHandlers (or_noop1 s) (default defaultFailureHandler f) c.

Section Computations.
Variable call1 : Fn1 -> Val -> M unit.

Definition runAct (s f : Fn1) (a : Act) : M unit :=
  match a with
  | CallSucc v => call1 s v
  | CallFail v => call1 f v
  end.

(** [this._computation(s, f)] *)
Definition runComputation (c : Computation) (s f : Fn1) : M (option Fn0) :=
  forEach (runAct s f) (acts c) ;;
  match ret c with
  | RetUndefined => mret None
  | RetCancel tag => mret (Some (UserCancel tag))
  | RetThrow e => throw e
  | RetCancelThrows tag e => mret (Some (UserCancelThrows tag e))
  end.
End Computations.

(** ** The interpreter *)

(** [defaultFailureHandler]: rethrow an [Error], wrap anything else. *)
Definition unhandled (failure : Val) : Val :=
  match failure with
  | VErr _ => failure
  | _ => VErr failure
  end.

Definition setCancel2 (c : nat) (cancel2 : Fn0) : M unit :=
  modify c (fun cell => match cell with ChainVars _ => Some (ChainVars cancel2) | _ => None end).

(** [values[index] = x; completedCount++] *)
Definition recordValue (index : nat) (x : Val) (cell : Cell) : option Cell :=
  match cell with
  | AllVars values completedCount => Some (AllVars (<[index := x]> values) (S completedCount))
  | _ => None
  end.

(** [call1 n f x] is the call [f(x)], [call0 n c] the call [c()] and
    [_run n t h] the call [t.run(h)] for handlers already normalised by
    [Task.run]; [Empty] overrides [run] itself and returns [noop]. *)
Fixpoint call0 (n : nat) (f : Fn0) {struct n} : M unit :=
  match n with
  | 0 => out_of_fuel
  | S n =>
      match f with
      | noop0 => mret tt
      | UserCancel tag => emit (Cancelled tag)
      | SafeRunCancel i =>
          do c <- read i;
          match c with
          | SafeRunVars _ cancel _ _ _ => call0 n cancel
          | _ => impossible
          end ;;
          close (call0 n) i
      | SafeRun2Cancel i =>
          do c <- read i;
          match c with
          | SafeRun2Vars _ _ _ onCancel _ _ _ => call0 n onCancel
          | _ => impossible
          end ;;
          close2 (call0 n) i
      | OnClose cancels => forEach (call0 n) cancels
      | ChainOnCancel cancel1 c =>
          call0 n cancel1 ;;
          do cell <- read c;
          match cell with
          | ChainVars cancel2 => call0 n cancel2
          | _ => impossible
          end
      | OrElseCancel cancel1 c =>
          call0 n cancel1 ;;
          do cell <- read c;
          match cell with
          | ChainVars cancel2 => call0 n cancel2
          | _ => impossible
          end
      | UserCancelThrows tag e => emit (Cancelled tag) ;; throw e
      end
  end.

Fixpoint call1 (n : nat) (f : Fn1) (x : Val) {struct n} : M unit :=
  match n with
  | 0 => out_of_fuel
  | S n =>
      match f with
      | noop1 => mret tt
      | User tag => emit (Called tag x)
      | defaultFailureHandler => throw (unhandled x)
      | SafeRunSucc i =>
          do c <- read i;
          match c with
          | SafeRunVars handlers _ _ _ _ => call1 n (success handlers) x
          | _ => impossible
          end ;;
          close (call0 n) i
      | SafeRunFail i =>
          do c <- read i;
          match c with
          | SafeRunVars handlers _ _ _ _ => call1 n (failure handlers) x
          | _ => impossible
          end ;;
          close (call0 n) i
      | SafeRun2Succ i =>
          do c <- read i;
          match c with
          | SafeRun2Vars success _ _ _ _ _ _ => call1 n success x
          | _ => impossible
          end ;;
          close2 (call0 n) i
      | SafeRun2Fail i =>
          do c <- read i;
          match c with
          | SafeRun2Vars _ failure _ _ _ _ _ => call1 n failure x
          | _ => impossible
          end ;;
          close2 (call0 n) i
      | SafeRun2Catch i =>
          do c <- read i;
          match c with
          | SafeRun2Vars _ _ (Some catch_) _ _ _ _ => call1 n catch_ x
          | _ => impossible
          end ;;
          close2 (call0 n) i
      | AllSuccess a length index success =>
          modify a (recordValue index x) ;;
          do c <- read a;
          match c with
          | AllVars values completedCount =>
              if decide (completedCount = length)
              then call1 n success (VArr values)
              else mret tt
          | _ => impossible
          end
      | MapSuccess _fn handlers_success =>
          match _fn x with
          | Ok y => call1 n handlers_success y
          | Throw e => throw e
          end
      | MapRejectedFailure _fn handlers_failure =>
          match _fn x with
          | Ok y => call1 n handlers_failure y
          | Throw e => throw e
          end
      | ChainSuccess c _fn success failure catch_ =>
          match catch_ with
          | Some cf =>
              try_catch
                (match _fn x with
                 | Ok t => do cancel2 <- _run n t (normaliseRec (Some success) (Some failure) catch_);
                           setCancel2 c cancel2
                 | Throw e => throw e
                 end)
                (fun e => call1 n cf e)
          | None =>
              match _fn x with
              | Ok t => do cancel2 <- _run n t (normaliseRec (Some success) (Some failure) None);
                        setCancel2 c cancel2
              | Throw e => throw e
              end
          end
      | OrElseFailure c _fn success failure =>
          match _fn x with
          | Ok t => do cancel2 <- _run n t (normaliseRec (Some success) (Some failure) None);
                    setCancel2 c cancel2
          | Throw e => throw e
          end
      | UserThrows tag e => emit (Called tag x) ;; throw e
      end
  end

with _run (n : nat) (t : Task) (handlers : Handlers) {struct n} : M Fn0 :=
  match n with
  | 0 => out_of_fuel
  | S n =>
      match t with
      | FromComputation _computation =>
          safeRun2 (call0 n)
            (fun s f c =>
               do cancel <-
                 match c with
                 | Some c' =>
                     try_catch (runComputation (call1 n) _computation s f)
                               (fun e => call1 n c' e ;; mret None)
                 | None => runComputation (call1 n) _computation s f
                 end;
               mret (mkBodyReturn (Some (or_noop0 cancel)) None))
            handlers
      | Of _value => call1 n (success handlers) _value ;; mret noop0
      | Rejected _error => call1 n (failure handlers) _error ;; mret noop0
      | Empty => mret noop0
      | All _tasks =>
          safeRun (call0 n)
            (fun success failure =>
               let length := length _tasks in
               do a <- alloc (AllVars (replicate length VUndef) 0);
               do cancels <-
                 mapi (fun task index =>
                         _run n task (normaliseRec (Some (AllSuccess a length index success))
                                                   (Some failure) None))
                      0 _tasks;
               mret (ReturnObject None (OnClose cancels)))
            handlers
      | Race _tasks =>
          safeRun (call0 n)
            (fun success failure =>
               do cancels <-
                 mapi (fun task _ => _run n task (normaliseRec (Some success) (Some failure) None))
                      0 _tasks;
               mret (ReturnObject None (OnClose cancels)))
            handlers
      | Map _task _fn =>
          _run n _task (normaliseRec (Some (MapSuccess _fn (success handlers)))
                                     (Some (failure handlers)) None)
      | MapRejected _task _fn =>
          _run n _task (normaliseRec (Some (success handlers))
                                     (Some (MapRejectedFailure _fn (failure handlers))) None)
      | Chain _task _fn =>
          safeRun2 (call0 n)
            (fun success failure catch_ =>
               do c <- alloc (ChainVars noop0);
               do cancel1 <- _run n _task (normaliseRec (Some (ChainSuccess c _fn success failure catch_))
                                                        (Some failure) catch_);
               mret (mkBodyReturn (Some (ChainOnCancel cancel1 c)) None))
            handlers
      | OrElse _task _fn =>
          safeRun (call0 n)
            (fun success failure =>
               do c <- alloc (ChainVars noop0);
               do cancel1 <- _run n _task (normaliseRec (Some success)
                                                        (Some (OrElseFailure c _fn success failure)) None);
               mret (ReturnFunction (OrElseCancel cancel1 c)))
            handlers
      end
  end.

(** [task.run(h)] as the caller of the library invokes it. *)
Definition run (n : nat) (t : Task) (h : LooseHandlers) : M Fn0 :=
  _run n t (normalise h).

(** ** The outside world *)

(** After [run] has returned, things happen one at a time: external code
    (a timer, an I/O completion) invokes a callback it was given, or the
    caller invokes a cancel handle.  An exception that escapes reaches the
    event loop, which reports it and goes on. *)
Inductive Event :=
| Invoke (f : Fn1) (x : Val)
| Cancel (c : Fn0).

Definition fire (n : nat) (ev : Event) : M unit :=
  try_catch (match ev with
             | Invoke f x => call1 n f x
             | Cancel c => call0 n c
             end)
            (fun e => emit (Uncaught e)).

Definition fireAll (n : nat) (evs : list Event) : M unit := forEach (fire n) evs.

(** The state in which a monadic action ends, when it ends. *)
Definition final {A} (m : M A) (s : State) : option State :=
  match m s with
  | Some (_, s') => Some s'
  | None => None
  end.

(** The callbacks of the [k]-th guard cell as handed to a leaf computation. *)
Definition succeed (i : nat) (x : Val) : Event := Invoke (SafeRun2Succ i) x.
Definition fail (i : nat) (x : Val) : Event := Invoke (SafeRun2Fail i) x.


(** ** Cancel functions that return *)

(** [calm c]: no cancel function that throws occurs in the cancel operation
    [c]. *)
Fixpoint calm (c : Fn0) : Prop :=
  match c with
  | UserCancelThrows _ _ => False
  | OnClose cancels =>
      (fix all (l : list Fn0) : Prop :=
         match l with
         | [] => True
         | c' :: l' => calm c' /\ all l'
         end) cancels
  | ChainOnCancel cancel1 _ | OrElseCancel cancel1 _ => calm cancel1
  | noop0 | UserCancel _ | SafeRunCancel _ | SafeRun2Cancel _ => True
  end.

(** [tame t]: the cancel functions that the computations of [t] return, and
    those of the tasks that the continuations in [t] produce, return when they
    are invoked. *)
Fixpoint tame (t : Task) : Prop :=
  match t with
  | FromComputation c =>
      match ret c with
      | RetCancelThrows _ _ => False
      | RetUndefined | RetCancel _ | RetThrow _ => True
      end
  | Of _ | Rejected _ | Empty => True
  | All ts | Race ts =>
      (fix all (l : list Task) : Prop :=
         match l with
         | [] => True
         | t' :: l' => tame t' /\ all l'
         end) ts
  | Map t' _ | MapRejected t' _ => tame t'
  | Chain t' fn | OrElse t' fn =>
      tame t' /\ forall x, match fn x with Ok t2 => tame t2 | Throw _ => True end
  end.

Definition tame_fn (fn : Val -> Res Task) : Prop :=
  forall x, match fn x with Ok t => tame t | Throw _ => True end.

(** The cancel operations held in a cell are calm. *)
Definition calm_cell (c : Cell) : Prop :=
  match c with
  | SafeRunVars _ cancel onClose _ _ => calm cancel /\ calm onClose
  | SafeRun2Vars _ _ _ onCancel onClose _ _ => calm onCancel /\ calm onClose
  | AllVars _ _ => True
  | ChainVars cancel2 => calm cancel2
  end.

Definition Calm (s : State) : Prop :=
  forall j c, heap s !! j = Some c -> calm_cell c.

(** ** Who can reach the caller's callbacks *)

(** [quiet f]: no callback of the caller occurs in the closure [f], and the
    tasks that a continuation in [f] starts are tame. *)
Fixpoint quiet (f : Fn1) : Prop :=
  match f with
  | User _ | UserThrows _ _ => False
  | AllSuccess _ _ _ s => quiet s
  | MapSuccess _ k | MapRejectedFailure _ k => quiet k
  | ChainSuccess _ fn s f c =>
      tame_fn fn /\ quiet s /\ quiet f /\ match c with Some c' => quiet c' | None => True end
  | OrElseFailure _ fn s f => tame_fn fn /\ quiet s /\ quiet f
  | noop1 | defaultFailureHandler | SafeRunSucc _ | SafeRunFail _
  | SafeRun2Succ _ | SafeRun2Fail _ | SafeRun2Catch _ => True
  end.

Definition quiet_opt (o : option Fn1) : Prop :=
  match o with Some f => quiet f | None => True end.

Definition quietH (h : Handlers) : Prop :=
  quiet (success h) /\ quiet (failure h) /\ quiet_opt (catch h).

Definition quiet_cell (c : Cell) : Prop :=
  match c with
  | SafeRunVars h _ _ _ _ => quietH h
  | SafeRun2Vars s f c _ _ _ _ => quiet s /\ quiet f /\ quiet_opt c
  | AllVars _ _ | ChainVars _ => True
  end /\ calm_cell c.

(** [passive f]: what [run] makes of the caller's handlers before a guard
    stores them, a callback of the caller that returns (or [noop], or the
    default failure handler) under the transforms of [Map] and [MapRejected].
    Calling such a closure touches no variable of the engine.  A callback of
    the caller that throws, [UserThrows], is not passive. *)
Fixpoint passive (f : Fn1) : Prop :=
  match f with
  | noop1 | User _ | defaultFailureHandler => True
  | MapSuccess _ k | MapRejectedFailure _ k => passive k
  | UserThrows _ _ => False
  | SafeRunSucc _ | SafeRunFail _ | SafeRun2Succ _ | SafeRun2Fail _ | SafeRun2Catch _
  | AllSuccess _ _ _ _ | ChainSuccess _ _ _ _ _ | OrElseFailure _ _ _ _ => False
  end.

(** The callback of the caller that a passive closure ends in. *)
Fixpoint tag_of (f : Fn1) : option nat :=
  match f with
  | User tag => Some tag
  | MapSuccess _ k | MapRejectedFailure _ k => tag_of k
  | _ => None
  end.

Definition passive_opt (o : option Fn1) : Prop :=
  match o with Some f => passive f | None => True end.

Definition passiveH (h : Handlers) : Prop :=
  passive (success h) /\ passive (failure h) /\ passive_opt (catch h).

(** The caller's callbacks a handler set can fire. *)
Definition fires (h : Handlers) (tag : nat) : Prop :=
  tag_of (success h) = Some tag \/ tag_of (failure h) = Some tag \/
  exists c, catch h = Some c /\ tag_of c = Some tag.

(** The invocations of the caller's callbacks in a log, oldest first. *)
Fixpoint called (l : list Obs) : list (nat * Val) :=
  match l with
  | [] => []
  | Called tag v :: l' => (tag, v) :: called l'
  | _ :: l' => called l'
  end.

(** The guard cell still holds the handlers [h] and its [close] is live. *)
Definition live_cell (h : Handlers) (c : Cell) : Prop :=
  match c with
  | SafeRunVars h' _ _ _ close => h' = h /\ close = true
  | SafeRun2Vars s f ct _ _ _ close =>
      s = success h /\ f = failure h /\ ct = catch h /\ close = true
  | _ => False
  end.

(** The guard cell is live with the handlers [h], and what it would cancel
    returns. *)
Definition held (h : Handlers) (c : Cell) : Prop := live_cell h c /\ calm_cell c.

(** At most one invocation since the log showed [k], by a callback of [h]. *)
Definition settled (h : Handlers) (k l : list (nat * Val)) : Prop :=
  l = k \/ exists tag v, fires h tag /\ l = k ++ [(tag, v)].

(** The invariant of an execution instance whose guard cell is [i]: the
    caller's callbacks are stored nowhere but in cell [i]; as long as that cell
    is live none of them has been invoked (since the log showed [k]), and once
    it is closed at most one has.  No cell holds a cancel function that
    throws. *)
Definition Inv (i : nat) (h : Handlers) (k : list (nat * Val)) (s : State) : Prop :=
  (forall j c, heap s !! j = Some c -> j <> i -> quiet_cell c) /\
  match heap s !! i with
  | Some c => (held h c /\ called (log s) = k) \/
              (quiet_cell c /\ settled h k (called (log s)))
  | None => settled h k (called (log s))
  end.

(** No cell holds a callback of the caller, nor a cancel function that
    throws. *)
Definition Quiet (s : State) : Prop :=
  forall j c, heap s !! j = Some c -> quiet_cell c.

(** Assignments that keep a closed cell closed and a live cell live, or close
    it. *)
Definition gentle (h : Handlers) (f : Cell -> option Cell) : Prop :=
  forall c c', f c = Some c' ->
    (quiet_cell c -> quiet_cell c') /\ (held h c -> held h c' \/ quiet_cell c').

(** A cancel operation keeps the invariant, whether it returns or throws: it
    invokes no callback of the caller. *)
Definition keeps_inv i h k {A} (m : M A) : Prop :=
  forall s r s', m s = Some (r, s') ->
    called (log s') = called (log s) /\ (Inv i h k s -> Inv i h k s').

(** [a] is a value that [m] can return. *)
Definition returns {A} (m : M A) (a : A) : Prop :=
  exists s s', m s = Some (Ok a, s').

(** What a guard stores of the value its body returned is calm. *)
Definition calm_return (r : SafeRunReturn) : Prop :=
  match r with
  | ReturnNothing => True
  | ReturnFunction f => calm f
  | ReturnObject cancel onClose => calm (or_noop0 cancel) /\ calm onClose
  end.

Definition calm_body (r : BodyReturn) : Prop :=
  calm (or_noop0 (ret_onCancel r)) /\ calm (or_noop0 (ret_onClose r)).

(** A computation preserves the invariant. *)
Definition pres_inv i h k {A} (m : M A) : Prop :=
  forall s r s', Inv i h k s -> m s = Some (r, s') -> Inv i h k s'.

(** The moment between the invocation of a callback of the caller by a
    wrapped callback of cell [i] and the [close()] that follows it. *)
Definition Fired_at i h (k : list (nat * Val)) (s : State) : Prop :=
  (forall j c, heap s !! j = Some c -> j <> i -> quiet_cell c) /\
  (exists c, heap s !! i = Some c /\ held h c) /\
  exists tag v, fires h tag /\ called (log s) = k ++ [(tag, v)].

(** The events the outside world can cause: it holds wrapped callbacks and
    cancel handles, never a callback of the caller itself. *)
Definition quiet_event (ev : Event) : Prop :=
  match ev with
  | Invoke f _ => quiet f
  | Cancel _ => True
  end.

(** [c] is the cancel handle of the execution instance whose guard cell is
    [i]; an instance without a guard cell ([Of], [Rejected], [Empty]) hands
    out [noop]. *)
Definition handle_of (c : Fn0) (i : nat) (s : State) : Prop :=
  (c = noop0 /\ Quiet s) \/ c = SafeRunCancel i \/ c = SafeRun2Cancel i.

(** The handler set [h'] fires only callbacks that [h] fires. *)
Definition within (h' h : Handlers) : Prop := forall tag, fires h' tag -> fires h tag.

(** The callbacks a guard with cell [i] hands to its body. *)
Definition wrapped (i : nat) (f : Fn1) : Prop :=
  f = SafeRunSucc i \/ f = SafeRunFail i \/
  f = SafeRun2Succ i \/ f = SafeRun2Fail i \/ f = SafeRun2Catch i.

(** ** The claims as the specification words them, where the code differs *)

(** The two callbacks of the leaf computation that was run first. *)
Definition callback (succ : bool) (x : Val) : Event :=
  if succ then succeed 0 x else fail 0 x.

(** "After the first invocation of either wrapped callback, all subsequent
    invocations of either callback have no observable effect on the user
    handlers", for a leaf task. *)
Definition absorbs_after_first_invocation : Prop :=
  forall comp h n c s1 b1 x1 s2 b2 x2 s3,
    run n (FromComputation comp) h init = Some (Ok c, s1) ->
    final (fire n (callback b1 x1)) s1 = Some s2 ->
    final (fire n (callback b2 x2)) s2 = Some s3 ->
    called (log s3) = called (log s2).

(** "Running All on an empty task list settles successfully with an empty
    result sequence." *)
Definition all_empty_settles : Prop :=
  forall n h c s, run n (All []) h init = Some (Ok c, s) ->
                  exists tag, called (log s) = [(tag, VArr [])].


(** A leaf computation that settles later, if ever, and whose cancel function
    is observable as [Cancelled tag]. *)
Definition later (tag : nat) : Task :=
  FromComputation {| acts := []; ret := RetCancel tag |}.

(** The same, with a cancel function that throws [e]. *)
Definition later_throwing (tag : nat) (e : Val) : Task :=
  FromComputation {| acts := []; ret := RetCancelThrows tag e |}.

(** "If the cancellation handle returned by run is invoked before settlement,
    then neither the success nor the failure handler ever fires for that
    execution instance afterwards, even if the underlying wrapped computation
    later invokes its internal succeed/fail callbacks", for a leaf task. *)
Definition cancel_silences_every_computation : Prop :=
  forall comp h n c s1 s2 b x s3,
    run n (FromComputation comp) h init = Some (Ok c, s1) ->
    called (log s1) = [] ->
    final (fire n (Cancel c)) s1 = Some s2 ->
    final (fire n (callback b x)) s2 = Some s3 ->
    called (log s3) = [].

(** "Invoking the handle a second or later time has no additional effect", for
    a leaf task. *)
Definition second_cancel_has_no_effect : Prop :=
  forall comp h n c s1 s2 s3,
    run n (FromComputation comp) h init = Some (Ok c, s1) ->
    final (fire n (Cancel c)) s1 = Some s2 ->
    final (fire n (Cancel c)) s2 = Some s3 ->
    s3 = s2.


(** "Running a Map task with a handler set that includes a catch handler never
    delivers a defect from the child task tree to that catch handler", for a
    [Map] that the continuation of a [Chain] runs, with the handler set that
    [Chain] passes on. *)
Definition map_below_chain_drops_catch : Prop :=
  forall v t fn so sf c n r s,
    so <> Some c -> sf <> Some c ->
    run n (Chain (Of v) (fun _ => Ok (Map t fn))) (LRec so sf (Some c)) init = Some (r, s) ->
    forall e, (c, e) ∉ called (log s).



(** ** Tasks that settle while [run] is running *)

(** What a task that is run without a catch handler does before [run]
    returns, when it is not pending: it calls the success handler, it calls
    the failure handler, or it throws. *)
Inductive Outcome :=
| Succeeds (v : Val)
| Fails (x : Val)
| Throws (e : Val).

Definition is_success (o : Outcome) : Prop :=
  match o with Succeeds _ => True | _ => False end.

Definition is_failure (o : Outcome) : Prop :=
  match o with Fails _ => True | _ => False end.

(** The first settlement of a task as the documentation of each variant
    describes it.  [All] and [Race] run their tasks in order: the first task
    decides for [Race], and for [All] when it does not succeed. *)
Inductive sync : Task -> Outcome -> Prop :=
| sync_Of v : sync (Of v) (Succeeds v)
| sync_Rejected x : sync (Rejected x) (Fails x)
| sync_succeed v rest r :
    sync (FromComputation {| acts := CallSucc v :: rest; ret := r |}) (Succeeds v)
| sync_fail x rest r :
    sync (FromComputation {| acts := CallFail x :: rest; ret := r |}) (Fails x)
| sync_throw e : sync (FromComputation {| acts := []; ret := RetThrow e |}) (Throws e)
| sync_Map t fn v y :
    sync t (Succeeds v) -> fn v = Ok y -> sync (Map t fn) (Succeeds y)
| sync_Map_defect t fn v e :
    sync t (Succeeds v) -> fn v = Throw e -> sync (Map t fn) (Throws e)
| sync_Map_other t fn o :
    sync t o -> ~ is_success o -> sync (Map t fn) o
| sync_MapRejected t fn x y :
    sync t (Fails x) -> fn x = Ok y -> sync (MapRejected t fn) (Fails y)
| sync_MapRejected_defect t fn x e :
    sync t (Fails x) -> fn x = Throw e -> sync (MapRejected t fn) (Throws e)
| sync_MapRejected_other t fn o :
    sync t o -> ~ is_failure o -> sync (MapRejected t fn) o
| sync_Chain t fn v t' o :
    sync t (Succeeds v) -> fn v = Ok t' -> sync t' o -> sync (Chain t fn) o
| sync_Chain_defect t fn v e :
    sync t (Succeeds v) -> fn v = Throw e -> sync (Chain t fn) (Throws e)
| sync_Chain_other t fn o :
    sync t o -> ~ is_success o -> sync (Chain t fn) o
| sync_OrElse t fn x t' o :
    sync t (Fails x) -> fn x = Ok t' -> sync t' o -> sync (OrElse t fn) o
| sync_OrElse_defect t fn x e :
    sync t (Fails x) -> fn x = Throw e -> sync (OrElse t fn) (Throws e)
| sync_OrElse_other t fn o :
    sync t o -> ~ is_failure o -> sync (OrElse t fn) o
| sync_Race t ts o :
    sync t o -> sync (Race (t :: ts)) o
| sync_All t ts o :
    sync t o -> ~ is_success o -> sync (All (t :: ts)) o.

(** [s'] extends [s]: the cells of [s] are as they were, more may have been
    allocated, and nothing was observed. *)
Definition ext (s s' : State) : Prop :=
  heap s `prefix_of` heap s' /\ log s' = log s.

(** Called with [x] in a state that extends [s], with fuel [k] or more, the
    handler [f] throws [e] without an observable effect. *)
Definition throws_at (k : nat) (f : Fn1) (x e : Val) (s : State) : Prop :=
  forall n s0, k <= n -> ext s s0 ->
    exists s1, call1 n f x s0 = Some (Throw e, s1) /\ ext s0 s1.

(** The handler of [h] that the outcome [o] reaches throws [e]; an outcome
    that is an exception is [e] itself. *)
Definition escapes (o : Outcome) (h : Handlers) (e : Val) (s : State) (k : nat) : Prop :=
  match o with
  | Succeeds v => throws_at k (success h) v e s
  | Fails x => throws_at k (failure h) x e s
  | Throws e' => e = e'
  end.

(** ** How a cell changes once its guard has returned *)

(** A guard cell stays as it is or gets closed; the other cells are plain
    variables. *)
Definition evolves (c c' : Cell) : Prop :=
  match c with
  | SafeRunVars _ _ onClose _ _ =>
      c' = c \/ c' = SafeRunVars noopHandlers noop0 onClose true false
  | SafeRun2Vars _ _ catch_ _ onClose _ _ =>
      c' = c \/
      c' = SafeRun2Vars noop1 noop1 (option_map (fun _ => noop1) catch_) noop0 onClose true false
  | AllVars _ _ => exists values completedCount, c' = AllVars values completedCount
  | ChainVars _ => exists cancel2, c' = ChainVars cancel2
  end.

Definition steps (s s' : State) : Prop :=
  forall j c, heap s !! j = Some c -> exists c', heap s' !! j = Some c' /\ evolves c c'.

Definition moves {A} (m : M A) : Prop :=
  forall s r s', m s = Some (r, s') -> steps s s'.

(** A closed guard cell: its handlers and its cancel operation are [noop] and
    so is its [close]. *)
Definition dead_cell (c : Cell) : Prop :=
  match c with
  | SafeRunVars h cancel _ closed close =>
      h = noopHandlers /\ cancel = noop0 /\ closed = true /\ close = false
  | SafeRun2Vars s f ct onCancel _ closed close =>
      s = noop1 /\ f = noop1 /\ ct = option_map (fun _ => noop1) ct /\
      onCancel = noop0 /\ closed = true /\ close = false
  | _ => False
  end.

(** A guard cell as [run] leaves it when the body has not settled. *)
Definition open_cell (h : Handlers) (c : Cell) : Prop :=
  match c with
  | SafeRunVars h' _ _ closed close => h' = h /\ closed = false /\ close = true
  | SafeRun2Vars s f ct _ _ closed close =>
      s = success h /\ f = failure h /\ ct = catch h /\ closed = false /\ close = true
  | _ => False
  end.

(** The handlers a task stores in its guard cell when it is run with [h]. *)
Fixpoint stored (t : Task) (h : Handlers) : Handlers :=
  match t with
  | Map t' fn =>
      stored t' (normaliseRec (Some (MapSuccess fn (success h))) (Some (failure h)) None)
  | MapRejected t' fn =>
      stored t' (normaliseRec (Some (success h)) (Some (MapRejectedFailure fn (failure h))) None)
  | _ => h
  end.

(** [m] keeps extending an execution that started in [s0]. *)
Definition moves_from (s0 : State) {A} (m : M A) : Prop :=
  forall s r s', steps s0 s -> m s = Some (r, s') -> steps s0 s'.

(** [c] is the cancel handle that the guard with cell [c0] at [i] returned. *)
Definition is_handle (c : Fn0) (i : nat) (c0 : Cell) : Prop :=
  match c0 with
  | SafeRunVars _ _ _ _ _ => c = SafeRunCancel i
  | SafeRun2Vars _ _ _ _ _ _ _ => c = SafeRun2Cancel i
  | _ => False
  end.

(** The execution instance behind the handle [c]: none ([noop]), or a guard
    cell that still holds the handlers [h] or is closed. *)
Definition Instance (c : Fn0) (i : nat) (h : Handlers) (s : State) : Prop :=
  c = noop0 \/
  exists c0, heap s !! i = Some c0 /\ is_handle c i c0 /\ (live_cell h c0 \/ dead_cell c0).

(** The same, closed. *)
Definition Closed (c : Fn0) (i : nat) (s : State) : Prop :=
  c = noop0 \/ exists c0, heap s !! i = Some c0 /\ is_handle c i c0 /\ dead_cell c0.


(** ** Tasks over leaf computations that settle later *)

(** The guard cell of a leaf [later tag]: still pending, with the handlers it
    was run with, or closed. *)
Inductive Leaf :=
| Pending (sf ff : Fn1) (tag : nat)
| Done.

Definition leaf_cell (l : Leaf) : Cell :=
  match l with
  | Pending sf ff tag => SafeRun2Vars sf ff None (UserCancel tag) noop0 false true
  | Done => SafeRun2Vars noop1 noop1 None noop0 noop0 true false
  end.

(** The leaves that [tasks.map(...)] starts, the one at [index] with the
    success handler [sf index]. *)
Fixpoint started (sf : nat -> Fn1) (ff : Fn1) (index : nat) (tags : list nat) : list Leaf :=
  match tags with
  | [] => []
  | tag :: tags' => Pending (sf index) ff tag :: started sf ff (S index) tags'
  end.

(** The cancel functions of the leaves still pending, in order. *)
Fixpoint pending_tags (ls : list Leaf) : list nat :=
  match ls with
  | [] => []
  | Pending _ _ tag :: ls' => tag :: pending_tags ls'
  | Done :: ls' => pending_tags ls'
  end.

(** The cancel handles of the guards in cells [base], [base + 1], ... *)
Definition handles (base len : nat) : list Fn0 := map SafeRun2Cancel (seq base len).

(** ** The rest of the public surface of [Task] *)

(** [concat(otherTask)]: [Task.race([this, otherTask])]. *)
Definition concat (this otherTask : Task) : Task := Race [this; otherTask].

Section Ap.
(** Function values are not part of [Val]: [apply f x] is what the call
    [f(x)] of the value [f] does, a result or an exception. *)
Variable apply : Val -> Val -> Res Val.

(** [([f, x]) => f(x)]; an array element that is missing is [undefined], and
    destructuring what is not an array throws a [TypeError]. *)
Definition applyPair (v : Val) : Res Val :=
  match v with
  | VArr l => apply (default VUndef (l !! 0)) (default VUndef (l !! 1))
  | _ => Throw (VErr VUndef)
  end.

(** [ap(otherTask)]: [Task.all([this, otherTask]).map(([f, x]) => f(x))]. *)
Definition ap (this otherTask : Task) : Task := Map (All [this; otherTask]) applyPair.
End Ap.

(** [runAndPrintResult()]: it calls [this.run] with two callbacks, but [run]
    has one parameter, so the second one, the printer of failures, is dropped
    by the call.  The printers are named by tags like any callback of the
    caller. *)
Definition runAndPrintResult (n : nat) (printSuccess _printFailure : nat) (t : Task) : M unit :=
  run n t (LFn printSuccess) ;; mret tt.

(** A leaf computation with one guard cell at address [0], as [run] leaves it
    when the computation has returned the cancel function [tag] without
    settling, and as [close()] leaves it. *)
Definition pending_leaf (h : Handlers) (tag : nat) : Cell :=
  SafeRun2Vars (success h) (failure h) (catch h) (UserCancel tag) noop0 false true.

Definition closed_leaf (h : Handlers) : Cell :=
  SafeRun2Vars noop1 noop1 (option_map (fun _ => noop1) (catch h)) noop0 noop0 true false.

(** What the outside world can do with one leaf: call one of the two callbacks
    it was given, or invoke the cancel handle. *)
Inductive LeafEvent :=
| Succeed (x : Val)
| Fail (x : Val)
| CancelIt.

Definition leaf_event (ev : LeafEvent) : Event :=
  match ev with
  | Succeed x => succeed 0 x
  | Fail x => fail 0 x
  | CancelIt => Cancel (SafeRun2Cancel 0)
  end.

(** How often the cancel function [tag] of a computation was invoked. *)
Fixpoint cancelled (tag : nat) (l : list Obs) : nat :=
  match l with
  | [] => 0
  | Cancelled tag' :: l' => (if decide (tag' = tag) then 1 else 0) + cancelled tag l'
  | _ :: l' => cancelled tag l'
  end.

(** What one event does to a pending leaf. *)
Definition leaf_step (h : Handlers) (tag : nat) (ev : LeafEvent) (lg : list Obs) : State :=
  match ev with
  | Succeed x =>
      match success h with
      | User s => mkState [closed_leaf h] (lg ++ [Called s x])
      | _ => mkState [closed_leaf h] lg
      end
  | Fail x =>
      match failure h with
      | User f => mkState [closed_leaf h] (lg ++ [Called f x])
      | _ => mkState [pending_leaf h tag] (lg ++ [Uncaught (unhandled x)])
      end
  | CancelIt => mkState [closed_leaf h] (lg ++ [Cancelled tag])
  end.


(** ** What the caller sees *)

(** The outcome of a run as its caller sees it: the exception that came out of
    it, if any, and what has been logged. *)
Definition observed {A} (r : option (Res A * State)) : option (option Val * list Obs) :=
  match r with
  | Some (Ok _, s) => Some (None, log s)
  | Some (Throw e, s) => Some (Some e, log s)
  | None => None
  end.

(** The log once the outside world has caused the events [evs]. *)
Definition log_after (n : nat) (evs : list Event) (s : State) : option (list Obs) :=
  option_map log (final (fireAll n evs) s).

(** A callback of the guard cell [i], by outcome. *)
Definition settle (i : nat) (ok : bool) (x : Val) : Event :=
  if ok then succeed i x else fail i x.

(** The events of a computation that runs under one [Race] guard, in cell [1]
    below the guard cell [0]. *)
Definition raced_event (ev : LeafEvent) : Event :=
  match ev with
  | Succeed x => succeed 1 x
  | Fail x => fail 1 x
  | CancelIt => Cancel (SafeRunCancel 0)
  end.

(** * The first revision of the engine ([part_000])

    [FromComputation.run] carries its own guard: the variables [succ], [fail],
    [cancel], [closed] and [close] of one call.  There are no combinators yet,
    so one instance is the whole state, and nothing recurses: the model is
    total. *)
Module Legacy.

(** The values of [succ] and [fail]: a callback of the caller, one that
    returns or one that throws, [noop], or [defaultFailureHandler], which here
    wraps whatever it is given. *)
Inductive Handler :=
| noop
| User (tag : nat)
| defaultFailureHandler
| UserThrows (tag : nat) (e : Val).

(** The values of [cancel]: [noop], or the cancel function of the
    computation, one that returns or one that throws. *)
Inductive Cancel :=
| noopCancel
| UserCancel (tag : nat)
| UserCancelThrows (tag : nat) (e : Val).

(** The variables of one call of [run]; [close] tells whether the variable
    still holds the closing function ([true]) or [noop]. *)
Record Vars := mkVars {
  succ : Handler;
  fail : Handler;
  cancel : Cancel;
  closed : bool;
  close : bool
}.

Record State := mkState { vars : Vars; log : list Obs }.

(** [h(x)] *)
Definition call (h : Handler) (x : Val) (s : State) : Res unit * State :=
  match h with
  | noop => (Ok tt, s)
  | User tag => (Ok tt, mkState (vars s) (log s ++ [Called tag x]))
  | defaultFailureHandler => (Throw (VErr x), s)
  | UserThrows tag e => (Throw e, mkState (vars s) (log s ++ [Called tag x]))
  end.

(** [close()] *)
Definition do_close (s : State) : State :=
  if close (vars s)
  then mkState (mkVars noop noop noopCancel true false) (log s)
  else s.

(** [x => { succ(x); close() }] and [x => { fail(x); close() }] *)
Definition handleSucc (x : Val) (s : State) : Res unit * State :=
  match call (succ (vars s)) x s with
  | (Ok _, s') => (Ok tt, do_close s')
  | r => r
  end.

Definition handleFail (x : Val) (s : State) : Res unit * State :=
  match call (fail (vars s)) x s with
  | (Ok _, s') => (Ok tt, do_close s')
  | r => r
  end.

Fixpoint runActs (l : list Act) (s : State) : Res unit * State :=
  match l with
  | [] => (Ok tt, s)
  | a :: l' =>
      match (match a with CallSucc v => handleSucc v s | CallFail v => handleFail v s end) with
      | (Ok _, s') => runActs l' s'
      | r => r
      end
  end.

(** [this._computation(handleSucc, handleFail)] *)
Definition _computation (c : Computation) (s : State) : Res (option Cancel) * State :=
  match runActs (acts c) s with
  | (Ok _, s') =>
      match ret c with
      | RetUndefined => (Ok None, s')
      | RetCancel tag => (Ok (Some (UserCancel tag)), s')
      | RetThrow e => (Throw e, s')
      | RetCancelThrows tag e => (Ok (Some (UserCancelThrows tag e)), s')
      end
  | (Throw e, s') => (Throw e, s')
  end.

(** The body of [FromComputation.run] once [succ] and [fail] have their
    values; when it returns, it returns the one handle
    [() => { cancel(); close() }]. *)
Definition runWith (c : Computation) (handleSucc handleFail : Handler)
    (lg : list Obs) : Res unit * State :=
  let s := mkState (mkVars handleSucc handleFail noopCancel false true) lg in
  match _computation c s with
  | (Ok _cancel, s') =>
      (Ok tt,
       if closed (vars s') then s'
       else mkState (mkVars (succ (vars s')) (fail (vars s')) (default noopCancel _cancel)
                            (closed (vars s')) (close (vars s')))
                    (log s'))
  | (Throw e, s') => (Throw e, s')
  end.

(** [FromComputation.run(handleSucc, handleFail = defaultFailureHandler)] with
    callbacks of the caller that return. *)
Definition run (c : Computation) (handleSucc : nat) (handleFail : option nat)
    (lg : list Obs) : Res unit * State :=
  runWith c (User handleSucc) (from_option User defaultFailureHandler handleFail) lg.

(** The handle [() => { cancel(); close() }]. *)
Definition handle (s : State) : Res unit * State :=
  match cancel (vars s) with
  | noopCancel => (Ok tt, do_close s)
  | UserCancel tag => (Ok tt, do_close (mkState (vars s) (log s ++ [Cancelled tag])))
  | UserCancelThrows tag e => (Throw e, mkState (vars s) (log s ++ [Cancelled tag]))
  end.

(** The event loop reports what escapes. *)
Definition report (r : Res unit * State) : State :=
  match r with
  | (Ok _, s) => s
  | (Throw e, s) => mkState (vars s) (log s ++ [Uncaught e])
  end.

Definition fire (s : State) (ev : LeafEvent) : State :=
  match ev with
  | Succeed x => report (handleSucc x s)
  | Fail x => report (handleFail x s)
  | CancelIt => report (handle s)
  end.

Definition fireAll (evs : list LeafEvent) (s : State) : State := fold_left fire evs s.

(** How many times a callback of the caller or the cancel function of the
    computation has been invoked. *)
Fixpoint invocations (l : list Obs) : nat :=
  match l with
  | [] => 0
  | Uncaught _ :: l' => invocations l'
  | _ :: l' => S (invocations l')
  end.

(** A callback of the caller that returns when it is called, [noop], or the
    default failure handler, which throws but is no callback of the caller. *)
Definition polite (h : Handler) : Prop :=
  match h with
  | UserThrows _ _ => False
  | noop | User _ | defaultFailureHandler => True
  end.

(** A cancel function that returns when it is called. *)
Definition calm (c : Cancel) : Prop :=
  match c with
  | UserCancelThrows _ _ => False
  | noopCancel | UserCancel _ => True
  end.

(** The computation returns no cancel function that throws. *)
Definition tame (c : Computation) : Prop :=
  match ret c with
  | RetCancelThrows _ _ => False
  | RetUndefined | RetCancel _ | RetThrow _ => True
  end.

(** The instance is open: nothing has been invoked, [close] is live, and the
    callbacks and the cancel function it holds return. *)
Definition open (s : State) : Prop :=
  close (vars s) = true /\ closed (vars s) = false /\ invocations (log s) = 0 /\
  polite (succ (vars s)) /\ polite (fail (vars s)) /\ calm (cancel (vars s)).

(** The instance is closed: it holds nothing but [noop]. *)
Definition dead (s : State) : Prop :=
  vars s = mkVars noop noop noopCancel true false /\ invocations (log s) <= 1.

(** Before [run] has stored the cancel function of the computation. *)
Definition starting (s : State) : Prop := cancel (vars s) = noopCancel.

End Legacy.

(** ** The first revision inside the current one *)

(** The variables of a call of the old [FromComputation.run] as the guard cell
    of [safeRun2] that took their place. *)
Definition legacy_handler (h : Legacy.Handler) : Fn1 :=
  match h with
  | Legacy.noop => noop1
  | Legacy.User tag => User tag
  | Legacy.defaultFailureHandler => defaultFailureHandler
  | Legacy.UserThrows tag e => UserThrows tag e
  end.

Definition legacy_cancel (c : Legacy.Cancel) : Fn0 :=
  match c with
  | Legacy.noopCancel => noop0
  | Legacy.UserCancel tag => UserCancel tag
  | Legacy.UserCancelThrows tag e => UserCancelThrows tag e
  end.

Definition legacy_cell (v : Legacy.Vars) : Cell :=
  SafeRun2Vars (legacy_handler (Legacy.succ v)) (legacy_handler (Legacy.fail v)) None
               (legacy_cancel (Legacy.cancel v)) noop0 (Legacy.closed v) (Legacy.close v).

Definition current (s : Legacy.State) : State :=
  mkState [legacy_cell (Legacy.vars s)] (Legacy.log s).

(** The caller gave both handlers, callbacks that return:
    [defaultFailureHandler] is not in use and no handler throws. *)
Definition returning (h : Legacy.Handler) : Prop :=
  match h with
  | Legacy.noop | Legacy.User _ => True
  | Legacy.defaultFailureHandler | Legacy.UserThrows _ _ => False
  end.

Definition handled (s : Legacy.State) : Prop :=
  returning (Legacy.succ (Legacy.vars s)) /\ returning (Legacy.fail (Legacy.vars s)).

(** ** [All] over computations *)

(** The successes that have arrived, oldest first: the index of the task in
    the list given to [All], and its value. *)
Definition Arrivals := list (nat * Val).

(** [values] once the successes [arr] have been recorded. *)
Definition recorded (arr : Arrivals) (values : list Val) : list Val :=
  foldl (fun vs jv => <[jv.1 := jv.2]> vs) values arr.

(** The leaves once those at the indices [js] have settled. *)
Definition settled_leaves (js : list nat) (ls : list Leaf) : list Leaf :=
  foldl (fun ls j => <[j := Done]> ls) ls js.

(** The cancel functions of the computations that have not settled. *)
Fixpoint unsettled (js : list nat) (index : nat) (tags : list nat) : list nat :=
  match tags with
  | [] => []
  | tag :: tags' =>
      if decide (index ∈ js) then unsettled js (S index) tags'
      else tag :: unsettled js (S index) tags'
  end.

(** The success callback of the computation at [index]. *)
Definition arrival (jv : nat * Val) : Event := succeed (2 + jv.1) jv.2.

(** The state of [All] over the computations [tags] run with [h], once the
    successes [arr] have arrived and more are to come: the guard in cell [0],
    [values] and [completedCount] in cell [1], the computations below. *)
Definition all_state (h : Handlers) (tags : list nat) (arr : Arrivals) : State :=
  let len := length tags in
  mkState (SafeRunVars h noop0 (OnClose (handles 2 len)) false true
           :: AllVars (recorded arr (replicate len VUndef)) (length arr)
           :: map leaf_cell
                  (settled_leaves (map fst arr)
                     (started (fun index => AllSuccess 1 len index (SafeRunSucc 0))
                              (SafeRunFail 0) 0 tags)))
          [].
(** * Reasoning about executions *)

(** ** Inversion of the monad's operations *)

Lemma bind_inv {A B} (m : M A) (k : A -> M B) s r s' :
  bind m k s = Some (r, s') ->
  (exists a s1, m s = Some (Ok a, s1) /\ k a s1 = Some (r, s')) \/
  (exists e, m s = Some (Throw e, s') /\ r = Throw e).
Proof.
  unfold bind. destruct (m s) as [[[a|e] s1]|]; intros E.
  - left. eauto.
  - right. inversion E. eauto.
  - discriminate.
Qed.

Lemma try_catch_inv {A} (m : M A) (h : Val -> M A) s r s' :
  try_catch m h s = Some (r, s') ->
  (exists a, m s = Some (Ok a, s') /\ r = Ok a) \/
  (exists e s1, m s = Some (Throw e, s1) /\ h e s1 = Some (r, s')).
Proof.
  unfold try_catch. destruct (m s) as [[[a|e] s1]|]; intros E.
  - left. inversion E. eauto.
  - right. eauto.
  - discriminate.
Qed.

Lemma mret_inv {A} (a : A) s r s' : mret a s = Some (r, s') -> r = Ok a /\ s' = s.
Proof. unfold mret. intros E. inversion E. auto. Qed.

Lemma throw_inv {A} (e : Val) s (r : Res A) s' :
  throw e s = Some (r, s') -> r = Throw e /\ s' = s.
Proof. unfold throw. intros E. inversion E. auto. Qed.

Lemma read_inv i s r s' :
  read i s = Some (r, s') -> heap s !! i = Some (match r with Ok c => c | _ => ChainVars noop0 end)
                             /\ (exists c, r = Ok c) /\ s' = s.
Proof.
  unfold read. destruct (heap s !! i); intros E; inversion E. eauto.
Qed.

Lemma modify_inv i f s r s' :
  modify i f s = Some (r, s') ->
  exists c c', heap s !! i = Some c /\ f c = Some c' /\ r = Ok tt
               /\ s' = mkState (<[i := c']> (heap s)) (log s).
Proof.
  unfold modify. destruct (heap s !! i) as [c|]; [|discriminate].
  destruct (f c) as [c'|] eqn:Ef; [|discriminate]. intros E. inversion E.
  exists c, c'. auto.
Qed.

Lemma alloc_inv c s r s' :
  alloc c s = Some (r, s') ->
  r = Ok (length (heap s)) /\ s' = mkState (heap s ++ [c]) (log s).
Proof. unfold alloc. intros E. inversion E. auto. Qed.

Lemma emit_inv o s r s' :
  emit o s = Some (r, s') -> r = Ok tt /\ s' = mkState (heap s) (log s ++ [o]).
Proof. unfold emit. intros E. inversion E. auto. Qed.

(** Decompose a finished execution along the structure of its program. *)
Ltac minv H :=
  lazymatch type of H with
  | bind _ _ _ = Some _ =>
      let a := fresh "a" in let s1 := fresh "s" in let e := fresh "e" in
      let H1 := fresh "X" in let H2 := fresh "X" in let Hr := fresh "Hr" in
      apply bind_inv in H as [(a & s1 & H1 & H2) | (e & H1 & Hr)];
      [minv H1; try minv H2 | first [discriminate Hr | subst; minv H1]]
  | try_catch _ _ _ = Some _ =>
      let a := fresh "a" in let s1 := fresh "s" in let e := fresh "e" in
      let H1 := fresh "X" in let H2 := fresh "X" in let Hr := fresh "Hr" in
      apply try_catch_inv in H as [(a & H1 & Hr) | (e & s1 & H1 & H2)];
      [first [discriminate Hr | subst; minv H1] | minv H1; try minv H2]
  | mret _ _ = Some _ => apply mret_inv in H as [? ?]; simplify_eq
  | throw _ _ = Some _ => apply throw_inv in H as [? ?]; simplify_eq
  | impossible _ = Some _ => discriminate H
  | out_of_fuel _ = Some _ => discriminate H
  | read _ _ = Some _ =>
      let c := fresh "c" in let Hc := fresh "Hc" in
      apply read_inv in H as (Hc & [c ?] & ?); simplify_eq
  | modify _ _ _ = Some _ =>
      let c := fresh "c" in let c' := fresh "c" in
      let Hc := fresh "Hc" in let Hf := fresh "Hf" in
      apply modify_inv in H as (c & c' & Hc & Hf & ? & ?); simplify_eq
  | alloc _ _ = Some _ => apply alloc_inv in H as [? ?]; simplify_eq
  | emit _ _ = Some _ => apply emit_inv in H as [? ?]; simplify_eq
  | _ => idtac
  end.

(** A closure that finds a cell of another shape gives no answer. *)
Ltac case_cell :=
  match goal with
  | H : match ?c with _ => _ end _ = Some _ |- _ =>
      is_var c; destruct c; try (by minv H)
  end.

(** ** The invariant is kept by every step *)

Lemma called_app l1 l2 : called (l1 ++ l2) = called l1 ++ called l2.
Proof.
  induction l1 as [|[] l1 IH]; simpl; auto. by rewrite IH.
Qed.

(** *** Cancel functions that return *)

Lemma calm_OnClose cancels : calm (OnClose cancels) <-> Forall calm cancels.
Proof.
  induction cancels as [|c l IH]; [by split; [constructor|]|].
  rewrite Forall_cons, <- IH. done.
Qed.

Lemma tame_All ts : tame (All ts) <-> Forall tame ts.
Proof.
  induction ts as [|t l IH]; [by split; [constructor|]|].
  rewrite Forall_cons, <- IH. done.
Qed.

Lemma tame_Race ts : tame (Race ts) <-> Forall tame ts.
Proof.
  induction ts as [|t l IH]; [by split; [constructor|]|].
  rewrite Forall_cons, <- IH. done.
Qed.

Lemma quiet_calm c : quiet_cell c -> calm_cell c.
Proof. by intros [_ ?]. Qed.

Lemma Quiet_Calm s : Quiet s -> Calm s.
Proof. intros HQ j c Hj. by eapply quiet_calm, HQ. Qed.

Lemma Inv_Calm i h k s : Inv i h k s -> Calm s.
Proof.
  intros [Hoth Hi] j c Hj. destruct (decide (j = i)) as [->|Hne]; [|by eapply quiet_calm, Hoth].
  rewrite Hj in Hi. by destruct Hi as [[[_ ?] _]|[[_ ?] _]].
Qed.

Lemma Calm_insert s j c' :
  Calm s -> calm_cell c' -> Calm (mkState (<[j := c']> (heap s)) (log s)).
Proof.
  intros HC Hc j' c0 Hj'. simpl in Hj'.
  apply list_lookup_insert_Some in Hj' as [(_ & <- & _)|[_ Hj']]; [done|by eapply HC].
Qed.

Lemma Calm_alloc s c : Calm s -> calm_cell c -> Calm (mkState (heap s ++ [c]) (log s)).
Proof.
  intros HC Hc j c0 Hj. simpl in Hj. apply lookup_app_Some in Hj as [Hj|[_ Hj]]; [by eapply HC|].
  by apply list_lookup_singleton_Some in Hj as [_ <-].
Qed.

Lemma Calm_same s s' : heap s' = heap s -> Calm s -> Calm s'.
Proof. unfold Calm. by intros ->. Qed.

Local Abbreviation returns_calmly c0 :=
  (forall (c : Fn0) s r s', calm c -> Calm s -> c0 c s = Some (r, s') -> r = Ok tt /\ Calm s').

Lemma close_returns c0 j s r s' :
  returns_calmly c0 -> Calm s -> close c0 j s = Some (r, s') -> r = Ok tt /\ Calm s'.
Proof.
  intros Hc0 HC E. unfold close in E. minv E.
  pose proof (HC _ _ Hc) as Hcalm.
  destruct c as [hh cc oc cl [|]| | |]; minv X0; try done; destruct Hcalm as [Hcc Hoc].
  - destruct (Hc0 _ _ _ _ Hoc HC X) as [_ HC']. split; [done|].
    apply Calm_insert; [done|]. pose proof (HC' _ _ Hc1) as Hcalm.
    destruct c; simplify_eq/=. by destruct Hcalm.
  - by destruct (Hc0 _ _ _ _ Hoc HC X).
Qed.

Lemma close2_returns c0 j s r s' :
  returns_calmly c0 -> Calm s -> close2 c0 j s = Some (r, s') -> r = Ok tt /\ Calm s'.
Proof.
  intros Hc0 HC E. unfold close2 in E. minv E.
  pose proof (HC _ _ Hc) as Hcalm.
  destruct c as [|ss ff ct cc oc cl [|]| |]; minv X0; try done; destruct Hcalm as [Hcc Hoc].
  - destruct (Hc0 _ _ _ _ Hoc HC X) as [_ HC']. split; [done|].
    apply Calm_insert; [done|]. pose proof (HC' _ _ Hc1) as Hcalm.
    destruct c; simplify_eq/=. by destruct Hcalm.
  - by destruct (Hc0 _ _ _ _ Hoc HC X).
Qed.

(** A calm cancel operation returns, in a state whose cells are calm. *)
Lemma call0_returns n c s r s' :
  calm c -> Calm s -> call0 n c s = Some (r, s') -> r = Ok tt /\ Calm s'.
Proof.
  revert c s r s'. induction n as [|n IH]; intros c s r s' Hc HC E; [done|].
  destruct c as [|tag|j|j|cancels|cancel1 cc|cancel1 cc|tag e]; simpl in E; try done.
  - by minv E.
  - minv E. split; [done|]. by eapply Calm_same.
  - minv E; case_cell; destruct (HC _ _ Hc0) as [Hcc _];
      destruct (IH _ _ _ _ Hcc HC X) as [? HC']; [|done].
    by eapply close_returns.
  - minv E; case_cell; destruct (HC _ _ Hc0) as [Hcc _];
      destruct (IH _ _ _ _ Hcc HC X) as [? HC']; [|done].
    by eapply close2_returns.
  - apply calm_OnClose in Hc. revert s HC E.
    induction Hc as [|c l Hc _ IHl]; intros s HC E; simpl in E; minv E.
    + done.
    + destruct (IH _ _ _ _ Hc HC X) as [_ HC']. eauto.
    + by destruct (IH _ _ _ _ Hc HC X).
  - simpl in Hc. minv E.
    + destruct (IH _ _ _ _ Hc HC X) as [_ HC']. case_cell.
      exact (IH _ _ _ _ (HC' _ _ Hc0) HC' X2).
    + by destruct (IH _ _ _ _ Hc HC X).
  - simpl in Hc. minv E.
    + destruct (IH _ _ _ _ Hc HC X) as [_ HC']. case_cell.
      exact (IH _ _ _ _ (HC' _ _ Hc0) HC' X2).
    + by destruct (IH _ _ _ _ Hc HC X).
Qed.

Lemma call0_nothrow n c s e s' :
  calm c -> Calm s -> call0 n c s = Some (Throw e, s') -> False.
Proof. intros Hc HC E. by destruct (call0_returns _ _ _ _ _ Hc HC E). Qed.

Section Invariant.
Variables (i : nat) (h : Handlers) (k : list (nat * Val)).

Lemma Inv_modify j f c c' s :
  gentle h f -> Inv i h k s -> heap s !! j = Some c -> f c = Some c' ->
  Inv i h k (mkState (<[j := c']> (heap s)) (log s)).
Proof.
  intros Hf [Hq Hi] Hc Hfc. destruct (Hf _ _ Hfc) as [Hq' Hl'].
  pose proof (lookup_lt_Some _ _ _ Hc) as Hlt.
  split; simpl.
  - intros j' c0 Hj' Hne. destruct (decide (j = j')) as [->|Hjj].
    + rewrite list_lookup_insert_eq in Hj' by done. simplify_eq. eauto.
    + rewrite list_lookup_insert_ne in Hj' by done. eauto.
  - destruct (decide (j = i)) as [->|Hji].
    + rewrite list_lookup_insert_eq by done. rewrite Hc in Hi.
      destruct Hi as [[Hl Hk]|[Hqc Hs]]; [|by auto].
      destruct (Hl' Hl); [by auto|]. right. split; [done|]. left. done.
    + rewrite list_lookup_insert_ne by done. done.
Qed.

Lemma Inv_alloc c s :
  quiet_cell c -> Inv i h k s -> Inv i h k (mkState (heap s ++ [c]) (log s)).
Proof.
  intros Hc [Hq Hi]. split; simpl.
  - intros j c0 Hj Hne. apply lookup_app_Some in Hj as [Hj|[_ Hj]]; [by eauto|].
    apply list_lookup_singleton_Some in Hj as [_ <-]. done.
  - destruct (heap s !! i) as [c0|] eqn:E.
    + by rewrite (lookup_app_l_Some _ _ _ _ E).
    + destruct ((heap s ++ [c]) !! i) as [c0|] eqn:E'; [|done].
      apply lookup_app_Some in E' as [E'|[_ E']]; [congruence|].
      apply list_lookup_singleton_Some in E' as [_ <-]. auto.
Qed.

Lemma Inv_emit o s :
  (forall tag v, o <> Called tag v) ->
  Inv i h k s -> Inv i h k (mkState (heap s) (log s ++ [o])).
Proof.
  intros Ho [Hq Hi]. split; simpl; [done|].
  assert (called (log s ++ [o]) = called (log s)) as ->; [|done].
  rewrite called_app. destruct o; simpl; [by edestruct Ho|..]; by rewrite app_nil_r.
Qed.

Lemma gentle_closeSafeRun : gentle h closeSafeRun.
Proof.
  intros [] c' E; simplify_eq/=.
  split; [intros [_ [_ ?]]|intros [_ [_ ?]]; right]; repeat split; done.
Qed.

Lemma gentle_closeSafeRun2 : gentle h closeSafeRun2.
Proof.
  intros [] c' E; simplify_eq/=.
  split; [intros [_ [_ ?]]|intros [_ [_ ?]]; right]; repeat split; try done; by destruct catch_.
Qed.

Lemma gentle_setCancel c0 : calm c0 -> gentle h (setCancel c0).
Proof.
  intros H0 [] c' E; simplify_eq/=. split.
  - intros [? [_ ?]]. split; [done|]. by split.
  - intros [[-> ->] [_ ?]]. left. split; [done|]. by split.
Qed.

Lemma gentle_setCancelOnClose c0 c1 : calm c0 -> calm c1 -> gentle h (setCancelOnClose c0 c1).
Proof.
  intros H0 H1 [] c' E; simplify_eq/=. split.
  - intros [? _]. split; [done|]. by split.
  - intros [[-> ->] _]. left. split; [done|]. by split.
Qed.

Lemma gentle_setOnCancelOnClose c0 c1 :
  calm c0 -> calm c1 -> gentle h (setOnCancelOnClose c0 c1).
Proof.
  intros H0 H1 [] c' E; simplify_eq/=. split.
  - intros [? _]. split; [done|]. by split.
  - intros [(-> & -> & -> & ->) _]. left. split; [done|]. by split.
Qed.

Lemma gentle_setOnCancel c0 : calm c0 -> gentle h (setOnCancel c0).
Proof.
  intros H0 [] c' E; simplify_eq/=. split.
  - intros [? [_ ?]]. split; [done|]. by split.
  - intros [(-> & -> & -> & ->) [_ ?]]. left. split; [done|]. by split.
Qed.

Lemma gentle_recordValue ix x : gentle h (recordValue ix x).
Proof. intros [] c' E; simplify_eq/=. split; [done|]. by intros [[] _]. Qed.

Lemma gentle_setCancel2 c2 :
  calm c2 ->
  gentle h (fun cell => match cell with ChainVars _ => Some (ChainVars c2) | _ => None end).
Proof. intros H2 [] c' E; simplify_eq/=. split; [done|]. by intros [[] _]. Qed.

(** *** Cancel operations *)

Local Abbreviation keeps := (keeps_inv i h k).

Lemma keeps_ret {A} (a : A) : keeps (mret a).
Proof. intros s r s' E. by minv E. Qed.

Lemma keeps_throw {A} e : keeps (throw e : M A).
Proof. intros s r s' E. by minv E. Qed.

Lemma keeps_impossible {A} : keeps (impossible : M A).
Proof. intros s r s' E. done. Qed.

Lemma keeps_bind {A B} (m : M A) (f : A -> M B) :
  keeps m -> (forall a, keeps (f a)) -> keeps (bind m f).
Proof.
  intros Hm Hf s r s' E. minv E.
  - destruct (Hm _ _ _ X) as [Hl HI]. destruct (Hf _ _ _ _ X0) as [Hl' HI'].
    rewrite Hl', Hl. auto.
  - by apply (Hm _ _ _ X).
Qed.

Lemma keeps_read j : keeps (read j).
Proof. intros s r s' E. by minv E. Qed.

Lemma keeps_modify j f : gentle h f -> keeps (modify j f).
Proof. intros Hf s r s' E. minv E. split; [done|]. intros HI. eapply Inv_modify; eauto. Qed.

Lemma keeps_cancelled tag : keeps (emit (Cancelled tag)).
Proof.
  intros s r s' E. minv E. simpl. rewrite called_app, app_nil_r. split; [done|].
  intros HI. by apply Inv_emit.
Qed.

Lemma keeps_forEach {A} (f : A -> M unit) l :
  (forall x, keeps (f x)) -> keeps (forEach f l).
Proof.
  intros Hf. induction l as [|x l IH]; simpl; [apply keeps_ret|]. by apply keeps_bind.
Qed.

Lemma keeps_close c0 j : (forall c, keeps (c0 c)) -> keeps (close c0 j).
Proof.
  intros Hc0. unfold close. apply keeps_bind; [apply keeps_read|]. intros c.
  destruct c as [hh cc oc cl [|]| | |];
    [|apply keeps_ret|apply keeps_impossible..].
  apply keeps_bind; [done|]. intros ?. apply keeps_modify, gentle_closeSafeRun.
Qed.

Lemma keeps_close2 c0 j : (forall c, keeps (c0 c)) -> keeps (close2 c0 j).
Proof.
  intros Hc0. unfold close2. apply keeps_bind; [apply keeps_read|]. intros c.
  destruct c as [|ss ff ct cc oc cl [|]| |];
    [apply keeps_impossible| |apply keeps_ret|apply keeps_impossible..].
  apply keeps_bind; [done|]. intros ?. apply keeps_modify, gentle_closeSafeRun2.
Qed.

(** A cancel operation never reaches a callback of the caller. *)
Lemma keeps_call0 n c : keeps (call0 n c).
Proof.
  revert c. induction n as [|n IH]; intros c; [by intros s r s' E|].
  destruct c as [|tag|j|j|cancels|cancel1 cc|cancel1 cc|tag e]; simpl.
  - apply keeps_ret.
  - apply keeps_cancelled.
  - apply keeps_bind; [apply keeps_read|]. intros c.
    apply keeps_bind; [|intros ?; by apply keeps_close].
    destruct c; first [done | apply keeps_impossible].
  - apply keeps_bind; [apply keeps_read|]. intros c.
    apply keeps_bind; [|intros ?; by apply keeps_close2].
    destruct c; first [done | apply keeps_impossible].
  - by apply keeps_forEach.
  - apply keeps_bind; [done|]. intros ?.
    apply keeps_bind; [apply keeps_read|]. intros []; first [done | apply keeps_impossible].
  - apply keeps_bind; [done|]. intros ?.
    apply keeps_bind; [apply keeps_read|]. intros []; first [done | apply keeps_impossible].
  - apply keeps_bind; [apply keeps_cancelled|]. intros ?. apply keeps_throw.
Qed.
End Invariant.

Lemma call0_called n c s r s' :
  call0 n c s = Some (r, s') -> called (log s') = called (log s).
Proof. intros E. by destruct (keeps_call0 0 noopHandlers [] _ _ _ _ _ E) as [? _]. Qed.

(** *** Handlers and [run] *)

(** Calling a passive closure touches no variable; it invokes at most one
    callback of the caller, the one it ends in, and then returns. *)
Lemma passive_call n f x s r s' :
  passive f -> call1 n f x s = Some (r, s') ->
  heap s' = heap s /\
  (log s' = log s \/
   exists tag v, tag_of f = Some tag /\ r = Ok tt /\ log s' = log s ++ [Called tag v]).
Proof.
  revert f x. induction n as [|n IH]; intros f x Hf E; [done|].
  destruct f; simpl in *; try done.
  - minv E. auto.
  - minv E. split; [done|]. right. eauto.
  - minv E. auto.
  - destruct (_fn x); [eauto|]. minv E. auto.
  - destruct (_fn x); [eauto|]. minv E. auto.
Qed.

(** *** What [run] returns *)

(** Decompose an execution completely, through the case distinctions. *)
Ltac mcases :=
  repeat match goal with
    | H : match ?x with _ => _ end _ = Some _ |- _ => destruct x eqn:?; minv H
    | H : bind _ _ _ = Some _ |- _ => minv H
    | H : mret _ _ = Some _ |- _ => minv H
    | H : throw _ _ = Some _ |- _ => minv H
    | H : impossible _ = Some _ |- _ => minv H
    end.

Lemma safeRun_handle c0 body h s c s' :
  safeRun c0 body h s = Some (Ok c, s') -> c = SafeRunCancel (length (heap s)).
Proof.
  unfold safeRun. intros E. apply bind_inv in E as [(i & s1 & E1 & E)|(? & _ & ?)]; [|done].
  minv E1. mcases; done.
Qed.

Lemma safeRun2_handle c0 body h s c s' :
  safeRun2 c0 body h s = Some (Ok c, s') -> c = SafeRun2Cancel (length (heap s)).
Proof.
  unfold safeRun2. intros E. apply bind_inv in E as [(i & s1 & E1 & E)|(? & _ & ?)]; [|done].
  minv E1. mcases; done.
Qed.

(** The handle that [run] returns is [noop] or the handle of a guard: the
    cancel functions of the computations are only ever called through a
    guard. *)
Lemma run_handle n t h c : returns (_run n t h) c -> calm c.
Proof.
  revert t h. induction n as [|n IH]; intros t h (s & s' & E); [done|].
  destruct t; simpl in E.
  - by rewrite (safeRun2_handle _ _ _ _ _ _ E).
  - by minv E.
  - by minv E.
  - by minv E.
  - by rewrite (safeRun_handle _ _ _ _ _ _ E).
  - by rewrite (safeRun_handle _ _ _ _ _ _ E).
  - eapply IH. by eexists _, _.
  - eapply IH. by eexists _, _.
  - by rewrite (safeRun2_handle _ _ _ _ _ _ E).
  - by rewrite (safeRun_handle _ _ _ _ _ _ E).
Qed.

Lemma returns_bind {A B} (m : M A) (f : A -> M B) b :
  returns (bind m f) b -> exists a, returns m a /\ returns (f a) b.
Proof.
  intros (s & s' & E). apply bind_inv in E as [(a & s1 & E1 & E2)|(? & _ & ?)]; [|done].
  exists a. split; by eexists _, _.
Qed.

Lemma returns_ret {A} (a b : A) : returns (mret a) b -> b = a.
Proof. intros (s & s' & E). by minv E. Qed.

Lemma returns_mapi {A B} (Q : B -> Prop) (f : A -> nat -> M B) ix l ys :
  (forall x j y, returns (f x j) y -> Q y) -> returns (mapi f ix l) ys -> Forall Q ys.
Proof.
  intros Hf. revert ix ys. induction l as [|x l IH]; intros ix ys Hr; simpl in Hr.
  - apply returns_ret in Hr as ->. constructor.
  - apply returns_bind in Hr as (y & Hy & Hr). apply returns_bind in Hr as (ys' & Hys & Hr).
    apply returns_ret in Hr as ->. constructor; eauto.
Qed.

(** The cancel function of a computation of a tame task returns. *)
Lemma runComputation_calm (c1 : Fn1 -> Val -> M unit) comp s f oc :
  tame (FromComputation comp) -> returns (runComputation c1 comp s f) oc -> calm (or_noop0 oc).
Proof.
  intros Ht Hr. unfold runComputation in Hr. apply returns_bind in Hr as (_ & _ & Hr).
  simpl in Ht. destruct (ret comp); try done.
  - by apply returns_ret in Hr as ->.
  - by apply returns_ret in Hr as ->.
  - destruct Hr as (? & ? & Hr). by minv Hr.
Qed.

Section Preservation.
Variables (i : nat) (h : Handlers) (k : list (nat * Val)).
Hypothesis Hh : passiveH h.

Local Abbreviation pres := (pres_inv i h k).

Lemma pres_ret {A} (a : A) : pres (mret a).
Proof. intros s r s' HI E. by minv E. Qed.

Lemma pres_throw {A} e : pres (throw e : M A).
Proof. intros s r s' HI E. by minv E. Qed.

Lemma pres_impossible {A} : pres (impossible : M A).
Proof. intros s r s' HI E. done. Qed.

(** The continuation only has to cope with what the first part returns. *)
Lemma pres_bind {A B} (m : M A) (f : A -> M B) :
  pres m -> (forall a, returns m a -> pres (f a)) -> pres (bind m f).
Proof.
  intros Hm Hf s r s' HI E. minv E.
  - eapply Hf; [by eexists _, _| |done]. eapply Hm; eauto.
  - eapply Hm; eauto.
Qed.

Lemma pres_try_catch {A} (m : M A) (f : Val -> M A) :
  pres m -> (forall e, pres (f e)) -> pres (try_catch m f).
Proof.
  intros Hm Hf s r s' HI E. minv E.
  - eapply Hm; eauto.
  - eapply Hf; [|done]. eapply Hm; eauto.
Qed.

Lemma pres_forEach {A} (f : A -> M unit) l : (forall x, pres (f x)) -> pres (forEach f l).
Proof.
  intros Hf. induction l as [|x l IH]; simpl.
  - apply pres_ret.
  - apply pres_bind; auto.
Qed.

Lemma pres_mapi {A B} (f : A -> nat -> M B) ix l :
  Forall (fun x => forall j, pres (f x j)) l -> pres (mapi f ix l).
Proof.
  intros Hf. revert ix. induction Hf as [|x l Hx _ IH]; intros ix; simpl.
  - apply pres_ret.
  - apply pres_bind; [auto|]. intros y _. apply pres_bind; [auto|]. intros ys _. apply pres_ret.
Qed.

Lemma pres_read j : pres (read j).
Proof. intros s r s' HI E. by minv E. Qed.

Lemma pres_alloc c : quiet_cell c -> pres (alloc c).
Proof. intros Hc s r s' HI E. minv E. by apply Inv_alloc. Qed.

Lemma pres_modify j f : gentle h f -> pres (modify j f).
Proof. intros Hf s r s' HI E. minv E. eapply Inv_modify; eauto. Qed.

Lemma pres_keeps {A} (m : M A) : keeps_inv i h k m -> pres m.
Proof. intros Hm s r s' HI E. by apply (Hm _ _ _ E). Qed.

Lemma pres_call0 n c : pres (call0 n c).
Proof. apply pres_keeps, keeps_call0. Qed.

Lemma pres_close n j : pres (close (call0 n) j).
Proof. apply pres_keeps, keeps_close. intros c. apply keeps_call0. Qed.

Lemma pres_close2 n j : pres (close2 (call0 n) j).
Proof. apply pres_keeps, keeps_close2. intros c. apply keeps_call0. Qed.
End Preservation.

(** One step of a proof that a program preserves the invariant. *)
Ltac pres_step :=
  cbv beta;
  lazymatch goal with
  | |- pres_inv _ _ _ (bind _ _) => apply pres_bind; [|intros ? ?]
  | |- pres_inv _ _ _ (mret _) => apply pres_ret
  | |- pres_inv _ _ _ (throw _) => apply pres_throw
  | |- pres_inv _ _ _ impossible => apply pres_impossible
  | |- pres_inv _ _ _ (try_catch _ _) => apply pres_try_catch; [|intros ?]
  | |- pres_inv _ _ _ (read _) => apply pres_read
  | |- pres_inv _ _ _ (call0 _ _) => apply pres_call0
  | |- pres_inv _ _ _ (close _ _) => apply pres_close
  | |- pres_inv _ _ _ (close2 _ _) => apply pres_close2
  | |- pres_inv _ _ _ (alloc _) => apply pres_alloc
  | |- pres_inv _ _ _ (modify _ _) => apply pres_modify
  | |- pres_inv _ _ _ (setCancel2 _ _) => apply pres_modify, gentle_setCancel2
  | |- pres_inv _ _ _ (forEach _ _) => apply pres_forEach; intros ?
  | |- pres_inv _ _ _ (match ?x with _ => _ end) => destruct x
  | |- gentle _ _ =>
      first [ apply gentle_closeSafeRun | apply gentle_closeSafeRun2 | apply gentle_setCancel
            | apply gentle_setCancelOnClose | apply gentle_setOnCancelOnClose
            | apply gentle_setOnCancel | apply gentle_recordValue | apply gentle_setCancel2 ]
  end.

Section Execution.
Variables (i : nat) (h : Handlers) (k : list (nat * Val)).
Hypothesis Hh : passiveH h.
Local Abbreviation pres := (pres_inv i h k).

Local Abbreviation Fired := (Fired_at i h k).
Local Abbreviation pres_on c1 := (forall f x, quiet f -> pres_inv i h k (c1 f x)).

Lemma Inv_same s s' :
  heap s' = heap s -> called (log s') = called (log s) -> Inv i h k s -> Inv i h k s'.
Proof. unfold Inv. intros -> ->. done. Qed.

Lemma guard_call n j c f x s r1 s1 :
  (forall f x, quiet f -> pres (call1 n f x)) ->
  Inv i h k s -> heap s !! j = Some c ->
  (quiet_cell c -> quiet f) ->
  (live_cell h c -> passive f /\ forall tag, tag_of f = Some tag -> fires h tag) ->
  call1 n f x s = Some (r1, s1) ->
  Inv i h k s1 \/ (r1 = Ok tt /\ j = i /\ Fired s1).
Proof.
  intros IH HI Hc Hq Hl E. destruct (decide (j = i)) as [->|Hne].
  - pose proof HI as [Hoth Hi]. rewrite Hc in Hi. destruct Hi as [[Hlive Hk]|[Hqc _]].
    + destruct (Hl (proj1 Hlive)) as [Hp Htag].
      destruct (passive_call _ _ _ _ _ _ Hp E) as [Hheap [Hlog|(tag & v & Ht & -> & Hlog)]].
      * left. eapply Inv_same; [done| |done]. by rewrite Hlog.
      * right. split; [done|]. split; [done|]. split; [by rewrite Hheap|]. split.
        { exists c. by rewrite Hheap. }
        exists tag, v. split; [auto|]. by rewrite Hlog, called_app, Hk.
    + left. eapply IH; eauto.
  - left. eapply IH; [|done..]. apply Hq. by eapply HI.
Qed.

Lemma Fired_Inv s :
  Fired s -> exists tag v, fires h tag /\ called (log s) = k ++ [(tag, v)] /\
                           Inv i h (k ++ [(tag, v)]) s.
Proof.
  intros (Hoth & (c & Hc & Hl) & tag & v & Hf & Hk). exists tag, v.
  split; [done|]. split; [done|]. split; [done|]. rewrite Hc. by left.
Qed.

Lemma Inv_closed s c' tag v :
  Inv i h (k ++ [(tag, v)]) s -> called (log s) = k ++ [(tag, v)] -> fires h tag ->
  i < length (heap s) -> quiet_cell c' ->
  Inv i h k (mkState (<[i := c']> (heap s)) (log s)).
Proof.
  intros [Hoth _] Hk Hf Hlt Hq. split; simpl.
  - intros j c0 Hj Hne. rewrite list_lookup_insert_ne in Hj by done. eauto.
  - rewrite list_lookup_insert_eq by done. right. split; [done|]. right. eauto.
Qed.

(** The [close()] after the handler: what it cancels returns, so that it
    gets to sever the handlers. *)
Lemma Fired_close n s r s' :
  Fired s -> close (call0 n) i s = Some (r, s') -> Inv i h k s'.
Proof.
  intros HF E. destruct (Fired_Inv _ HF) as (tag & v & Hf & Hk & HI).
  destruct HF as (_ & (c0 & Hc0 & Hl) & _).
  unfold close in E. minv E.
  destruct c0 as [hh cc oc cl cs| | |]; try by destruct Hl as [[] _].
  destruct Hl as [[-> ->] [Hcc Hoc]].
  minv X0.
  - destruct (keeps_call0 i h (k ++ [(tag, v)]) _ _ _ _ _ X) as (Hlog & HI').
    pose proof (Inv_Calm _ _ _ _ (HI' HI) _ _ Hc) as Hcalm.
    destruct c; simplify_eq/=.
    eapply Inv_closed; eauto using lookup_lt_Some; [congruence|].
    destruct Hcalm. repeat split; done.
  - by eapply call0_nothrow in X; eauto using Inv_Calm.
Qed.

Lemma Fired_close2 n s r s' :
  Fired s -> close2 (call0 n) i s = Some (r, s') -> Inv i h k s'.
Proof.
  intros HF E. destruct (Fired_Inv _ HF) as (tag & v & Hf & Hk & HI).
  destruct HF as (_ & (c0 & Hc0 & Hl) & _).
  unfold close2 in E. minv E.
  destruct c0 as [|ss ff ct cc oc cl cs| |]; try by destruct Hl as [[] _].
  destruct Hl as [(-> & -> & -> & ->) [Hcc Hoc]].
  minv X0.
  - destruct (keeps_call0 i h (k ++ [(tag, v)]) _ _ _ _ _ X) as (Hlog & HI').
    pose proof (Inv_Calm _ _ _ _ (HI' HI) _ _ Hc) as Hcalm.
    destruct c; simplify_eq/=.
    eapply Inv_closed; eauto using lookup_lt_Some; [congruence|].
    destruct Hcalm. repeat split; try done. by destruct catch_.
  - by eapply call0_nothrow in X; eauto using Inv_Calm.
Qed.

Lemma pres_safeRun n body hh :
  quietH hh -> (forall s f, quiet s -> quiet f -> pres (body s f)) ->
  (forall s f r, returns (body s f) r -> calm_return r) ->
  pres (safeRun (call0 n) body hh).
Proof.
  intros Hq Hb Hr. unfold safeRun. apply pres_bind; [by apply pres_alloc|]. intros j _.
  apply pres_bind; [by apply Hb|]. intros cr Hcr%Hr.
  apply pres_bind; [|intros ? _].
  { destruct cr; simpl in Hcr.
    - apply pres_ret.
    - by apply pres_modify, gentle_setCancel.
    - destruct Hcr. by apply pres_modify, gentle_setCancelOnClose. }
  apply pres_bind; [apply pres_read|]. intros c _.
  apply pres_bind; [|intros ? _; apply pres_ret].
  destruct c as [? ? ? [|] ?| | |]; try apply pres_impossible; [|apply pres_ret].
  apply pres_bind; [by apply pres_modify, gentle_setCancel|]. intros ? _. apply pres_call0.
Qed.

Lemma pres_safeRun2 n body hh :
  quietH hh -> (forall s f c, quiet s -> quiet f -> quiet_opt c -> pres (body s f c)) ->
  (forall s f c r, returns (body s f c) r -> calm_body r) ->
  pres (safeRun2 (call0 n) body hh).
Proof.
  intros Hq Hb Hr. unfold safeRun2. apply pres_bind; [by apply pres_alloc|]. intros j _.
  apply pres_bind; [apply Hb; try done; by destruct (catch hh)|]. intros br [Hc1 Hc2]%Hr.
  apply pres_bind; [by apply pres_modify, gentle_setOnCancelOnClose|]. intros ? _.
  apply pres_bind; [apply pres_read|]. intros c _.
  apply pres_bind; [|intros ? _; apply pres_ret].
  destruct c as [|? ? ? ? ? [|] ?| |]; try apply pres_impossible; [|apply pres_ret].
  apply pres_bind; [by apply pres_modify, gentle_setOnCancel|]. intros ? _. apply pres_call0.
Qed.

Lemma pres_runComputation (c1 : Fn1 -> Val -> M unit) comp s f :
  pres_on c1 -> quiet s -> quiet f -> pres (runComputation c1 comp s f).
Proof.
  intros Hc Hs Hf. unfold runComputation. repeat pres_step.
  destruct x; simpl; by apply Hc.
Qed.

(** A wrapped callback: the handler stored in the cell, then [close()]. *)
Ltac wrapped IH1 closing :=
  let s := fresh "s" in let r := fresh "r" in let s' := fresh "s'" in
  let HI := fresh "HI" in let E := fresh "E" in
  intros s r s' HI E; minv E; repeat case_cell;
  match goal with
  | Hc : heap _ !! _ = Some _, X : call1 _ _ _ _ = Some _ |- _ =>
      eapply (guard_call _ _ _ _ _ _ _ _ IH1 HI Hc) in X as [?|(? & ? & ?)];
      [ first [ done | by eapply pres_close; eauto | by eapply pres_close2; eauto ]
      | first [ done | subst; by eapply closing; eauto ]
      | simpl; try by intros [(? & ? & ?) _]
      | simpl ]
  end.

(** The bodies of the guards of [_run] return calm cancel operations. *)
Lemma computation_body_calm (c1 : Fn1 -> Val -> M unit) comp s f (c : option Fn1) r :
  tame (FromComputation comp) ->
  returns (do cancel <-
             match c with
             | Some c' =>
                 try_catch (runComputation c1 comp s f) (fun e => c1 c' e ;; mret None)
             | None => runComputation c1 comp s f
             end;
           mret (mkBodyReturn (Some (or_noop0 cancel)) None)) r ->
  calm_body r.
Proof.
  intros Ht (cancel & Hc & ->%returns_ret)%returns_bind. split; [|done]. simpl.
  destruct c as [c'|]; [|by eapply runComputation_calm].
  destruct Hc as (s0 & s1 & E). minv E.
  - simplify_eq. eapply runComputation_calm; [done|]. by eexists _, _.
  - done.
Qed.

Lemma pres_exec n :
  (forall f x, quiet f -> pres (call1 n f x)) /\
  (forall t hh, tame t -> quietH hh -> pres (_run n t hh)).
Proof using Hh.
  destruct Hh as (Hps & Hpf & Hpc).
  induction n as [|n [IH1 IHr]]; [split; intros; by intros ? ? ? ? ?|].
  split.
  - intros f x Hf. destruct f; simpl in *; try done.
    + apply pres_ret.
    + apply pres_throw.
    + wrapped IH1 Fired_close; intros [-> _]; (split; [done|]); intros tag Ht; by left.
    + wrapped IH1 Fired_close; intros [-> _]; (split; [done|]); intros tag Ht; right; by left.
    + wrapped IH1 Fired_close2; intros (-> & _); (split; [done|]); intros tag Ht; by left.
    + wrapped IH1 Fired_close2; intros (_ & -> & _); (split; [done|]); intros tag Ht;
        right; by left.
    + wrapped IH1 Fired_close2; intros (_ & _ & Hc' & _); rewrite <- Hc' in *;
        (split; [done|]); intros tag Ht; right; right; eauto.
    + repeat pres_step. by apply IH1.
    + destruct (_fn x); [by apply IH1|apply pres_throw].
    + destruct (_fn x); [by apply IH1|apply pres_throw].
    + destruct Hf as (Hfn & Hs & Hf' & Hc). specialize (Hfn x). destruct catch_ as [cf|].
      * apply pres_try_catch; [|intros e; by apply IH1].
        destruct (_fn x); [|apply pres_throw].
        apply pres_bind; [by apply IHr|]. intros c2 Hc2%run_handle.
        by apply pres_modify, gentle_setCancel2.
      * destruct (_fn x); [|apply pres_throw].
        apply pres_bind; [by apply IHr|]. intros c2 Hc2%run_handle.
        by apply pres_modify, gentle_setCancel2.
    + destruct Hf as (Hfn & Hs & Hf'). specialize (Hfn x). destruct (_fn x); [|apply pres_throw].
      apply pres_bind; [by apply IHr|]. intros c2 Hc2%run_handle.
      by apply pres_modify, gentle_setCancel2.
  - intros t hh Ht Hq. pose proof Hq as (Hqs & Hqf & Hqc). destruct t; simpl.
    + apply pres_safeRun2; [done| |intros s f c r; by apply computation_body_calm].
      intros s f c Hs Hf Hc.
      apply pres_bind; [|intros ? _; apply pres_ret].
      destruct c as [c'|].
      * apply pres_try_catch; [by apply pres_runComputation|].
        intros e. apply pres_bind; [by apply IH1|]. intros ? _. apply pres_ret.
      * by apply pres_runComputation.
    + apply pres_bind; [by apply IH1|]. intros ? _. apply pres_ret.
    + apply pres_bind; [by apply IH1|]. intros ? _. apply pres_ret.
    + apply pres_ret.
    + apply tame_All in Ht. apply pres_safeRun; [done| |].
      * intros s f Hs Hf. apply pres_bind; [by apply pres_alloc|]. intros a _.
        apply pres_bind; [|intros ? _; apply pres_ret].
        apply pres_mapi. eapply Forall_impl; [exact Ht|]. intros t Ht' j. by apply IHr.
      * intros s f r (a & _ & (cs & Hcs & ->%returns_ret)%returns_bind)%returns_bind.
        split; [done|]. apply calm_OnClose.
        eapply returns_mapi; [|exact Hcs]. intros t j c. apply run_handle.
    + apply tame_Race in Ht. apply pres_safeRun; [done| |].
      * intros s f Hs Hf.
        apply pres_bind; [|intros ? _; apply pres_ret].
        apply pres_mapi. eapply Forall_impl; [exact Ht|]. intros t Ht' j. by apply IHr.
      * intros s f r (cs & Hcs & ->%returns_ret)%returns_bind.
        split; [done|]. apply calm_OnClose.
        eapply returns_mapi; [|exact Hcs]. intros t j c. apply run_handle.
    + by apply IHr.
    + by apply IHr.
    + destruct Ht as [Ht Hfn]. apply pres_safeRun2; [done| |].
      * intros s f c Hs Hf Hc. apply pres_bind; [by apply pres_alloc|]. intros a _.
        apply pres_bind; [|intros ? _; apply pres_ret].
        apply IHr; [done|]. repeat split; done.
      * intros s f c r (a & _ & (c1 & Hc1%run_handle & ->%returns_ret)%returns_bind)%returns_bind.
        split; done.
    + destruct Ht as [Ht Hfn]. apply pres_safeRun; [done| |].
      * intros s f Hs Hf. apply pres_bind; [by apply pres_alloc|]. intros a _.
        apply pres_bind; [|intros ? _; apply pres_ret].
        apply IHr; [done|]. repeat split; done.
      * intros s f r (a & _ & (c1 & Hc1%run_handle & ->%returns_ret)%returns_bind)%returns_bind.
        done.
Qed.
End Execution.

(** ** Events *)

Lemma pres_fire i h k n ev :
  passiveH h -> quiet_event ev -> pres_inv i h k (fire n ev).
Proof.
  intros Hh Hev. unfold fire. apply pres_try_catch.
  - destruct ev; [by apply pres_exec|apply pres_call0].
  - intros e s r s' HI E. minv E. by apply Inv_emit.
Qed.

Lemma pres_fireAll i h k n evs :
  passiveH h -> Forall quiet_event evs -> pres_inv i h k (fireAll n evs).
Proof.
  intros Hh Hevs. unfold fireAll. induction Hevs as [|ev evs Hev _ IH]; simpl.
  - apply pres_ret.
  - apply pres_bind; [by apply pres_fire|done].
Qed.

Lemma final_Some {A} (m : M A) s s' :
  final m s = Some s' -> exists r, m s = Some (r, s').
Proof. unfold final. destruct (m s) as [[r s0]|]; intros E; simplify_eq. eauto. Qed.

(** ** States in which no callback of the caller is reachable *)

Lemma passive_noopHandlers : passiveH noopHandlers.
Proof. repeat split. Qed.

Lemma fires_noopHandlers tag : ~ fires noopHandlers tag.
Proof. intros [?|[?|(c & ? & ?)]]; done. Qed.

Lemma Quiet_Inv i s : Quiet s -> Inv i noopHandlers (called (log s)) s.
Proof.
  intros HQ. split; [by eauto|].
  destruct (heap s !! i) as [c|] eqn:E; [right; split; [by eauto|]|]; by left.
Qed.

Lemma Inv_Quiet i k s : Inv i noopHandlers k s -> Quiet s /\ called (log s) = k.
Proof.
  intros [Hoth Hi]. destruct (heap s !! i) as [c|] eqn:E.
  - assert (quiet_cell c /\ called (log s) = k) as [Hq Hk].
    { destruct Hi as [[Hl Hk]|[Hq [Hk|(tag & v & Hf & _)]]]; [|done|by apply fires_noopHandlers in Hf].
      split; [|done]. destruct Hl as [Hl Hcalm]. split; [|done].
      destruct c; try done; simpl in *.
      - by destruct Hl as [-> _].
      - by destruct Hl as (-> & -> & -> & _). }
    split; [|done]. intros j c' Hj. destruct (decide (j = i)) as [->|]; [congruence|eauto].
  - destruct Hi as [Hk|(tag & v & Hf & _)]; [|by apply fires_noopHandlers in Hf].
    split; [|done]. intros j c' Hj. apply (Hoth j); [done|]. intros ->. congruence.
Qed.

(** Once nothing reaches the caller's callbacks, nothing ever will. *)
Lemma Quiet_fireAll n evs s s' :
  Quiet s -> Forall quiet_event evs -> final (fireAll n evs) s = Some s' ->
  Quiet s' /\ called (log s') = called (log s).
Proof.
  intros HQ Hevs [r E]%final_Some. apply (Inv_Quiet 0).
  eapply pres_fireAll; eauto using passive_noopHandlers, Quiet_Inv.
Qed.

(** ** What [run] sets up *)

Section TopLevel.
Variables (h : Handlers) (n : nat).
Hypothesis Hh : passiveH h.

Lemma Inv_start s c :
  Quiet s -> held h c ->
  Inv (length (heap s)) h (called (log s)) (mkState (heap s ++ [c]) (log s)).
Proof.
  intros HQ Hl. split; simpl.
  - intros j c' Hj Hne. apply lookup_app_Some in Hj as [Hj|[Hle Hj]]; [by eauto|].
    apply list_lookup_singleton_Some in Hj as [Hj _]. lia.
  - rewrite lookup_app_r, Nat.sub_diag by done. simpl. by left.
Qed.

Lemma top_safeRun body s r s' :
  Quiet s ->
  (forall sc fl, quiet sc -> quiet fl ->
     pres_inv (length (heap s)) h (called (log s)) (body sc fl)) ->
  (forall sc fl r, returns (body sc fl) r -> calm_return r) ->
  safeRun (call0 n) body h s = Some (r, s') ->
  Inv (length (heap s)) h (called (log s)) s'.
Proof using Hh.
  intros HQ Hb Hr E. unfold safeRun in E.
  apply bind_inv in E as [(i & s1 & E1 & E)|(? & E1 & ?)]; minv E1.
  revert E. apply pres_bind; [by apply Hb| |by apply Inv_start].
  intros cr Hcr%Hr.
  apply pres_bind; [|intros ? _].
  { destruct cr; simpl in Hcr.
    - apply pres_ret.
    - by apply pres_modify, gentle_setCancel.
    - destruct Hcr. by apply pres_modify, gentle_setCancelOnClose. }
  apply pres_bind; [apply pres_read|]. intros c _.
  apply pres_bind; [|intros ? _; apply pres_ret].
  destruct c as [? ? ? [|] ?| | |]; try apply pres_impossible; [|apply pres_ret].
  apply pres_bind; [by apply pres_modify, gentle_setCancel|]. intros ? _. apply pres_call0.
Qed.

Lemma top_safeRun2 body s r s' :
  Quiet s ->
  (forall sc fl ct, quiet sc -> quiet fl -> quiet_opt ct ->
     pres_inv (length (heap s)) h (called (log s)) (body sc fl ct)) ->
  (forall sc fl ct r, returns (body sc fl ct) r -> calm_body r) ->
  safeRun2 (call0 n) body h s = Some (r, s') ->
  Inv (length (heap s)) h (called (log s)) s'.
Proof using Hh.
  intros HQ Hb Hr E. unfold safeRun2 in E.
  apply bind_inv in E as [(i & s1 & E1 & E)|(? & E1 & ?)]; minv E1.
  revert E. apply pres_bind; [apply Hb; try done; by destruct (catch h)| |by apply Inv_start].
  intros br [Hc1 Hc2]%Hr.
  apply pres_bind; [by apply pres_modify, gentle_setOnCancelOnClose|]. intros ? _.
  apply pres_bind; [apply pres_read|]. intros c _.
  apply pres_bind; [|intros ? _; apply pres_ret].
  destruct c as [|? ? ? ? ? [|] ?| |]; try apply pres_impossible; [|apply pres_ret].
  apply pres_bind; [by apply pres_modify, gentle_setOnCancel|]. intros ? _. apply pres_call0.
Qed.
End TopLevel.

Lemma within_refl h : within h h.
Proof. by intros tag. Qed.

Lemma Inv_absent h k s :
  Quiet s -> settled h k (called (log s)) -> Inv (length (heap s)) h k s.
Proof.
  intros HQ Hs. split; [by eauto|].
  by rewrite (lookup_ge_None_2 (heap s) (length (heap s))).
Qed.

(** A handler of the caller invoked directly, as [Of] and [Rejected] do. *)
Lemma direct_call n h f x s r s' :
  Quiet s -> passive f -> (forall tag, tag_of f = Some tag -> fires h tag) ->
  call1 n f x s = Some (r, s') ->
  Quiet s' /\ Inv (length (heap s)) h (called (log s)) s'.
Proof.
  intros HQ Hp Hf E.
  destruct (passive_call _ _ _ _ _ _ Hp E) as [Hheap Hlog].
  assert (Quiet s') as HQ' by (unfold Quiet; by rewrite Hheap).
  split; [done|]. rewrite <- Hheap. apply Inv_absent; [done|].
  destruct Hlog as [->|(tag & v & Ht & _ & ->)]; [by left|].
  right. exists tag, v. rewrite called_app. auto.
Qed.

Lemma passive_stored t h : passiveH h -> passiveH (stored t h).
Proof.
  revert h. induction t; intros h Hh; simpl; try done; apply IHt;
    destruct Hh as (? & ? & ?); repeat split; done.
Qed.

Lemma within_stored t h : within (stored t h) h.
Proof.
  revert h. induction t; intros h; simpl; try apply within_refl;
    intros tag Ht; apply IHt in Ht as [Ht|[Ht|(c & ? & _)]];
    [by left|right; by left|done|by left|right; by left|done].
Qed.

Lemma direct_run n h f x s r s' :
  Quiet s -> (forall tag, tag_of f = Some tag -> fires h tag) -> passive f ->
  (call1 n f x ;; mret noop0) s = Some (r, s') ->
  Inv (length (heap s)) h (called (log s)) s' /\
  forall c, r = Ok c -> handle_of c (length (heap s)) s'.
Proof.
  intros HQ Hf Hp E. minv E.
  - destruct (direct_call _ h _ _ _ _ _ HQ Hp Hf X) as [HQ' HI].
    split; [done|]. intros c Hc. simplify_eq. by left.
  - destruct (direct_call _ h _ _ _ _ _ HQ Hp Hf X) as [HQ' HI].
    split; [done|]. intros c Hc. done.
Qed.

(** Whatever tame task is run with whatever passive handlers, the caller's
    callbacks end up in at most one guard cell, the first one allocated, whose
    cancel handle is the one returned. *)
Lemma run_Inv n t h s r s' :
  tame t -> passiveH h -> Quiet s -> _run n t h s = Some (r, s') ->
  Inv (length (heap s)) (stored t h) (called (log s)) s' /\
  forall c, r = Ok c -> handle_of c (length (heap s)) s'.
Proof.
  revert t h s r s'. induction n as [|n IH]; intros t h s r s' Ht Hh HQ E; [done|].
  pose proof Hh as (Hps & Hpf & Hpc).
  destruct t; simpl in E; simpl stored.
  - split.
    + eapply top_safeRun2; [done..| |intros sc fl ct br; by apply computation_body_calm|exact E].
      intros sc fl ct Hs Hf Hc. cbv beta.
      apply pres_bind; [|intros ? _; apply pres_ret].
      destruct ct as [c'|].
      * apply pres_try_catch; [apply pres_runComputation; try done; by apply pres_exec|].
        intros e. apply pres_bind; [by apply pres_exec|]. intros ? _. apply pres_ret.
      * apply pres_runComputation; try done. by apply pres_exec.
    + intros c ->. right. right. by eapply safeRun2_handle.
  - eapply direct_run; [done| |exact Hps|exact E]. intros tag Ht'. by left.
  - eapply direct_run; [done| |exact Hpf|exact E]. intros tag Ht'. right. by left.
  - minv E. split.
    + apply Inv_absent; [done|]. by left.
    + intros c Hc. simplify_eq. by left.
  - apply tame_All in Ht. split.
    + eapply top_safeRun; [done..| | |exact E].
      * intros sc fl Hs Hf. apply pres_bind; [by apply pres_alloc|]. intros a _.
        apply pres_bind; [|intros ? _; apply pres_ret].
        apply pres_mapi. eapply Forall_impl; [exact Ht|]. intros t Ht' j. by apply pres_exec.
      * intros sc fl cr (a & _ & (cs & Hcs & ->%returns_ret)%returns_bind)%returns_bind.
        split; [done|]. apply calm_OnClose.
        eapply returns_mapi; [|exact Hcs]. intros t j c. apply run_handle.
    + intros c ->. right. left. by eapply safeRun_handle.
  - apply tame_Race in Ht. split.
    + eapply top_safeRun; [done..| | |exact E].
      * intros sc fl Hs Hf.
        apply pres_bind; [|intros ? _; apply pres_ret].
        apply pres_mapi. eapply Forall_impl; [exact Ht|]. intros t Ht' j. by apply pres_exec.
      * intros sc fl cr (cs & Hcs & ->%returns_ret)%returns_bind.
        split; [done|]. apply calm_OnClose.
        eapply returns_mapi; [|exact Hcs]. intros t j c. apply run_handle.
    + intros c ->. right. left. by eapply safeRun_handle.
  - apply IH in E; [done|done| |done]. repeat split; done.
  - apply IH in E; [done|done| |done]. repeat split; done.
  - destruct Ht as [Ht Hfn]. split.
    + eapply top_safeRun2; [done..| | |exact E].
      * intros sc fl ct Hs Hf Hc. apply pres_bind; [by apply pres_alloc|]. intros a _.
        apply pres_bind; [|intros ? _; apply pres_ret].
        apply pres_exec; [done..|]. repeat split; done.
      * intros sc fl ct br
          (a & _ & (c1 & Hc1%run_handle & ->%returns_ret)%returns_bind)%returns_bind.
        split; done.
    + intros c ->. right. right. by eapply safeRun2_handle.
  - destruct Ht as [Ht Hfn]. split.
    + eapply top_safeRun; [done..| | |exact E].
      * intros sc fl Hs Hf. apply pres_bind; [by apply pres_alloc|]. intros a _.
        apply pres_bind; [|intros ? _; apply pres_ret].
        apply pres_exec; [done..|]. repeat split; done.
      * intros sc fl cr
          (a & _ & (c1 & Hc1%run_handle & ->%returns_ret)%returns_bind)%returns_bind.
        done.
    + intros c ->. right. left. by eapply safeRun_handle.
Qed.

(** ** Consequences for a whole run *)

Lemma Quiet_init : Quiet init.
Proof. intros j c Hj. done. Qed.

Lemma passive_normalise h : passiveH (normalise h).
Proof. destruct h as [f|[s|] [f|] [c|]]; repeat split. Qed.

Lemma Inv_settled i h k s : Inv i h k s -> settled h k (called (log s)).
Proof.
  intros [_ Hi]. destruct (heap s !! i); [|done].
  destruct Hi as [[_ ->]|[_ ?]]; [by left|done].
Qed.

(** From a state without reachable callbacks, running a tame task with
    passive handlers and letting the outside world act leads to at most one
    invocation, of a callback the handlers fire. *)
Lemma run_settled n m t h s r s1 evs s2 :
  tame t -> passiveH h -> Quiet s ->
  _run n t h s = Some (r, s1) ->
  Forall quiet_event evs -> final (fireAll m evs) s1 = Some s2 ->
  settled h (called (log s)) (called (log s2)).
Proof.
  intros Ht Hh HQ E Hevs [r' E']%final_Some.
  destruct (run_Inv _ _ _ _ _ _ Ht Hh HQ E) as [HI _].
  eapply pres_fireAll in E'; [|by apply passive_stored|done..].
  apply Inv_settled in E' as [->|(tag & v & Hf & ->)]; [by left|].
  right. exists tag, v. split; [|done]. by eapply within_stored.
Qed.

(** ** Closing seals the instance *)

Lemma Inv_Quiet_except i h k s c :
  Inv i h k s -> heap s !! i = Some c -> quiet_cell c -> Quiet s.
Proof.
  intros [Hoth _] Hc Hq j c' Hj. destruct (decide (j = i)) as [->|]; [congruence|eauto].
Qed.

Lemma Quiet_insert i h k s c c' :
  Inv i h k s -> heap s !! i = Some c -> quiet_cell c' ->
  Quiet (mkState (<[i := c']> (heap s)) (log s)).
Proof.
  intros [Hoth _] Hc Hq j c0 Hj. simpl in Hj.
  pose proof (lookup_lt_Some _ _ _ Hc).
  destruct (decide (i = j)) as [->|].
  - rewrite list_lookup_insert_eq in Hj by done. by simplify_eq.
  - rewrite list_lookup_insert_ne in Hj by done. eauto.
Qed.

Lemma close_seals i h k n s r s' :
  Inv i h k s -> close (call0 n) i s = Some (r, s') -> Quiet s'.
Proof.
  intros HI E. unfold close in E. minv E.
  pose proof (Inv_Calm _ _ _ _ HI _ _ Hc) as Hcalm.
  destruct c as [hh cc oc cl [|]| | |]; minv X0; try done.
  - destruct (keeps_call0 i h k _ _ _ _ _ X) as (_ & HI'). specialize (HI' HI).
    pose proof (Inv_Calm _ _ _ _ HI' _ _ Hc0) as Hcalm'.
    destruct c; simplify_eq/=. eapply Quiet_insert; eauto.
    destruct Hcalm'. repeat split; done.
  - exfalso. eapply call0_nothrow; [| |exact X]; [by destruct Hcalm|by eapply Inv_Calm].
  - eapply Inv_Quiet_except; eauto. destruct HI as [_ Hi]. rewrite Hc in Hi.
    by destruct Hi as [[[[_ ?] _] _]|[? _]].
Qed.

Lemma close2_seals i h k n s r s' :
  Inv i h k s -> close2 (call0 n) i s = Some (r, s') -> Quiet s'.
Proof.
  intros HI E. unfold close2 in E. minv E.
  pose proof (Inv_Calm _ _ _ _ HI _ _ Hc) as Hcalm.
  destruct c as [|ss ff ct cc oc cl [|]| |]; minv X0; try done.
  - destruct (keeps_call0 i h k _ _ _ _ _ X) as (_ & HI'). specialize (HI' HI).
    pose proof (Inv_Calm _ _ _ _ HI' _ _ Hc0) as Hcalm'.
    destruct c; simplify_eq/=. eapply Quiet_insert; eauto.
    destruct Hcalm'. repeat split; try done. by destruct catch_.
  - exfalso. eapply call0_nothrow; [| |exact X]; [by destruct Hcalm|by eapply Inv_Calm].
  - eapply Inv_Quiet_except; eauto. destruct HI as [_ Hi]. rewrite Hc in Hi.
    by destruct Hi as [[[(_ & _ & _ & ?) _] _]|[? _]].
Qed.

(** Invoking the cancel handle of an instance closes it, whatever happened
    before, and invokes no callback of the caller. *)
Lemma cancel_seals i h k n c s r s' :
  Inv i h k s -> handle_of c i s -> call0 n c s = Some (r, s') ->
  r = Ok tt /\ Quiet s' /\ called (log s') = called (log s).
Proof.
  intros HI Hc E.
  assert (calm c) as Hcalm by (by destruct Hc as [[-> _]|[->| ->]]).
  destruct (call0_returns _ _ _ _ _ Hcalm (Inv_Calm _ _ _ _ HI) E) as [-> _].
  split; [done|]. split; [|by eapply call0_called].
  destruct n as [|n]; [done|].
  destruct Hc as [[-> HQ]|[->| ->]]; simpl in E.
  - by minv E.
  - minv E; case_cell.
    destruct (keeps_call0 i h k _ _ _ _ _ X) as (_ & HI'). eapply close_seals; [by apply HI'|done].
  - minv E; case_cell.
    destruct (keeps_call0 i h k _ _ _ _ _ X) as (_ & HI'). eapply close2_seals; [by apply HI'|done].
Qed.

(** A wrapped callback of the instance that returns normally has closed it. *)
Lemma wrapped_seals i h k n f x s s' :
  passiveH h -> Inv i h k s -> wrapped i f ->
  call1 n f x s = Some (Ok tt, s') -> Quiet s'.
Proof.
  intros Hh HI Hw E. destruct n as [|n]; [done|].
  pose proof Hh as (Hps & Hpf & Hpc).
  assert (forall s0 (P Q : Prop), Inv i h k s0 \/ (P /\ Q /\ Fired_at i h k s0) ->
                                 exists k', Inv i h k' s0) as Hsome.
  { intros s0 P Q [?|(_ & _ & (tag & v & _ & _ & ?)%Fired_Inv)]; eauto. }
  destruct Hw as [->|[->|[->|[->| ->]]]]; simpl in E; minv E; repeat case_cell;
    match goal with
    | Hc : heap _ !! _ = Some _, X : call1 _ _ _ _ = Some _ |- _ =>
        eapply (guard_call i h k _ _ _ _ _ _ _ _ (proj1 (pres_exec i h k Hh n)) HI Hc) in X;
        [ apply Hsome in X as [k' HI'];
          first [ by eapply close_seals; eauto | by eapply close2_seals; eauto ]
        | simpl; try by intros [(? & ? & ?) _]
        | simpl ]
    end.
  - intros [-> _]. split; [done|]. intros tag Ht. by left.
  - intros [-> _]. split; [done|]. intros tag Ht. right. by left.
  - intros (-> & _). split; [done|]. intros tag Ht. by left.
  - intros (_ & -> & _). split; [done|]. intros tag Ht. right. by left.
  - intros (_ & _ & Hc' & _). rewrite <- Hc' in *. split; [done|].
    intros tag Ht. right. right. eauto.
Qed.

(** ** Cells only ever get closed *)

Lemma evolves_refl c : evolves c c.
Proof. destruct c; simpl; eauto. Qed.

Lemma evolves_trans c1 c2 c3 : evolves c1 c2 -> evolves c2 c3 -> evolves c1 c3.
Proof.
  destruct c1; simpl.
  - intros [->| ->]; simpl; [done|]. intros [->| ->]; auto.
  - intros [->| ->]; simpl; [done|]. intros [->| ->]; auto.
    right. by destruct catch_.
  - intros (? & ? & ->). simpl. done.
  - intros (? & ->). simpl. done.
Qed.

Lemma steps_refl s : steps s s.
Proof. intros j c Hj. eauto using evolves_refl. Qed.

Lemma steps_trans s1 s2 s3 : steps s1 s2 -> steps s2 s3 -> steps s1 s3.
Proof.
  intros H12 H23 j c Hj. destruct (H12 _ _ Hj) as (c2 & Hj2 & He).
  destruct (H23 _ _ Hj2) as (c3 & Hj3 & He'). eauto using evolves_trans.
Qed.

Lemma steps_insert s j c c' :
  heap s !! j = Some c -> evolves c c' -> steps s (mkState (<[j := c']> (heap s)) (log s)).
Proof.
  intros Hc He j' c0 Hj'. simpl. pose proof (lookup_lt_Some _ _ _ Hc).
  destruct (decide (j = j')) as [->|].
  - rewrite list_lookup_insert_eq by done. simplify_eq. eauto.
  - rewrite list_lookup_insert_ne by done. eauto using evolves_refl.
Qed.

(** Assignments to a cell that [steps] does not watch, one beyond the heap
    the execution started from. *)
Lemma steps_fresh s0 s j c' :
  steps s0 s -> length (heap s0) <= j ->
  steps s0 (mkState (<[j := c']> (heap s)) (log s)).
Proof.
  intros Hs Hj j' c0 Hj'. pose proof (lookup_lt_Some _ _ _ Hj').
  destruct (Hs _ _ Hj') as (c1 & Hc1 & He). exists c1. split; [|done].
  simpl. rewrite list_lookup_insert_ne by lia. done.
Qed.

Lemma moves_ret {A} (a : A) : moves (mret a).
Proof. intros s r s' E. minv E. apply steps_refl. Qed.

Lemma moves_throw {A} e : moves (throw e : M A).
Proof. intros s r s' E. minv E. apply steps_refl. Qed.

Lemma moves_impossible {A} : moves (impossible : M A).
Proof. intros s r s' E. done. Qed.

Lemma moves_bind {A B} (m : M A) (f : A -> M B) :
  moves m -> (forall a, moves (f a)) -> moves (bind m f).
Proof.
  intros Hm Hf s r s' E. minv E.
  - eapply steps_trans; [by eapply Hm|by eapply Hf].
  - by eapply Hm.
Qed.

Lemma moves_try_catch {A} (m : M A) (f : Val -> M A) :
  moves m -> (forall e, moves (f e)) -> moves (try_catch m f).
Proof.
  intros Hm Hf s r s' E. minv E.
  - by eapply Hm.
  - eapply steps_trans; [by eapply Hm|by eapply Hf].
Qed.

Lemma moves_forEach {A} (f : A -> M unit) l : (forall x, moves (f x)) -> moves (forEach f l).
Proof.
  intros Hf. induction l as [|x l IH]; simpl.
  - apply moves_ret.
  - apply moves_bind; auto.
Qed.

Lemma moves_mapi {A B} (f : A -> nat -> M B) ix l :
  (forall x j, moves (f x j)) -> moves (mapi f ix l).
Proof.
  intros Hf. revert ix. induction l as [|x l IH]; intros ix; simpl.
  - apply moves_ret.
  - apply moves_bind; [auto|]. intros y. apply moves_bind; [auto|]. intros ys. apply moves_ret.
Qed.

Lemma moves_read j : moves (read j).
Proof. intros s r s' E. minv E. apply steps_refl. Qed.

Lemma moves_emit o : moves (emit o).
Proof. intros s r s' E. minv E. intros j c Hj. eauto using evolves_refl. Qed.

Lemma moves_alloc c : moves (alloc c).
Proof.
  intros s r s' E. minv E. intros j c0 Hj. exists c0. split; [|apply evolves_refl].
  simpl. by apply lookup_app_l_Some.
Qed.

Lemma moves_modify j f :
  (forall c c', f c = Some c' -> evolves c c') -> moves (modify j f).
Proof. intros Hf s r s' E. minv E. eapply steps_insert; eauto. Qed.

Lemma moves_from_moves s0 {A} (m : M A) : moves m -> moves_from s0 m.
Proof. intros Hm s r s' Hs E. eapply steps_trans; [done|by eapply Hm]. Qed.

Lemma moves_from_bind s0 {A B} (m : M A) (f : A -> M B) :
  moves_from s0 m -> (forall a, moves_from s0 (f a)) -> moves_from s0 (bind m f).
Proof.
  intros Hm Hf s r s' Hs E. minv E.
  - eapply Hf; [|done]. by eapply Hm.
  - by eapply Hm.
Qed.

Lemma moves_from_modify s0 j f : length (heap s0) <= j -> moves_from s0 (modify j f).
Proof. intros Hj s r s' Hs E. minv E. by apply steps_fresh. Qed.

Ltac moves_step :=
  cbv beta;
  lazymatch goal with
  | |- moves (bind _ _) => apply moves_bind; [|intros ?]
  | |- moves (mret _) => apply moves_ret
  | |- moves (throw _) => apply moves_throw
  | |- moves impossible => apply moves_impossible
  | |- moves (try_catch _ _) => apply moves_try_catch; [|intros ?]
  | |- moves (read _) => apply moves_read
  | |- moves (emit _) => apply moves_emit
  | |- moves (alloc _) => apply moves_alloc
  | |- moves (forEach _ _) => apply moves_forEach; intros ?
  | |- moves (mapi _ _ _) => apply moves_mapi; intros ? ?
  | |- moves (match ?x with _ => _ end) => destruct x
  | |- moves_from _ (bind _ _) => apply moves_from_bind; [|intros ?]
  | |- moves_from _ (modify _ _) => apply moves_from_modify; simpl; lia
  | |- moves_from _ (match ?x with _ => _ end) => destruct x
  | |- moves_from _ _ => apply moves_from_moves
  end.

Lemma moves_close c0 j : (forall c, moves (c0 c)) -> moves (close c0 j).
Proof.
  intros Hc. unfold close. repeat moves_step; try done.
  apply moves_modify. intros [] c' E; simplify_eq/=. auto.
Qed.

Lemma moves_close2 c0 j : (forall c, moves (c0 c)) -> moves (close2 c0 j).
Proof.
  intros Hc. unfold close2. repeat moves_step; try done.
  apply moves_modify. intros [] c' E; simplify_eq/=. auto.
Qed.

Lemma moves_call0 n c : moves (call0 n c).
Proof.
  revert c. induction n as [|n IH]; intros c; [by intros s r s' E|].
  destruct c; simpl; repeat moves_step; try done;
    first [by apply moves_close | by apply moves_close2].
Qed.

Lemma moves_safeRun n body h :
  (forall sc fl, moves (body sc fl)) -> moves (safeRun (call0 n) body h).
Proof.
  intros Hb s r s' E. unfold safeRun in E.
  apply bind_inv in E as [(i & s1 & E1 & E)|(? & E1 & ?)]; minv E1.
  eapply (moves_from_bind s); [apply moves_from_moves, Hb| | |exact E].
  - intros cr. repeat moves_step; try done; apply moves_call0.
  - intros j c Hj. exists c. split; [|apply evolves_refl]. simpl. by apply lookup_app_l_Some.
Qed.

Lemma moves_safeRun2 n body h :
  (forall sc fl ct, moves (body sc fl ct)) -> moves (safeRun2 (call0 n) body h).
Proof.
  intros Hb s r s' E. unfold safeRun2 in E.
  apply bind_inv in E as [(i & s1 & E1 & E)|(? & E1 & ?)]; minv E1.
  eapply (moves_from_bind s); [apply moves_from_moves, Hb| | |exact E].
  - intros cr. repeat moves_step; try done; apply moves_call0.
  - intros j c Hj. exists c. split; [|apply evolves_refl]. simpl. by apply lookup_app_l_Some.
Qed.

Lemma moves_runComputation (c1 : Fn1 -> Val -> M unit) comp s f :
  (forall f x, moves (c1 f x)) -> moves (runComputation c1 comp s f).
Proof.
  intros Hc. unfold runComputation. repeat moves_step. destruct x; simpl; apply Hc.
Qed.

(** Whatever runs, the cells that exist are at most closed by it. *)
Lemma moves_exec n :
  (forall f x, moves (call1 n f x)) /\ (forall t h, moves (_run n t h)).
Proof.
  induction n as [|n [IH1 IHr]]; [split; intros; by intros ? ? ? ?|].
  assert (forall c, moves (call0 n c)) as IH0 by apply moves_call0.
  split.
  - intros f x. destruct f; simpl; unfold setCancel2; repeat moves_step; try done;
      try first [by apply moves_close | by apply moves_close2].
    all: apply moves_modify; intros [] c' E; simplify_eq/=; eauto.
  - intros t h. destruct t; simpl; try done.
    + apply moves_safeRun2. intros sc fl ct. repeat moves_step; try done;
        by apply moves_runComputation.
    + repeat moves_step; done.
    + repeat moves_step; done.
    + apply moves_ret.
    + apply moves_safeRun. intros sc fl. repeat moves_step; done.
    + apply moves_safeRun. intros sc fl. repeat moves_step; done.
    + apply moves_safeRun2. intros sc fl ct. repeat moves_step; done.
    + apply moves_safeRun. intros sc fl. repeat moves_step; done.
Qed.

(** ** The instance behind a cancel handle *)

Lemma evolves_is_handle c i c0 c0' : is_handle c i c0 -> evolves c0 c0' -> is_handle c i c0'.
Proof.
  destruct c0; simpl; try done; by intros -> [->| ->].
Qed.

Lemma evolves_dead c0 c0' : dead_cell c0 -> evolves c0 c0' -> c0' = c0.
Proof.
  destruct c0; simpl; try done.
  - intros (-> & -> & -> & ->) [->| ->]; done.
  - intros (-> & -> & Hct & -> & -> & ->) [->| ->]; [done|]. by rewrite <- Hct.
Qed.

Lemma evolves_live h c0 c0' :
  live_cell h c0 -> evolves c0 c0' -> live_cell h c0' \/ dead_cell c0'.
Proof.
  destruct c0; simpl; try done.
  - intros Hl [->| ->]; [by left|]. right. done.
  - intros Hl [->| ->]; [by left|]. right. repeat split. by destruct catch_.
Qed.

Lemma Instance_steps c i h s s' : Instance c i h s -> steps s s' -> Instance c i h s'.
Proof.
  intros [->|(c0 & Hc0 & Hh & Hg)] Hs; [by left|]. right.
  destruct (Hs _ _ Hc0) as (c0' & Hc0' & He). exists c0'.
  split; [done|]. split; [by eapply evolves_is_handle|].
  destruct Hg as [Hl|Hd]; [by eapply evolves_live|].
  right. by rewrite (evolves_dead _ _ Hd He).
Qed.

Lemma Closed_steps c i s s' : Closed c i s -> steps s s' -> Closed c i s'.
Proof.
  intros [->|(c0 & Hc0 & Hh & Hd)] Hs; [by left|]. right.
  destruct (Hs _ _ Hc0) as (c0' & Hc0' & He).
  rewrite (evolves_dead _ _ Hd He) in Hc0'. eauto.
Qed.

(** Invoking the handle of a closed instance does nothing at all. *)
Lemma Closed_noop c i s n : Closed c i s -> call0 (2 + n) c s = Some (Ok tt, s).
Proof.
  intros [->|(c0 & Hc0 & Hh & Hd)]; [done|].
  destruct c0; simpl in *; try done.
  - destruct Hd as (-> & -> & -> & ->). subst c. simpl.
    unfold bind, read, close. rewrite Hc0. simpl. unfold bind, read. by rewrite Hc0.
  - destruct Hd as (-> & -> & _ & -> & -> & ->). subst c. simpl.
    unfold bind, read, close2. rewrite Hc0. simpl. unfold bind, read. by rewrite Hc0.
Qed.

(** Invoking the handle closes the instance, when the invocation returns. *)
Lemma Instance_cancel c i h n s s' :
  Instance c i h s -> call0 n c s = Some (Ok tt, s') -> Closed c i s'.
Proof.
  intros [->|(c0 & Hc0 & Hh & Hg)] E; [by left|]. right.
  destruct n as [|n]; [done|].
  destruct c0 as [hh0 cc0 oc0 cl0 cs0|ss0 ff0 ct0 cc0 oc0 cl0 cs0| |];
    simpl in Hh; try done; subst c; simpl in E; unfold close, close2 in E; minv E;
    match goal with
    | H1 : heap ?s0 !! i = Some _, H2 : call0 _ _ _ = Some (_, ?s0) |- _ =>
        destruct (moves_call0 _ _ _ _ _ H2 _ _ Hc0) as (c1 & Hc1 & He);
        rewrite H1 in Hc1; simplify_eq
    end.
  - destruct c1 as [hh cc oc cl [|]| | |]; minv X2; try done.
    + destruct c; simplify_eq/=. eexists. split; [apply lookup_lt_Some in Hc1|].
      { rewrite list_lookup_insert_eq by done. reflexivity. }
      done.
    + exists (SafeRunVars hh cc oc cl false). split; [done|]. split; [done|].
      destruct Hg as [Hl|Hd].
      * by destruct (evolves_live _ _ _ Hl He) as [[_ ?]|?].
      * by rewrite (evolves_dead _ _ Hd He).
  - destruct c1 as [|ss ff ct cc oc cl [|]| |]; minv X2; try done.
    + destruct c; simplify_eq/=. eexists. split; [apply lookup_lt_Some in Hc1|].
      { rewrite list_lookup_insert_eq by done. reflexivity. }
      split; [done|]. repeat split. by destruct catch_.
    + exists (SafeRun2Vars ss ff ct cc oc cl false). split; [done|]. split; [done|].
      destruct Hg as [Hl|Hd].
      * by destruct (evolves_live _ _ _ Hl He) as [(_ & _ & _ & ?)|?].
      * by rewrite (evolves_dead _ _ Hd He).
Qed.

(** Read back what was just assigned. *)
Ltac heap_norm :=
  simplify_eq/=;
  repeat (match goal with
          | H : _ |- _ =>
              rewrite list_lookup_insert_eq in H by (rewrite ?length_insert; done)
          end; simplify_eq/=).

Lemma lookup_alloc (hp : list Cell) c : (hp ++ [c]) !! length hp = Some c.
Proof. by rewrite lookup_app_r, Nat.sub_diag. Qed.

Lemma safeRun_Instance n body h s c s' :
  (forall sc fl, moves (body sc fl)) ->
  safeRun (call0 n) body h s = Some (Ok c, s') ->
  Instance c (length (heap s)) h s'.
Proof.
  intros Hb E. pose proof (safeRun_handle _ _ _ _ _ _ E) as ->. right.
  unfold safeRun in E. apply bind_inv in E as [(i & s1 & E1 & E)|(? & _ & ?)]; [|done].
  minv E1. minv E.
  destruct (Hb _ _ _ _ _ X _ _ (lookup_alloc _ _)) as (c2 & Hc2 & He2).
  pose proof (lookup_lt_Some _ _ _ Hc2) as Hlt.
  destruct a; minv X1; simpl in *; simplify_eq; heap_norm;
    (destruct c; try done; []); destruct closed; minv X0; destruct He2; heap_norm;
    try match goal with
      | X2 : call0 _ _ ?S = Some (_, _) |- _ =>
          destruct (moves_call0 _ _ _ _ _ X2 (length (heap s)) _
                      ltac:(simpl; rewrite list_lookup_insert_eq
                              by (rewrite ?length_insert; done); reflexivity))
            as (c3 & Hc3 & He3);
          apply evolves_dead in He3; [|done]; subst c3
      end;
    (eexists; split; [first [eassumption | rewrite list_lookup_insert_eq by done; reflexivity]|]);
    (split; [done|]); first [by left | by right].
Qed.

Lemma safeRun2_Instance n body h s c s' :
  (forall sc fl ct, moves (body sc fl ct)) ->
  safeRun2 (call0 n) body h s = Some (Ok c, s') ->
  Instance c (length (heap s)) h s'.
Proof.
  intros Hb E. pose proof (safeRun2_handle _ _ _ _ _ _ E) as ->. right.
  unfold safeRun2 in E. apply bind_inv in E as [(i & s1 & E1 & E)|(? & _ & ?)]; [|done].
  minv E1. minv E.
  destruct (Hb _ _ _ _ _ _ X _ _ (lookup_alloc _ _)) as (c2 & Hc2 & He2).
  pose proof (lookup_lt_Some _ _ _ Hc2) as Hlt.
  destruct He2; heap_norm; minv X0; heap_norm;
    try match goal with
      | X2 : call0 _ _ ?S = Some (_, _) |- _ =>
          destruct (moves_call0 _ _ _ _ _ X2 (length (heap s)) _
                      ltac:(simpl; rewrite list_lookup_insert_eq
                              by (rewrite ?length_insert; done); reflexivity))
            as (c3 & Hc3 & He3);
          apply evolves_dead in He3; [|by repeat split; destruct (catch h)]; subst c3
      end;
    (eexists; split; [first [eassumption | rewrite list_lookup_insert_eq by done; reflexivity]|]);
    (split; [done|]); first [by left | right; by repeat split; destruct (catch h)].
Qed.

(** What [run] hands back is the handle of the instance it created. *)
Lemma run_Instance n t h s c s' :
  _run n t h s = Some (Ok c, s') -> Instance c (length (heap s)) (stored t h) s'.
Proof.
  revert t h s c s'. induction n as [|n IH]; intros t h s c s' E; [done|].
  pose proof (proj1 (moves_exec n)) as M1. pose proof (proj2 (moves_exec n)) as Mr.
  destruct t; simpl in E; simpl stored.
  - eapply safeRun2_Instance; [|exact E]. intros sc fl ct. repeat moves_step; try done;
      by apply moves_runComputation.
  - minv E. by left.
  - minv E. by left.
  - minv E. by left.
  - eapply safeRun_Instance; [|exact E]. intros sc fl. repeat moves_step; done.
  - eapply safeRun_Instance; [|exact E]. intros sc fl. repeat moves_step; done.
  - by apply IH.
  - by apply IH.
  - eapply safeRun2_Instance; [|exact E]. intros sc fl ct. repeat moves_step; done.
  - eapply safeRun_Instance; [|exact E]. intros sc fl. repeat moves_step; done.
Qed.

Lemma moves_fireAll n evs : moves (fireAll n evs).
Proof.
  unfold fireAll. apply moves_forEach. intros ev. unfold fire. apply moves_try_catch.
  - destruct ev; [apply moves_exec|apply moves_call0].
  - intros e. apply moves_emit.
Qed.

Lemma quiet_no_tag f : quiet f -> tag_of f = None.
Proof. induction f; simpl; try done; auto. Qed.

(** Once a callback of the caller has been invoked, the instance is closed. *)
Lemma settled_Closed c i h k s :
  Inv i h k s -> Instance c i h s -> called (log s) <> k -> Closed c i s.
Proof.
  intros [_ Hi] [->|(c0 & Hc0 & Hh & Hg)] Hk; [by left|]. right.
  exists c0. split; [done|]. split; [done|]. destruct Hg as [Hl|]; [|done].
  rewrite Hc0 in Hi. destruct Hi as [[_ ?]|[Hq [?|(tag & v & Hf & _)]]]; try done.
  exfalso. destruct c0; simpl in *; try done.
  - destruct Hl as [-> _]. destruct Hq as [(Hs & Hf' & Hc) _].
    destruct Hf as [Ht|[Ht|(cf & Hcf & Ht)]].
    + by rewrite quiet_no_tag in Ht.
    + by rewrite quiet_no_tag in Ht.
    + rewrite Hcf in Hc. by rewrite quiet_no_tag in Ht.
  - destruct Hl as (-> & -> & -> & _). destruct Hq as [(Hs & Hf' & Hc) _].
    destruct Hf as [Ht|[Ht|(cf & Hcf & Ht)]].
    + by rewrite quiet_no_tag in Ht.
    + by rewrite quiet_no_tag in Ht.
    + rewrite Hcf in Hc. by rewrite quiet_no_tag in Ht.
Qed.

Lemma Instance_close c i h n s s' :
  Instance c i h s -> close (call0 n) i s = Some (Ok tt, s') -> Closed c i s'.
Proof.
  intros [->|(c0 & Hc0 & Hh & Hg)] E; [by left|]. right.
  unfold close in E. minv E.
  destruct c0 as [hh cc oc cl [|]| | |]; minv X0; try done.
  - destruct c0; simplify_eq/=. eexists. split; [apply lookup_lt_Some in Hc|].
    { rewrite list_lookup_insert_eq by done. reflexivity. }
    done.
  - eexists. split; [done|]. split; [done|]. by destruct Hg as [[_ ?]|?].
Qed.

Lemma Instance_close2 c i h n s s' :
  Instance c i h s -> close2 (call0 n) i s = Some (Ok tt, s') -> Closed c i s'.
Proof.
  intros [->|(c0 & Hc0 & Hh & Hg)] E; [by left|]. right.
  unfold close2 in E. minv E.
  destruct c0 as [|ss ff ct cc oc cl [|]| |]; minv X0; try done.
  - destruct c0; simplify_eq/=. eexists. split; [apply lookup_lt_Some in Hc|].
    { rewrite list_lookup_insert_eq by done. reflexivity. }
    split; [done|]. repeat split.
    match goal with |- context [option_map _ ?o] => by destruct o end.
  - eexists. split; [done|]. split; [done|]. by destruct Hg as [(_ & _ & _ & ?)|?].
Qed.

(** A wrapped callback of the instance that returns normally has closed it. *)
Lemma wrapped_Closed c i h n f x s s' :
  Instance c i h s -> wrapped i f -> call1 n f x s = Some (Ok tt, s') -> Closed c i s'.
Proof.
  intros HI Hw E. destruct n as [|n]; [done|].
  destruct Hw as [->|[->|[->|[->| ->]]]]; simpl in E; minv E; repeat case_cell;
    match goal with
    | X : call1 _ _ _ _ = Some (_, ?s0) |- _ =>
        assert (Instance c i h s0)
          by (eapply Instance_steps; [done|]; by eapply (proj1 (moves_exec n)))
    end;
    first [by eapply Instance_close | by eapply Instance_close2].
Qed.

(** * Executing on a known heap *)

Lemma bind_bind {A B C} (m : M A) (f : A -> M B) (k : B -> M C) s :
  bind (bind m f) k s = bind m (fun a => bind (f a) k) s.
Proof. unfold bind. by destruct (m s) as [[[a|e] s1]|]. Qed.

Lemma bind_eq {A B} (m : M A) (k : A -> M B) s a s1 :
  m s = Some (Ok a, s1) -> bind m k s = k a s1.
Proof. unfold bind. by intros ->. Qed.

Lemma read_eq i s c : heap s !! i = Some c -> read i s = Some (Ok c, s).
Proof. unfold read. by intros ->. Qed.

Lemma modify_eq i f s c c' :
  heap s !! i = Some c -> f c = Some c' ->
  modify i f s = Some (Ok tt, mkState (<[i := c']> (heap s)) (log s)).
Proof. unfold modify. by intros -> ->. Qed.

Lemma lookup_leaf pre ls j l :
  ls !! j = Some l -> (pre ++ map leaf_cell ls) !! (length pre + j) = Some (leaf_cell l).
Proof.
  intros Hj. rewrite lookup_app_r by lia.
  replace (length pre + j - length pre) with j by lia.
  by rewrite list_lookup_fmap, Hj.
Qed.

Lemma insert_leaf pre ls j l :
  <[length pre + j := leaf_cell l]> (pre ++ map leaf_cell ls)
  = pre ++ map leaf_cell (<[j := l]> ls).
Proof. by rewrite insert_app_r, list_fmap_insert. Qed.

(** Running a leaf that settles later allocates its guard cell and nothing
    else. *)
Lemma run_later n tag h hp lg :
  catch h = None ->
  _run (2 + n) (later tag) h (mkState hp lg)
  = Some (Ok (SafeRun2Cancel (length hp)),
          mkState (hp ++ [leaf_cell (Pending (success h) (failure h) tag)]) lg).
Proof.
  intros Hc. simpl. unfold safeRun2, bind, alloc, modify, read. rewrite Hc. simpl.
  assert (forall c c', <[length hp := c']> (hp ++ [c]) = hp ++ [c']) as Hins.
  { intros c c'. rewrite <- (Nat.add_0_r (length hp)) at 1. by rewrite insert_app_r. }
  rewrite !lookup_alloc. simpl. rewrite Hins, !lookup_alloc. done.
Qed.

Lemma mapi_later n sf ff tags index hp lg :
  mapi (fun task index => _run (2 + n) task (normaliseRec (Some (sf index)) (Some ff) None))
       index (map later tags) (mkState hp lg)
  = Some (Ok (handles (length hp) (length tags)),
          mkState (hp ++ map leaf_cell (started sf ff index tags)) lg).
Proof.
  revert index hp. induction tags as [|tag tags IH]; intros index hp.
  - simpl. by rewrite app_nil_r.
  - cbn [map mapi]. erewrite bind_eq; [|by apply run_later].
    erewrite bind_eq; [|apply IH]. unfold mret, handles. cbn [started map length seq].
    rewrite length_app. cbn [length]. rewrite Nat.add_1_r, <- app_assoc. done.
Qed.

Lemma insert_middle (pre : list Cell) c c' post :
  <[length pre := c']> (pre ++ c :: post) = pre ++ c' :: post.
Proof. rewrite <- (Nat.add_0_r (length pre)) at 1. by rewrite insert_app_r. Qed.

(** Cancelling one leaf: its cancel function runs if it is still pending, and
    its cell is closed. *)
Lemma cancel_leaf n pre l post lg :
  call0 (2 + n) (SafeRun2Cancel (length pre)) (mkState (pre ++ leaf_cell l :: post) lg)
  = Some (Ok tt, mkState (pre ++ leaf_cell Done :: post)
                         (lg ++ map Cancelled (pending_tags [l]))).
Proof.
  destruct l; simpl;
    repeat (progress (unfold bind, read, close2, emit, modify; simpl;
                      rewrite ?list_lookup_middle by done; simpl)).
  - by rewrite insert_middle.
  - by rewrite app_nil_r.
Qed.

(** [onClose] of [All] and [Race]: every leaf is cancelled, in order. *)
Lemma cancel_leaves n ls pre lg :
  forEach (call0 (2 + n)) (handles (length pre) (length ls))
          (mkState (pre ++ map leaf_cell ls) lg)
  = Some (Ok tt, mkState (pre ++ map leaf_cell (map (fun _ => Done) ls))
                         (lg ++ map Cancelled (pending_tags ls))).
Proof.
  revert pre lg. induction ls as [|l ls IH]; intros pre lg.
  - unfold handles. cbn [length seq map forEach pending_tags]. by rewrite !app_nil_r.
  - unfold handles. cbn [length seq map forEach].
    erewrite bind_eq; [|apply cancel_leaf].
    replace (pre ++ leaf_cell Done :: map leaf_cell ls)
      with ((pre ++ [leaf_cell Done]) ++ map leaf_cell ls) by (by rewrite <- app_assoc).
    replace (S (length pre)) with (length (pre ++ [leaf_cell Done]))
      by (rewrite length_app; simpl; lia).
    fold (handles (length (pre ++ [leaf_cell Done])) (length ls)).
    rewrite IH. rewrite <- !app_assoc. simpl.
    destruct l; simpl; by rewrite ?app_nil_r, <- ?app_assoc.
Qed.

Lemma started_lookup sf ff index tags j tag :
  tags !! j = Some tag -> started sf ff index tags !! j = Some (Pending (sf (index + j)) ff tag).
Proof.
  revert index j. induction tags as [|t tags IH]; intros index [|j] Hj; simplify_eq/=.
  - by rewrite Nat.add_0_r.
  - rewrite (IH (S index) j) by done. do 3 f_equal. lia.
Qed.

Lemma started_length sf ff index tags : length (started sf ff index tags) = length tags.
Proof. revert index. induction tags; intros index; simpl; auto. Qed.

Lemma started_pending sf ff index tags : pending_tags (started sf ff index tags) = tags.
Proof. revert index. induction tags; intros index; simpl; by f_equal. Qed.

(** ** [Race] over leaves *)

Lemma run_race n tags h :
  _run (3 + n) (Race (map later tags)) h init
  = Some (Ok (SafeRunCancel 0),
          mkState (SafeRunVars h noop0 (OnClose (handles 1 (length tags))) false true
                   :: map leaf_cell (started (fun _ => SafeRunSucc 0) (SafeRunFail 0) 0 tags))
                  []).
Proof.
  cbn [Nat.add _run]. unfold safeRun.
  erewrite bind_eq; [|reflexivity]. cbn [init heap log length app].
  rewrite bind_bind. erewrite bind_eq; [|apply (mapi_later n (fun _ => SafeRunSucc 0))].
  reflexivity.
Qed.

(** One level of the interpreter. *)
Lemma call1_SafeRunSucc n i x :
  call1 (S n) (SafeRunSucc i) x
  = (do c <- read i;
     match c with
     | SafeRunVars handlers _ _ _ _ => call1 n (success handlers) x
     | _ => impossible
     end ;;
     close (call0 n) i).
Proof. reflexivity. Qed.

Lemma call1_SafeRunFail n i x :
  call1 (S n) (SafeRunFail i) x
  = (do c <- read i;
     match c with
     | SafeRunVars handlers _ _ _ _ => call1 n (failure handlers) x
     | _ => impossible
     end ;;
     close (call0 n) i).
Proof. reflexivity. Qed.

Lemma call1_SafeRun2Succ n i x :
  call1 (S n) (SafeRun2Succ i) x
  = (do c <- read i;
     match c with
     | SafeRun2Vars success _ _ _ _ _ _ => call1 n success x
     | _ => impossible
     end ;;
     close2 (call0 n) i).
Proof. reflexivity. Qed.

Lemma call1_SafeRun2Fail n i x :
  call1 (S n) (SafeRun2Fail i) x
  = (do c <- read i;
     match c with
     | SafeRun2Vars _ failure _ _ _ _ _ => call1 n failure x
     | _ => impossible
     end ;;
     close2 (call0 n) i).
Proof. reflexivity. Qed.

Lemma call1_AllSuccess n a length index success x :
  call1 (S n) (AllSuccess a length index success) x
  = (modify a (recordValue index x) ;;
     do c <- read a;
     match c with
     | AllVars values completedCount =>
         if decide (completedCount = length)
         then call1 n success (VArr values)
         else mret tt
     | _ => impossible
     end).
Proof. reflexivity. Qed.

Lemma call1_User n tag x : call1 (S n) (User tag) x = emit (Called tag x).
Proof. reflexivity. Qed.

Lemma call0_OnClose n cancels : call0 (S n) (OnClose cancels) = forEach (call0 n) cancels.
Proof. reflexivity. Qed.

Lemma call0_noop n : call0 (S n) noop0 = mret tt.
Proof. reflexivity. Qed.

(** Run the first action of a sequence on a known state. *)
Ltac mstep tac := rewrite ?bind_bind; erewrite bind_eq; [|tac].

(** The handle of a closed leaf does nothing; so does its [close()]. *)
Lemma close2_done n i s :
  heap s !! i = Some (leaf_cell Done) -> close2 (call0 n) i s = Some (Ok tt, s).
Proof. intros Hi. unfold close2. by erewrite bind_eq; [|by apply read_eq]. Qed.

(** [close()] of the guard of [All] or [Race] over leaves. *)
Lemma close_guard n h cancel closed ls lg :
  close (call0 (3 + n)) 0
        (mkState (SafeRunVars h cancel (OnClose (handles 1 (length ls))) closed true
                  :: map leaf_cell ls) lg)
  = Some (Ok tt,
          mkState (SafeRunVars noopHandlers noop0 (OnClose (handles 1 (length ls))) true false
                   :: map leaf_cell (map (fun _ => Done) ls))
                  (lg ++ map Cancelled (pending_tags ls))).
Proof.
  unfold close. mstep ltac:(by apply read_eq). cbn [Nat.add].
  rewrite call0_OnClose.
  mstep ltac:(apply (cancel_leaves n ls [SafeRunVars h cancel (OnClose (handles 1 (length ls)))
                                                     closed true])).
  by erewrite modify_eq.
Qed.

(** The first leaf to settle decides: the handler of the caller is invoked,
    then every leaf is cancelled, the one that settled included. *)
Lemma race_first_settles n tags (s f : Fn1) c j (b : bool) x lg :
  j < length tags ->
  let h := mkHandlers s f c in
  let leaves := started (fun _ => SafeRunSucc 0) (SafeRunFail 0) 0 tags in
  let guard := SafeRunVars h noop0 (OnClose (handles 1 (length tags))) false true in
  forall lg',
    call1 (3 + n) (if b then s else f) x (mkState (guard :: map leaf_cell leaves) lg)
    = Some (Ok tt, mkState (guard :: map leaf_cell leaves) lg') ->
    call1 (5 + n) (if b then SafeRun2Succ (S j) else SafeRun2Fail (S j)) x
          (mkState (guard :: map leaf_cell leaves) lg)
    = Some (Ok tt,
            mkState (SafeRunVars noopHandlers noop0 (OnClose (handles 1 (length tags))) true false
                     :: map leaf_cell (map (fun _ => Done) leaves))
                    (lg' ++ map Cancelled tags)).
Proof.
  intros Hj h leaves guard lg' Hcall.
  destruct (lookup_lt_is_Some_2 tags j Hj) as [tag Htag].
  pose proof (started_lookup (fun _ => SafeRunSucc 0) (SafeRunFail 0) 0 _ _ _ Htag) as Hl.
  fold leaves in Hl.
  assert ((guard :: map leaf_cell leaves) !! S j
          = Some (leaf_cell (Pending (SafeRunSucc 0) (SafeRunFail 0) tag))) as Hcell.
  { simpl. by rewrite list_lookup_fmap, Hl. }
  assert (length leaves = length tags) as Hlen by apply started_length.
  assert (pending_tags leaves = tags) as Hpend by apply started_pending.
  replace (5 + n) with (S (S (3 + n))) by lia.
  destruct b.
  - rewrite call1_SafeRun2Succ. mstep ltac:(by apply read_eq). cbn [leaf_cell].
    rewrite call1_SafeRunSucc. mstep ltac:(by apply read_eq). unfold guard at 1. cbn [success h].
    mstep ltac:(exact Hcall). unfold guard. rewrite <- Hlen.
    mstep ltac:(apply close_guard). rewrite Hpend.
    apply close2_done. simpl. rewrite !list_lookup_fmap, Hl. done.
  - rewrite call1_SafeRun2Fail. mstep ltac:(by apply read_eq). cbn [leaf_cell].
    rewrite call1_SafeRunFail. mstep ltac:(by apply read_eq). unfold guard at 1. cbn [failure h].
    mstep ltac:(exact Hcall). unfold guard. rewrite <- Hlen.
    mstep ltac:(apply close_guard). rewrite Hpend.
    apply close2_done. simpl. rewrite !list_lookup_fmap, Hl. done.
Qed.

(** * Tasks that settle while [run] is running *)

Lemma ext_refl s : ext s s.
Proof. by split. Qed.

Lemma ext_trans s1 s2 s3 : ext s1 s2 -> ext s2 s3 -> ext s1 s3.
Proof. intros [H1 L1] [H2 L2]. split; [by etrans|congruence]. Qed.

Lemma ext_alloc s c : ext s (mkState (heap s ++ [c]) (log s)).
Proof. split; [by apply prefix_app_r|done]. Qed.

Lemma ext_lookup s s' j c : ext s s' -> heap s !! j = Some c -> heap s' !! j = Some c.
Proof. intros [Hp _] Hj. by eapply prefix_lookup_Some. Qed.

Lemma throws_at_ext k f x e s s' : ext s s' -> throws_at k f x e s -> throws_at k f x e s'.
Proof. intros Hext Hf n s0 Hn Hext0. apply Hf; [done|]. by eapply ext_trans. Qed.

Lemma bind_throws {A B} (m : M A) (f : A -> M B) s e s' :
  m s = Some (Throw e, s') -> bind m f s = Some (Throw e, s').
Proof. unfold bind. by intros ->. Qed.

Lemma bind_alloc {B} c (f : nat -> M B) s :
  bind (alloc c) f s = f (length (heap s)) (mkState (heap s ++ [c]) (log s)).
Proof. done. Qed.

Lemma bind_read {B} j c (f : Cell -> M B) s :
  heap s !! j = Some c -> bind (read j) f s = f c s.
Proof. unfold bind, read. by intros ->. Qed.

(** A wrapped callback throws what the handler in its cell throws. *)
Lemma throws_SafeRun2Succ k j sf ff ct oc ocl cl cs x e s :
  heap s !! j = Some (SafeRun2Vars sf ff ct oc ocl cl cs) ->
  throws_at k sf x e s -> throws_at (S k) (SafeRun2Succ j) x e s.
Proof.
  intros Hj Hf [|n] s0 Hn Hext; [lia|].
  destruct (Hf n s0 ltac:(lia) Hext) as (s1 & E & Hext1). exists s1. split; [|done].
  simpl. erewrite bind_read; [|by eapply ext_lookup]. simpl. by apply bind_throws.
Qed.

Lemma throws_SafeRun2Fail k j sf ff ct oc ocl cl cs x e s :
  heap s !! j = Some (SafeRun2Vars sf ff ct oc ocl cl cs) ->
  throws_at k ff x e s -> throws_at (S k) (SafeRun2Fail j) x e s.
Proof.
  intros Hj Hf [|n] s0 Hn Hext; [lia|].
  destruct (Hf n s0 ltac:(lia) Hext) as (s1 & E & Hext1). exists s1. split; [|done].
  simpl. erewrite bind_read; [|by eapply ext_lookup]. simpl. by apply bind_throws.
Qed.

Lemma throws_SafeRunSucc k j hh c oc cl cs x e s :
  heap s !! j = Some (SafeRunVars hh c oc cl cs) ->
  throws_at k (success hh) x e s -> throws_at (S k) (SafeRunSucc j) x e s.
Proof.
  intros Hj Hf [|n] s0 Hn Hext; [lia|].
  destruct (Hf n s0 ltac:(lia) Hext) as (s1 & E & Hext1). exists s1. split; [|done].
  simpl. erewrite bind_read; [|by eapply ext_lookup]. simpl. by apply bind_throws.
Qed.

Lemma throws_SafeRunFail k j hh c oc cl cs x e s :
  heap s !! j = Some (SafeRunVars hh c oc cl cs) ->
  throws_at k (failure hh) x e s -> throws_at (S k) (SafeRunFail j) x e s.
Proof.
  intros Hj Hf [|n] s0 Hn Hext; [lia|].
  destruct (Hf n s0 ltac:(lia) Hext) as (s1 & E & Hext1). exists s1. split; [|done].
  simpl. erewrite bind_read; [|by eapply ext_lookup]. simpl. by apply bind_throws.
Qed.

(** What escapes the handlers of a guard escapes its wrapped callbacks. *)
Lemma escapes_guard2 o hh e s k sa j oc ocl cl cs :
  ext s sa ->
  heap sa !! j = Some (SafeRun2Vars (success hh) (failure hh) (catch hh) oc ocl cl cs) ->
  escapes o hh e s k ->
  escapes o (mkHandlers (SafeRun2Succ j) (SafeRun2Fail j) None) e sa (S k).
Proof.
  intros Hext Hj Ho. destruct o; simpl in *; [| |done].
  - eapply throws_SafeRun2Succ; [done|]. by eapply throws_at_ext.
  - eapply throws_SafeRun2Fail; [done|]. by eapply throws_at_ext.
Qed.

Lemma escapes_guard o hh e s k sa j c oc cl cs :
  ext s sa ->
  heap sa !! j = Some (SafeRunVars hh c oc cl cs) ->
  escapes o hh e s k ->
  escapes o (mkHandlers (SafeRunSucc j) (SafeRunFail j) None) e sa (S k).
Proof.
  intros Hext Hj Ho. destruct o; simpl in *; [| |done].
  - eapply throws_SafeRunSucc; [done|]. by eapply throws_at_ext.
  - eapply throws_SafeRunFail; [done|]. by eapply throws_at_ext.
Qed.

Lemma escapes_ext o hh e s s' k : ext s s' -> escapes o hh e s k -> escapes o hh e s' k.
Proof. intros Hext. destruct o; simpl; [by apply throws_at_ext..|done]. Qed.

Lemma escapes_le o hh e s k k' : k <= k' -> escapes o hh e s k -> escapes o hh e s k'.
Proof.
  intros Hk. destruct o; simpl; [| |done]; intros Hf n s0 Hn Hext; apply Hf; [lia|done|lia|done].
Qed.

(** The body of a guard throws: so does the guard, before it stores
    anything. *)
Lemma safeRun2_throws c0 body hh s e s1 :
  body (SafeRun2Succ (length (heap s))) (SafeRun2Fail (length (heap s)))
       (option_map (fun _ => SafeRun2Catch (length (heap s))) (catch hh))
       (mkState (heap s ++ [SafeRun2Vars (success hh) (failure hh) (catch hh)
                                         noop0 noop0 false true]) (log s))
  = Some (Throw e, s1) ->
  safeRun2 c0 body hh s = Some (Throw e, s1).
Proof. intros E. unfold safeRun2. rewrite bind_alloc. by apply bind_throws. Qed.

Lemma safeRun_throws c0 body hh s e s1 :
  body (SafeRunSucc (length (heap s))) (SafeRunFail (length (heap s)))
       (mkState (heap s ++ [SafeRunVars hh noop0 noop0 false true]) (log s))
  = Some (Throw e, s1) ->
  safeRun c0 body hh s = Some (Throw e, s1).
Proof. intros E. unfold safeRun. rewrite bind_alloc. by apply bind_throws. Qed.

(** The statement proved by induction on the settlement: with fuel [d]
    beyond what the handler needs, [run] throws what escapes. *)
Local Abbreviation escaping t o d :=
  (forall k sf ff s e n,
     escapes o (mkHandlers sf ff None) e s k -> d + k <= n ->
     exists s', _run n t (mkHandlers sf ff None) s = Some (Throw e, s') /\ ext s s').

Lemma lookup_fresh (hp : list Cell) c : (hp ++ [c]) !! length hp = Some c.
Proof. by rewrite lookup_app_r, Nat.sub_diag. Qed.

Lemma escaping_FromComputation comp o a rest :
  acts comp = a :: rest ->
  o = match a with CallSucc v => Succeeds v | CallFail x => Fails x end ->
  escaping (FromComputation comp) o 2.
Proof.
  intros Ha -> k sf ff s e [|n] Ho Hn; [lia|]. simpl.
  set (j := length (heap s)).
  set (sa := mkState (heap s ++ [SafeRun2Vars sf ff None noop0 noop0 false true]) (log s)).
  assert (ext s sa) as Hext by apply ext_alloc.
  assert (heap sa !! j = Some (SafeRun2Vars sf ff None noop0 noop0 false true)) as Hj
    by apply lookup_fresh.
  pose proof (escapes_guard2 _ (mkHandlers sf ff None) _ _ _ _ _ _ _ _ _ Hext Hj Ho) as Ho'.
  assert (exists s1, runAct (call1 n) (SafeRun2Succ j) (SafeRun2Fail j) a sa = Some (Throw e, s1)
                     /\ ext sa s1) as (s1 & E & Hext1).
  { destruct a; simpl in *; (apply Ho'; [lia|apply ext_refl]). }
  exists s1. split; [|by eapply ext_trans].
  apply safeRun2_throws. simpl. fold j sa.
  apply bind_throws. unfold runComputation. rewrite Ha. simpl.
  apply bind_throws. by apply bind_throws.
Qed.

Lemma sync_escapes t o : sync t o -> exists d, escaping t o d.
Proof.
  induction 1 as
    [v|x|v rest r|x rest r|e0
    |t fn v y _ [d IH] Hfn|t fn v e0 _ [d IH] Hfn|t fn o _ [d IH] Ho
    |t fn x y _ [d IH] Hfn|t fn x e0 _ [d IH] Hfn|t fn o _ [d IH] Ho
    |t fn v t' o _ [d IH] Hfn _ [d' IH']|t fn v e0 _ [d IH] Hfn|t fn o _ [d IH] Ho
    |t fn x t' o _ [d IH] Hfn _ [d' IH']|t fn x e0 _ [d IH] Hfn|t fn o _ [d IH] Ho
    |t ts o _ [d IH]|t ts o _ [d IH] Ho].
  - (* Of *)
    exists 1. intros k sf ff s e [|n] Ho Hn; [lia|]. simpl in *.
    destruct (Ho n s ltac:(lia) (ext_refl s)) as (s1 & E & Hext). exists s1. split; [|done].
    by apply bind_throws.
  - (* Rejected *)
    exists 1. intros k sf ff s e [|n] Ho Hn; [lia|]. simpl in *.
    destruct (Ho n s ltac:(lia) (ext_refl s)) as (s1 & E & Hext). exists s1. split; [|done].
    by apply bind_throws.
  - exists 2. by eapply escaping_FromComputation.
  - exists 2. by eapply escaping_FromComputation.
  - (* a computation that throws *)
    exists 1. intros k sf ff s e [|n] Ho Hn; [lia|]. simpl in *. subst e.
    eexists. split; [|apply ext_alloc].
    apply safeRun2_throws. simpl. by apply bind_throws.
  - (* Map, transformed *)
    exists (d + 2). intros k sf ff s e [|n] Ho Hn; [lia|]. simpl.
    apply (IH (S k)); [|lia]. simpl in *.
    intros [|n0] s0 Hn0 Hext; [lia|]. simpl. rewrite Hfn. apply Ho; [lia|done].
  - (* Map, the function throws *)
    exists (d + 2). intros k sf ff s e [|n] Ho Hn; [lia|]. simpl in *. subst e.
    apply (IH 1); [|lia]. simpl.
    intros [|n0] s0 Hn0 Hext; [lia|]. simpl. rewrite Hfn. eexists. split; [done|apply ext_refl].
  - (* Map, failure or exception *)
    exists (S d). intros k sf ff s e [|n] Ho' Hn; [lia|]. simpl.
    apply (IH k); [|lia]. by destruct o.
  - (* MapRejected, transformed *)
    exists (d + 2). intros k sf ff s e [|n] Ho Hn; [lia|]. simpl.
    apply (IH (S k)); [|lia]. simpl in *.
    intros [|n0] s0 Hn0 Hext; [lia|]. simpl. rewrite Hfn. apply Ho; [lia|done].
  - (* MapRejected, the function throws *)
    exists (d + 2). intros k sf ff s e [|n] Ho Hn; [lia|]. simpl in *. subst e.
    apply (IH 1); [|lia]. simpl.
    intros [|n0] s0 Hn0 Hext; [lia|]. simpl. rewrite Hfn. eexists. split; [done|apply ext_refl].
  - (* MapRejected, success or exception *)
    exists (S d). intros k sf ff s e [|n] Ho' Hn; [lia|]. simpl.
    apply (IH k); [|lia]. by destruct o.
  - (* Chain, the second task *)
    exists (d + d' + 3). intros k sf ff s e [|n] Ho Hn; [lia|]. simpl.
    set (j := length (heap s)).
    set (sa := mkState (heap s ++ [SafeRun2Vars sf ff None noop0 noop0 false true]) (log s)).
    set (sb := mkState (heap sa ++ [ChainVars noop0]) (log sa)).
    assert (ext s sa) as Hsa by apply ext_alloc.
    assert (ext sa sb) as Hsb by apply ext_alloc.
    assert (heap sa !! j = Some (SafeRun2Vars sf ff None noop0 noop0 false true)) as Hj
      by apply lookup_fresh.
    destruct (IH (d' + k + 2)
                 (ChainSuccess (length (heap sa)) fn (SafeRun2Succ j) (SafeRun2Fail j) None)
                 (SafeRun2Fail j) sb e n) as (s1 & E & Hext1); [|lia|].
    { simpl. intros [|n0] s0 Hn0 Hext; [lia|]. simpl. rewrite Hfn.
      destruct (IH' (S k) (SafeRun2Succ j) (SafeRun2Fail j) s0 e n0) as (s2 & E2 & Hext2); [|lia|].
      { eapply (escapes_guard2 _ (mkHandlers sf ff None)); [| |exact Ho].
        - eapply ext_trans; [exact Hsa|]. by eapply ext_trans.
        - eapply ext_lookup; [|exact Hj]. by eapply ext_trans. }
      exists s2. split; [|done]. by apply bind_throws. }
    exists s1. split; [|eapply ext_trans; [exact Hsa|by eapply ext_trans]].
    apply safeRun2_throws. simpl. fold j sa. rewrite bind_alloc. fold sb.
    by apply bind_throws.
  - (* Chain, the continuation throws *)
    exists (d + 2). intros k sf ff s e [|n] Ho Hn; [lia|]. simpl in *. subst e.
    set (j := length (heap s)).
    set (sa := mkState (heap s ++ [SafeRun2Vars sf ff None noop0 noop0 false true]) (log s)).
    set (sb := mkState (heap sa ++ [ChainVars noop0]) (log sa)).
    destruct (IH 1
                 (ChainSuccess (length (heap sa)) fn (SafeRun2Succ j) (SafeRun2Fail j) None)
                 (SafeRun2Fail j) sb e0 n) as (s1 & E & Hext1); [|lia|].
    { simpl. intros [|n0] s0 Hn0 Hext; [lia|]. simpl. rewrite Hfn.
      eexists. split; [done|apply ext_refl]. }
    exists s1. split; [|eapply ext_trans; [apply ext_alloc|]; eapply ext_trans; [apply ext_alloc|done]].
    apply safeRun2_throws. simpl. fold j sa. rewrite bind_alloc. fold sb.
    by apply bind_throws.
  - (* Chain, the first task fails or throws *)
    exists (d + 2). intros k sf ff s e [|n] Ho' Hn; [lia|]. simpl.
    set (j := length (heap s)).
    set (sa := mkState (heap s ++ [SafeRun2Vars sf ff None noop0 noop0 false true]) (log s)).
    set (sb := mkState (heap sa ++ [ChainVars noop0]) (log sa)).
    assert (ext s sa) as Hsa by apply ext_alloc.
    assert (ext sa sb) as Hsb by apply ext_alloc.
    assert (heap sb !! j = Some (SafeRun2Vars sf ff None noop0 noop0 false true)) as Hj.
    { eapply ext_lookup; [exact Hsb|]. apply lookup_fresh. }
    destruct (IH (S k)
                 (ChainSuccess (length (heap sa)) fn (SafeRun2Succ j) (SafeRun2Fail j) None)
                 (SafeRun2Fail j) sb e n) as (s1 & E & Hext1); [|lia|].
    { pose proof (escapes_guard2 _ (mkHandlers sf ff None) _ _ _ _ _ _ _ _ _
                    (ext_trans _ _ _ Hsa Hsb) Hj Ho') as Hg.
      by destruct o. }
    exists s1. split; [|eapply ext_trans; [exact Hsa|by eapply ext_trans]].
    apply safeRun2_throws. simpl. fold j sa. rewrite bind_alloc. fold sb.
    by apply bind_throws.
  - (* OrElse, the second task *)
    exists (d + d' + 3). intros k sf ff s e [|n] Ho Hn; [lia|]. simpl.
    set (j := length (heap s)).
    set (sa := mkState (heap s ++ [SafeRunVars (mkHandlers sf ff None) noop0 noop0 false true])
                       (log s)).
    set (sb := mkState (heap sa ++ [ChainVars noop0]) (log sa)).
    assert (ext s sa) as Hsa by apply ext_alloc.
    assert (ext sa sb) as Hsb by apply ext_alloc.
    assert (heap sa !! j = Some (SafeRunVars (mkHandlers sf ff None) noop0 noop0 false true))
      as Hj by apply lookup_fresh.
    destruct (IH (d' + k + 2)
                 (SafeRunSucc j)
                 (OrElseFailure (length (heap sa)) fn (SafeRunSucc j) (SafeRunFail j))
                 sb e n) as (s1 & E & Hext1); [|lia|].
    { simpl. intros [|n0] s0 Hn0 Hext; [lia|]. simpl. rewrite Hfn.
      destruct (IH' (S k) (SafeRunSucc j) (SafeRunFail j) s0 e n0) as (s2 & E2 & Hext2); [|lia|].
      { eapply escapes_guard; [| |exact Ho].
        - eapply ext_trans; [exact Hsa|]. by eapply ext_trans.
        - eapply ext_lookup; [|exact Hj]. by eapply ext_trans. }
      exists s2. split; [|done]. by apply bind_throws. }
    exists s1. split; [|eapply ext_trans; [exact Hsa|by eapply ext_trans]].
    apply safeRun_throws. fold j sa. rewrite bind_alloc. fold sb.
    by apply bind_throws.
  - (* OrElse, the continuation throws *)
    exists (d + 2). intros k sf ff s e [|n] Ho Hn; [lia|]. simpl in *. subst e.
    set (j := length (heap s)).
    set (sa := mkState (heap s ++ [SafeRunVars (mkHandlers sf ff None) noop0 noop0 false true])
                       (log s)).
    set (sb := mkState (heap sa ++ [ChainVars noop0]) (log sa)).
    destruct (IH 1
                 (SafeRunSucc j)
                 (OrElseFailure (length (heap sa)) fn (SafeRunSucc j) (SafeRunFail j))
                 sb e0 n) as (s1 & E & Hext1); [|lia|].
    { simpl. intros [|n0] s0 Hn0 Hext; [lia|]. simpl. rewrite Hfn.
      eexists. split; [done|apply ext_refl]. }
    exists s1. split; [|eapply ext_trans; [apply ext_alloc|]; eapply ext_trans; [apply ext_alloc|done]].
    apply safeRun_throws. fold j sa. rewrite bind_alloc. fold sb.
    by apply bind_throws.
  - (* OrElse, the first task succeeds or throws *)
    exists (d + 2). intros k sf ff s e [|n] Ho' Hn; [lia|]. simpl.
    set (j := length (heap s)).
    set (sa := mkState (heap s ++ [SafeRunVars (mkHandlers sf ff None) noop0 noop0 false true])
                       (log s)).
    set (sb := mkState (heap sa ++ [ChainVars noop0]) (log sa)).
    assert (ext s sa) as Hsa by apply ext_alloc.
    assert (ext sa sb) as Hsb by apply ext_alloc.
    assert (heap sb !! j = Some (SafeRunVars (mkHandlers sf ff None) noop0 noop0 false true))
      as Hj.
    { eapply ext_lookup; [exact Hsb|]. apply lookup_fresh. }
    destruct (IH (S k)
                 (SafeRunSucc j)
                 (OrElseFailure (length (heap sa)) fn (SafeRunSucc j) (SafeRunFail j))
                 sb e n) as (s1 & E & Hext1); [|lia|].
    { pose proof (escapes_guard _ _ _ _ _ _ _ _ _ _ _ (ext_trans _ _ _ Hsa Hsb) Hj Ho') as Hg.
      by destruct o. }
    exists s1. split; [|eapply ext_trans; [exact Hsa|by eapply ext_trans]].
    apply safeRun_throws. fold j sa. rewrite bind_alloc. fold sb.
    by apply bind_throws.
  - (* Race *)
    exists (d + 2). intros k sf ff s e [|n] Ho Hn; [lia|]. simpl.
    set (j := length (heap s)).
    set (sa := mkState (heap s ++ [SafeRunVars (mkHandlers sf ff None) noop0 noop0 false true])
                       (log s)).
    assert (ext s sa) as Hsa by apply ext_alloc.
    assert (heap sa !! j = Some (SafeRunVars (mkHandlers sf ff None) noop0 noop0 false true))
      as Hj by apply lookup_fresh.
    destruct (IH (S k) (SafeRunSucc j) (SafeRunFail j) sa e n) as (s1 & E & Hext1); [|lia|].
    { by eapply escapes_guard. }
    exists s1. split; [|by eapply ext_trans].
    apply safeRun_throws. fold j sa. apply bind_throws. simpl. by apply bind_throws.
  - (* All *)
    exists (d + 2). intros k sf ff s e [|n] Ho' Hn; [lia|]. simpl.
    set (j := length (heap s)).
    set (sa := mkState (heap s ++ [SafeRunVars (mkHandlers sf ff None) noop0 noop0 false true])
                       (log s)).
    set (sb := mkState (heap sa ++ [AllVars (replicate (S (length ts)) VUndef) 0]) (log sa)).
    assert (ext s sa) as Hsa by apply ext_alloc.
    assert (ext sa sb) as Hsb by apply ext_alloc.
    assert (heap sb !! j = Some (SafeRunVars (mkHandlers sf ff None) noop0 noop0 false true))
      as Hj.
    { eapply ext_lookup; [exact Hsb|]. apply lookup_fresh. }
    destruct (IH (S k)
                 (AllSuccess (length (heap sa)) (S (length ts)) 0 (SafeRunSucc j))
                 (SafeRunFail j) sb e n) as (s1 & E & Hext1); [|lia|].
    { pose proof (escapes_guard _ _ _ _ _ _ _ _ _ _ _ (ext_trans _ _ _ Hsa Hsb) Hj Ho') as Hg.
      by destruct o. }
    exists s1. split; [|eapply ext_trans; [exact Hsa|by eapply ext_trans]].
    apply safeRun_throws. fold j sa. rewrite bind_alloc. fold sb.
    apply bind_throws. simpl. by apply bind_throws.
Qed.
(** * The claims *)

(** ** C1: at most one settlement *)

(** C1, as the specification words it, fails: with a bare success callback
    the failure handler is [defaultFailureHandler]; [fail(1)] makes it throw,
    so the [close()] after it is never reached, and a later [succeed(2)] is
    delivered to the caller's success callback. *)
Lemma first_invocation_not_absorbed : ~ absorbs_after_first_invocation.
Proof.
  intros H.
  pose proof (H {| acts := []; ret := RetUndefined |} (LFn 0) 5 _ _
                false (VNum 1) _ true (VNum 2) _ eq_refl eq_refl eq_refl) as E.
  vm_compute in E. discriminate E.
Qed.

(** It fails for a second reason: a callback of the caller that throws is
    invoked again and again, because the [close()] after it is never
    reached. *)
Lemma throwing_handler_is_invoked_again :
  exists s1 s2,
    _run 5 (later 7) (mkHandlers (UserThrows 0 (VNum 9)) (User 1) None) init
    = Some (Ok (SafeRun2Cancel 0), s1) /\
    fireAll 5 [succeed 0 (VNum 1); succeed 0 (VNum 2); fail 0 (VNum 3)] s1 = Some (Ok tt, s2) /\
    log s2 = [Called 0 (VNum 1); Uncaught (VNum 9); Called 0 (VNum 2); Uncaught (VNum 9);
              Called 1 (VNum 3)].
Proof.
  eexists _, _. split; [vm_compute; reflexivity|]. split; [vm_compute; reflexivity|].
  vm_compute. reflexivity.
Qed.

(** And for a third: a cancel function that throws keeps [close()] from
    severing the handlers.  Under [Race] the first success is delivered, the
    cancellation of the other computation throws, and the next success is
    delivered as well. *)
Lemma throwing_cancel_function_reopens :
  exists s1 s2,
    run 6 (Race [later_throwing 7 (VNum 9); later 8]) (LFn 0) init
    = Some (Ok (SafeRunCancel 0), s1) /\
    fireAll 6 [succeed 2 (VNum 1); succeed 2 (VNum 2)] s1 = Some (Ok tt, s2) /\
    log s2 = [Called 0 (VNum 1); Cancelled 7; Uncaught (VNum 9);
              Called 0 (VNum 2); Cancelled 7; Uncaught (VNum 9)].
Proof.
  eexists _, _. split; [vm_compute; reflexivity|]. split; [vm_compute; reflexivity|].
  vm_compute. reflexivity.
Qed.

(** C1 (amended).  Let the cancel functions of the computations return when
    they are invoked ([tame t]) and let the handlers given to [run] return
    ([passiveH hh]: callbacks of the caller that return, [noop] or the default
    failure handler, the three values [Task.run] puts into the handler set).
    Then for every execution instance, at most one invocation of a callback
    of the caller ever happens, however often and in whatever order the
    outside world invokes wrapped callbacks and cancel handles; and once a
    wrapped callback of the instance's guard has returned normally, no later
    invocation reaches a callback of the caller. *)
Theorem settles_at_most_once t hh n m r s1 evs s2 :
  tame t -> passiveH hh ->
  _run n t hh init = Some (r, s1) ->
  Forall quiet_event evs -> final (fireAll m evs) s1 = Some s2 ->
  length (called (log s2)) <= 1 /\
  forall f x s3 evs' s4,
    wrapped 0 f -> call1 m f x s2 = Some (Ok tt, s3) ->
    Forall quiet_event evs' -> final (fireAll m evs') s3 = Some s4 ->
    called (log s4) = called (log s3).
Proof.
  intros Ht Hh E Hevs E2.
  destruct (run_Inv _ _ _ _ _ _ Ht Hh Quiet_init E) as [HI _].
  pose proof (passive_stored t _ Hh) as Hp.
  apply final_Some in E2 as [r2 E2].
  eapply pres_fireAll in E2; [|done..]. simpl in E2. split.
  - apply Inv_settled in E2 as [->|(tag & v & _ & ->)]; simpl; lia.
  - intros f x s3 evs' s4 Hw Ef Hevs' E4.
    eapply Quiet_fireAll; [|done..]. eapply wrapped_seals; eauto.
Qed.

Lemma settles_at_most_once_witness :
  exists s1 s2,
    run 5 (FromComputation {| acts := [CallSucc (VNum 1); CallSucc (VNum 2)]; ret := RetUndefined |})
        (LRec (Some 0) (Some 1) None) init = Some (Ok (SafeRun2Cancel 0), s1) /\
    final (fireAll 5 [succeed 0 (VNum 3); fail 0 (VNum 4)]) s1 = Some s2 /\
    called (log s2) = [(0, VNum 1)] /\
    length (called (log s2)) <= 1.
Proof.
  eexists _, _. split; [vm_compute; reflexivity|]. split; [vm_compute; reflexivity|].
  split; [reflexivity|].
  refine (proj1 (settles_at_most_once
            (FromComputation {| acts := [CallSucc (VNum 1); CallSucc (VNum 2)]; ret := RetUndefined |})
            (normalise (LRec (Some 0) (Some 1) None)) 5 5 _ _
            [succeed 0 (VNum 3); fail 0 (VNum 4)] _ _ _ _ _ _)).
  - exact I.
  - repeat split.
  - vm_compute. reflexivity.
  - repeat constructor.
  - vm_compute. reflexivity.
Defined.

(** ** C3: cancellation *)

(** C3, as the specification words it, fails: the handle runs the cancel
    function of the computation before it closes the guard, so a cancel
    function that throws leaves the handlers in place, and a success that the
    computation reports afterwards is delivered. *)
Lemma throwing_cancel_function_is_not_silenced : ~ cancel_silences_every_computation.
Proof.
  intros H.
  pose proof (H {| acts := []; ret := RetCancelThrows 7 (VNum 9) |} (LFn 0) 5 _ _ _
                true (VNum 1) _ eq_refl eq_refl eq_refl eq_refl) as E.
  vm_compute in E. discriminate E.
Qed.

(** C3 (amended).  For every task whose cancel functions return when they
    are invoked, run with handlers that return: once the cancel handle
    returned by [run] has been invoked, no callback of the caller is invoked
    any more, whatever wrapped callbacks the computations underneath invoke
    later; in particular, if none had been invoked before the cancellation,
    none ever is. *)
Theorem cancel_silences_handlers t hh n m c s1 evs1 s2 s3 evs2 s4 :
  tame t -> passiveH hh ->
  _run n t hh init = Some (Ok c, s1) ->
  Forall quiet_event evs1 -> final (fireAll m evs1) s1 = Some s2 ->
  final (fire m (Cancel c)) s2 = Some s3 ->
  Forall quiet_event evs2 -> final (fireAll m evs2) s3 = Some s4 ->
  called (log s4) = called (log s2) /\
  (called (log s2) = [] -> called (log s4) = []).
Proof.
  intros Ht Hh E Hevs1 E2 E3 Hevs2 E4.
  destruct (run_Inv _ _ _ _ _ _ Ht Hh Quiet_init E) as [HI Hc].
  pose proof (passive_stored t _ Hh) as Hp.
  specialize (Hc c eq_refl). simpl in *.
  assert (handle_of c 0 s2) as Hc2.
  { destruct Hc as [[-> HQ]|Hc]; [|by right]. left. split; [done|].
    by destruct (Quiet_fireAll _ _ _ _ HQ Hevs1 E2). }
  apply final_Some in E2 as [r2 E2]. eapply pres_fireAll in E2; [|done..].
  apply final_Some in E3 as [r3 E3]. unfold fire in E3. minv E3.
  - destruct (cancel_seals _ _ _ _ _ _ _ _ E2 Hc2 X) as (_ & HQ & Hl).
    destruct (Quiet_fireAll _ _ _ _ HQ Hevs2 E4) as [_ Hl']. rewrite Hl', Hl.
    split; [done|]. by intros ->.
  - by destruct (cancel_seals _ _ _ _ _ _ _ _ E2 Hc2 X) as (? & _).
Qed.

Lemma cancel_silences_handlers_witness :
  exists c s1 s2 s3 s4,
    run 5 (later 7) (LFn 0) init = Some (Ok c, s1) /\
    final (fireAll 5 []) s1 = Some s2 /\
    final (fire 5 (Cancel c)) s2 = Some s3 /\
    final (fireAll 5 [succeed 0 (VNum 1)]) s3 = Some s4 /\
    log s4 = [Cancelled 7] /\
    called (log s4) = called (log s2).
Proof.
  eexists _, _, _, _, _.
  split; [vm_compute; reflexivity|]. split; [vm_compute; reflexivity|].
  split; [vm_compute; reflexivity|]. split; [vm_compute; reflexivity|].
  split; [reflexivity|].
  refine (proj1 (cancel_silences_handlers (later 7) (normalise (LFn 0)) 5 5 _ _ [] _ _
                                          [succeed 0 (VNum 1)] _ _ _ _ _ _ _ _ _)).
  - exact I.
  - repeat split.
  - vm_compute. reflexivity.
  - constructor.
  - vm_compute. reflexivity.
  - vm_compute. reflexivity.
  - repeat constructor.
  - vm_compute. reflexivity.
Defined.

(** ** C10: [Map] and [MapRejected] drop the defect channel *)

(** C10, as the specification words it, fails below a [Chain]: the
    continuation of a [Chain] runs the [Map] inside its [try], so the
    exception that leaves the [Map] is caught there and handed to the catch
    handler that the caller gave. *)
Lemma map_below_chain_delivers_defect : ~ map_below_chain_drops_catch.
Proof.
  intros H.
  apply (H (VNum 1) (Chain (Of (VNum 2)) (fun _ => Throw (VNum 5))) Ok (Some 0) (Some 1) 2 9 _ _
           ltac:(discriminate) ltac:(discriminate) eq_refl (VNum 5)).
  vm_compute. apply list_elem_of_here.
Qed.

(** A task that throws while it is run without a catch handler makes the
    [Map] or [MapRejected] over it throw, whatever handlers they are given. *)
Lemma map_throws t fn e h :
  sync t (Throws e) ->
  exists n0, forall n, n0 <= n ->
    exists s s',
      run n (Map t fn) h init = Some (Throw e, s) /\ log s = [] /\
      run n (MapRejected t fn) h init = Some (Throw e, s') /\ log s' = [].
Proof.
  intros (d & Hd)%sync_escapes. exists (S d). intros [|n] Hn; [lia|].
  destruct (Hd 0 (MapSuccess fn (success (normalise h))) (failure (normalise h)) init e n
              eq_refl ltac:(lia)) as (s & E & _ & Hl).
  destruct (Hd 0 (success (normalise h)) (MapRejectedFailure fn (failure (normalise h))) init e n
              eq_refl ltac:(lia)) as (s' & E' & _ & Hl').
  exists s, s'. unfold run. simpl. by destruct h as [?|[?|] [?|] ?].
Qed.

(** C10 (amended).  When [run] is called on [Map t fn] or [MapRejected t fn]
    with handlers that include a catch handler [c], the child is handed only
    a success and a failure handler; so, for a child task tree whose cancel
    functions return, [c] is never invoked, whatever happens now or later,
    and a child that throws while it runs (for example from the continuation
    of a [Chain] below the [Map]) makes [run] throw that exception without
    any callback having been invoked. *)
Theorem map_drops_catch t fn so sf c :
  tame t -> so <> Some c -> sf <> Some c ->
  (forall n m r s1 evs s2,
     run n (Map t fn) (LRec so sf (Some c)) init = Some (r, s1) \/
     run n (MapRejected t fn) (LRec so sf (Some c)) init = Some (r, s1) ->
     Forall quiet_event evs -> final (fireAll m evs) s1 = Some s2 ->
     forall v, (c, v) ∉ called (log s2)) /\
  (forall e, sync t (Throws e) ->
     exists n0, forall n, n0 <= n ->
       exists s s',
         run n (Map t fn) (LRec so sf (Some c)) init = Some (Throw e, s) /\ log s = [] /\
         run n (MapRejected t fn) (LRec so sf (Some c)) init = Some (Throw e, s') /\
         log s' = []).
Proof.
  intros Ht Hso Hsf. split; [|intros e; apply map_throws].
  intros n m r s1 evs s2 E Hevs E2.
  assert (exists h', passiveH h' /\ (forall tag, fires h' tag -> tag <> c) /\
                     exists k, _run k t h' init = Some (r, s1)) as (h' & Hp & Hf & k & E').
  { unfold run in E. destruct E as [E|E]; (destruct n as [|n]; [done|]); simpl in E;
      (eexists; split; [|split; [|by eauto]]).
    - destruct so, sf; repeat split.
    - intros tag [Ht'|[Ht'|(? & ? & _)]] ->; simpl in *; [|by destruct sf; simplify_eq/=|done].
      by destruct so; simplify_eq/=.
    - destruct so, sf; repeat split.
    - intros tag [Ht'|[Ht'|(? & ? & _)]] ->; simpl in *; [|by destruct sf; simplify_eq/=|done].
      by destruct so; simplify_eq/=. }
  intros v Hin.
  destruct (run_settled _ _ _ _ _ _ _ _ _ Ht Hp Quiet_init E' Hevs E2)
    as [Hk|(tag & v' & Ht' & Hk)]; simpl in Hk; rewrite Hk in Hin.
  - by apply elem_of_nil in Hin.
  - apply list_elem_of_singleton in Hin. simplify_eq. by eapply Hf.
Qed.

Lemma map_drops_catch_witness :
  exists s1 s2,
    run 6 (Map (Chain (later 7) (fun _ => Throw (VNum 5))) Ok)
        (LRec (Some 0) (Some 1) (Some 2)) init = Some (Ok (SafeRun2Cancel 0), s1) /\
    final (fireAll 6 [succeed 2 (VNum 3)]) s1 = Some s2 /\
    log s2 = [Uncaught (VNum 5)] /\
    forall v, (2, v) ∉ called (log s2).
Proof.
  eexists _, _. split; [vm_compute; reflexivity|]. split; [vm_compute; reflexivity|].
  split; [reflexivity|].
  refine (proj1 (map_drops_catch (Chain (later 7) (fun _ => Throw (VNum 5))) Ok (Some 0) (Some 1) 2
                                 _ _ _)
            6 6 _ _ [succeed 2 (VNum 3)] _ _ _ _).
  - split; [exact I|]. intros x. exact I.
  - discriminate.
  - discriminate.
  - left. vm_compute. reflexivity.
  - repeat constructor.
  - vm_compute. reflexivity.
Defined.

(** ** C8: no failure handler *)




(** ** C2: [All] of no task *)

(** C2 fails on the code: [All._run] calls the outer success handler only from
    the success callback of a sub-task, and there is none.  Running [All []]
    returns a cancel handle, invokes nothing, and invoking the handle invokes
    nothing either. *)
Lemma all_empty_never_settles n h :
  exists s,
    run (2 + n) (All []) h init = Some (Ok (SafeRunCancel 0), s) /\
    log s = [] /\
    forall m s', final (fire m (Cancel (SafeRunCancel 0))) s = Some s' -> called (log s') = [].
Proof.
  eexists. split; [vm_compute; reflexivity|]. split; [done|].
  intros m s' [r E]%final_Some. unfold fire in E. minv E.
  - by apply call0_called in X.
  - apply call0_called in X. simpl in *. by rewrite called_app, X.
Qed.

Lemma all_empty_does_not_settle : ~ all_empty_settles.
Proof.
  intros H. destruct (H 2 (LRec (Some 0) (Some 1) None) _ _ eq_refl) as [tag Ht].
  vm_compute in Ht. discriminate Ht.
Qed.

(** ** C9: the cancel handle is idempotent *)

(** C9, as the specification words it, fails: the handle runs the cancel
    function of the computation before it closes the guard, so when that
    function throws the guard stays open, and a second invocation of the
    handle invokes the cancel function again. *)
Lemma second_cancel_invokes_again : ~ second_cancel_has_no_effect.
Proof.
  intros H.
  pose proof (H {| acts := []; ret := RetCancelThrows 7 (VNum 9) |} (LFn 0) 5 _ _ _ _
                eq_refl eq_refl eq_refl) as E.
  vm_compute in E. discriminate E.
Qed.

(** C9 (amended).  For every task whose cancel functions return when they
    are invoked, run with handlers that return: the handle [c] returned by
    [run] does nothing at all (it returns and leaves the state as it is) once
    it has been invoked before, and also once the instance has settled: after
    a wrapped callback of its guard has returned normally, or, observably,
    after a callback of the caller has been invoked. *)
Theorem cancel_is_idempotent t hh n m c s1 evs1 s2 :
  tame t -> passiveH hh ->
  _run n t hh init = Some (Ok c, s1) ->
  Forall quiet_event evs1 -> final (fireAll m evs1) s1 = Some s2 ->
  (forall s3 evs2 s4 k,
     final (fire m (Cancel c)) s2 = Some s3 -> final (fireAll m evs2) s3 = Some s4 ->
     call0 (2 + k) c s4 = Some (Ok tt, s4)) /\
  (forall f x s3 evs2 s4 k,
     wrapped 0 f -> call1 m f x s2 = Some (Ok tt, s3) -> final (fireAll m evs2) s3 = Some s4 ->
     call0 (2 + k) c s4 = Some (Ok tt, s4)) /\
  (called (log s2) <> [] -> forall k, call0 (2 + k) c s2 = Some (Ok tt, s2)).
Proof.
  intros Ht Hh E Hevs1 E2.
  pose proof (run_Instance _ _ _ _ _ _ E) as HC.
  assert (calm c) as Hcalm by (eapply run_handle; by eexists _, _).
  destruct (run_Inv _ _ _ _ _ _ Ht Hh Quiet_init E) as [HI _].
  pose proof (passive_stored t _ Hh) as Hp.
  apply final_Some in E2 as [r2 E2].
  eapply Instance_steps in HC; [|by eapply moves_fireAll].
  eapply pres_fireAll in E2; [|done..]. simpl in E2, HC.
  split; [|split].
  - intros s3 evs2 s4 k [r3 E3]%final_Some [r4 E4]%final_Some.
    apply Closed_noop with (i := 0). eapply Closed_steps; [|by eapply moves_fireAll].
    unfold fire in E3. minv E3.
    + destruct a. by eapply Instance_cancel.
    + by eapply call0_nothrow in X; eauto using Inv_Calm.
  - intros f x s3 evs2 s4 k Hw Ef [r4 E4]%final_Some.
    apply Closed_noop with (i := 0). eapply Closed_steps; [|by eapply moves_fireAll].
    by eapply wrapped_Closed.
  - intros Hk k. apply Closed_noop with (i := 0). by eapply settled_Closed.
Qed.

Lemma cancel_is_idempotent_witness :
  exists s1 s2 s3 s4,
    run 5 (later 7) (LRec (Some 0) (Some 1) None) init = Some (Ok (SafeRun2Cancel 0), s1) /\
    final (fireAll 5 []) s1 = Some s2 /\
    final (fire 5 (Cancel (SafeRun2Cancel 0))) s2 = Some s3 /\
    final (fireAll 5 [succeed 0 (VNum 1)]) s3 = Some s4 /\
    log s3 = [Cancelled 7] /\
    call0 2 (SafeRun2Cancel 0) s4 = Some (Ok tt, s4).
Proof.
  eexists _, _, _, _.
  split; [vm_compute; reflexivity|]. split; [vm_compute; reflexivity|].
  split; [vm_compute; reflexivity|]. split; [vm_compute; reflexivity|].
  split; [reflexivity|].
  refine (proj1 (cancel_is_idempotent (later 7) (normalise (LRec (Some 0) (Some 1) None)) 5 5
                                      _ _ [] _ _ _ _ _ _)
            _ [succeed 0 (VNum 1)] _ 0 _ _).
  - exact I.
  - repeat split.
  - vm_compute. reflexivity.
  - constructor.
  - vm_compute. reflexivity.
  - vm_compute. reflexivity.
  - vm_compute. reflexivity.
Defined.

(** ** C7: what the guards make of the body's return value *)




(** * Further properties of the engine *)

(** ** Cancellation *)



(** A cancel function that throws makes the handle throw before it closes
    the guard: the cell is as it was. *)
Lemma throwing_cancel_function_escapes :
  exists s,
    run 5 (later_throwing 7 (VNum 9)) (LFn 0) init = Some (Ok (SafeRun2Cancel 0), s) /\
    call0 5 (SafeRun2Cancel 0) s
    = Some (Throw (VNum 9), mkState (heap s) [Cancelled 7]).
Proof. eexists. split; [vm_compute; reflexivity|]. vm_compute. reflexivity. Qed.

(** X2.  Closing severs for good: once a guard is closed (its handlers and its
    cancel operation are [noop], its [close] is [noop]), nothing that happens
    later, no event from outside and no further [run], changes its cell. *)
Theorem closed_guard_is_final j c s :
  heap s !! j = Some c -> dead_cell c ->
  (forall n evs r s', fireAll n evs s = Some (r, s') -> heap s' !! j = Some c) /\
  (forall n t h r s', _run n t h s = Some (r, s') -> heap s' !! j = Some c).
Proof.
  intros Hj Hd. split.
  - intros n evs r s' E. destruct (moves_fireAll _ _ _ _ _ E _ _ Hj) as (c' & Hc' & He).
    by rewrite (evolves_dead _ _ Hd He) in Hc'.
  - intros n t h r s' E.
    destruct (proj2 (moves_exec n) _ _ _ _ _ E _ _ Hj) as (c' & Hc' & He).
    by rewrite (evolves_dead _ _ Hd He) in Hc'.
Qed.

Lemma closed_guard_is_final_witness :
  exists s s',
    fireAll 5 [succeed 0 (VNum 1); fail 0 (VNum 2); Cancel (SafeRun2Cancel 0)]
            (mkState [closed_leaf noopHandlers] []) = Some (Ok tt, s) /\
    _run 5 (later 7) noopHandlers s = Some (Ok (SafeRun2Cancel 1), s') /\
    heap s' !! 0 = Some (closed_leaf noopHandlers).
Proof.
  eexists _, _. split; [vm_compute; reflexivity|]. split; [vm_compute; reflexivity|].
  refine (proj2 (closed_guard_is_final 0 (closed_leaf noopHandlers)
                                       (mkState [closed_leaf noopHandlers] []) _ _)
            5 (later 7) noopHandlers _ _ _).
  - reflexivity.
  - repeat split.
  - vm_compute. reflexivity.
Defined.

(** ** Leaf computations *)

Lemma cancelled_app tag l1 l2 : cancelled tag (l1 ++ l2) = cancelled tag l1 + cancelled tag l2.
Proof. induction l1 as [|[] l1 IH]; simpl; auto. rewrite IH. lia. Qed.

Lemma run_leaf n tag h :
  run (2 + n) (later tag) h init
  = Some (Ok (SafeRun2Cancel 0), mkState [pending_leaf (normalise h) tag] []).
Proof. by destruct h as [f|[s|] [f|] [c|]]. Qed.

(** A closed leaf absorbs everything. *)
Lemma closed_leaf_absorbs n h ev lg :
  fire (3 + n) (leaf_event ev) (mkState [closed_leaf (normalise h)] lg)
  = Some (Ok tt, mkState [closed_leaf (normalise h)] lg).
Proof. by destruct ev, h as [f|[s|] [f|] [c|]]. Qed.

Lemma closed_leaf_absorbs_all n h evs lg :
  fireAll (3 + n) (map leaf_event evs) (mkState [closed_leaf (normalise h)] lg)
  = Some (Ok tt, mkState [closed_leaf (normalise h)] lg).
Proof.
  induction evs as [|ev evs IH]; [done|].
  unfold fireAll in *. cbn [map forEach].
  erewrite bind_eq; [|apply closed_leaf_absorbs]. done.
Qed.

Lemma pending_leaf_step n h tag ev lg :
  fire (3 + n) (leaf_event ev) (mkState [pending_leaf (normalise h) tag] lg)
  = Some (Ok tt, leaf_step (normalise h) tag ev lg).
Proof. by destruct ev, h as [f|[s|] [f|] [c|]]. Qed.

Lemma pending_leaf_events n h tag evs lg :
  cancelled tag lg = 0 ->
  exists s, fireAll (3 + n) (map leaf_event evs) (mkState [pending_leaf (normalise h) tag] lg)
            = Some (Ok tt, s) /\
            cancelled tag (log s) <= 1.
Proof.
  revert lg. induction evs as [|ev evs IH]; intros lg Hlg.
  - eexists. split; [done|]. simpl. lia.
  - unfold fireAll in *. cbn [map forEach].
    erewrite bind_eq; [|apply pending_leaf_step].
    assert (forall lg', cancelled tag lg' <= 1 ->
              exists s, forEach (fire (3 + n)) (map leaf_event evs)
                                (mkState [closed_leaf (normalise h)] lg') = Some (Ok tt, s) /\
                        cancelled tag (log s) <= 1) as Hclosed.
    { intros lg' Hlg'. eexists. split; [apply closed_leaf_absorbs_all|done]. }
    destruct ev as [x|x|]; cbn [leaf_step].
    + destruct (success (normalise h)); try (apply Hclosed; lia).
      apply Hclosed. rewrite cancelled_app. simpl. lia.
    + destruct (failure (normalise h));
        try (apply IH; rewrite cancelled_app; simpl; lia).
      apply Hclosed. rewrite cancelled_app. simpl. lia.
    + apply Hclosed. rewrite cancelled_app. simpl. rewrite decide_True by done. lia.
Qed.

(** X3.  A computation that returns a cancel function which returns when it
    is invoked ([later tag]), run with callbacks of the caller that return
    (the handlers [run] makes of [h]).  Whatever the outside world does
    afterwards with the two callbacks and the cancel handle, every event is
    processed and the cancel function is invoked at most once; it is not
    invoked at all once a success has been delivered; and after a
    cancellation that comes first nothing else is ever observed.  (For a
    callback or a cancel function that throws, see
    [throwing_handler_is_invoked_again] and
    [throwing_cancel_function_escapes].) *)
Theorem computation_cancel_function tag h n evs :
  exists s,
    run (2 + n) (later tag) h init
    = Some (Ok (SafeRun2Cancel 0), mkState [pending_leaf (normalise h) tag] []) /\
    fireAll (3 + n) (map leaf_event evs) (mkState [pending_leaf (normalise h) tag] [])
    = Some (Ok tt, s) /\
    cancelled tag (log s) <= 1 /\
    match evs with
    | Succeed _ :: _ => cancelled tag (log s) = 0
    | CancelIt :: _ => log s = [Cancelled tag]
    | _ => True
    end.
Proof.
  destruct (pending_leaf_events n h tag evs []) as (s & E & Hle); [done|].
  exists s. split; [apply run_leaf|]. split; [done|]. split; [done|].
  destruct evs as [|[x|x|] evs']; [done| |done|].
  - unfold fireAll in E. cbn [map forEach] in E.
    erewrite bind_eq in E; [|apply pending_leaf_step]. cbn [leaf_step] in E.
    destruct (success (normalise h)); fold (fireAll (3 + n) (map leaf_event evs')) in E;
      rewrite closed_leaf_absorbs_all in E; by simplify_eq.
  - unfold fireAll in E. cbn [map forEach] in E.
    erewrite bind_eq in E; [|apply pending_leaf_step]. cbn [leaf_step] in E.
    fold (fireAll (3 + n) (map leaf_event evs')) in E.
    rewrite closed_leaf_absorbs_all in E. by simplify_eq.
Qed.

(** X4.  The defaults of [run]: a record without [success] still settles the
    instance.  The success is delivered to [noop], the guard is closed, and
    whatever comes later, a failure included, reaches no handler at all. *)
Theorem missing_success_still_settles tag sf oc n x evs :
  exists s1,
    run (2 + n) (later tag) (LRec None sf oc) init = Some (Ok (SafeRun2Cancel 0), s1) /\
    fireAll (3 + n) (map leaf_event (Succeed x :: evs)) s1
    = Some (Ok tt, mkState [closed_leaf (normalise (LRec None sf oc))] []).
Proof.
  eexists. split; [apply run_leaf|].
  unfold fireAll. cbn [map forEach].
  erewrite bind_eq; [|apply pending_leaf_step].
  apply (closed_leaf_absorbs_all n (LRec None sf oc) evs []).
Qed.

(** Inside a computation, the callbacks of a closed guard do nothing. *)
Lemma closed_leaf_acts n h rest lg :
  forEach (runAct (call1 (2 + n)) (SafeRun2Succ 0) (SafeRun2Fail 0)) rest
          (mkState [closed_leaf (normalise h)] lg)
  = Some (Ok tt, mkState [closed_leaf (normalise h)] lg).
Proof.
  induction rest as [|a rest IH]; [done|]. cbn [forEach].
  erewrite bind_eq; [exact IH|]. by destruct a, h as [f|[s|] [f|] [c|]].
Qed.

(** X5.  A computation that throws.  With a catch handler the exception is
    handed to it and [run] returns a handle of a closed instance; without one
    the exception leaves [run] and the guard stays open.  If the computation
    has settled before it throws, the exception is dropped silently when a
    catch handler was given (the guard has replaced it by [noop]), and leaves
    [run] otherwise. *)
Theorem computation_throws e n :
  (forall so sf c,
     run (3 + n) (FromComputation {| acts := []; ret := RetThrow e |}) (LRec so sf (Some c)) init
     = Some (Ok (SafeRun2Cancel 0),
             mkState [closed_leaf (normalise (LRec so sf (Some c)))] [Called c e])) /\
  (forall so sf,
     run (3 + n) (FromComputation {| acts := []; ret := RetThrow e |}) (LRec so sf None) init
     = Some (Throw e,
             mkState [SafeRun2Vars (success (normalise (LRec so sf None)))
                                   (failure (normalise (LRec so sf None))) None
                                   noop0 noop0 false true] [])) /\
  (forall s sf c x rest,
     run (4 + n) (FromComputation {| acts := CallSucc x :: rest; ret := RetThrow e |})
         (LRec (Some s) sf (Some c)) init
     = Some (Ok (SafeRun2Cancel 0),
             mkState [closed_leaf (normalise (LRec (Some s) sf (Some c)))] [Called s x])) /\
  (forall s sf x rest,
     run (4 + n) (FromComputation {| acts := CallSucc x :: rest; ret := RetThrow e |})
         (LRec (Some s) sf None) init
     = Some (Throw e,
             mkState [closed_leaf (normalise (LRec (Some s) sf None))] [Called s x])).
Proof.
  split; [|split; [|split]].
  - by intros [s|] [f|] c.
  - by intros [s|] [f|].
  - intros s sf c x rest. unfold run. cbn [Nat.add _run]. unfold safeRun2.
    erewrite bind_eq; [|reflexivity]. rewrite bind_bind. unfold runComputation.
    cbn [acts ret forEach normalise catch option_map init heap log length app].
    unfold try_catch, bind at 2 3 4. unfold bind at 1. cbv beta.
    assert (runAct (call1 (S (S (S n)))) (SafeRun2Succ 0) (SafeRun2Fail 0) (CallSucc x)
              (mkState [SafeRun2Vars (success (normalise (LRec (Some s) sf (Some c))))
                                     (failure (normalise (LRec (Some s) sf (Some c))))
                                     (Some (User c)) noop0 noop0 false true] [])
            = Some (Ok tt, mkState [closed_leaf (normalise (LRec (Some s) sf (Some c)))]
                                   [Called s x])) as Hx.
    { by destruct sf. }
    cbn [normalise option_map] in Hx. rewrite Hx.
    pose proof (closed_leaf_acts (S n) (LRec (Some s) sf (Some c)) rest [Called s x]) as Hr.
    cbn [normalise option_map Nat.add] in Hr. rewrite Hr.
    by destruct sf.
  - intros s sf x rest. unfold run. cbn [Nat.add _run]. unfold safeRun2.
    erewrite bind_eq; [|reflexivity]. rewrite bind_bind. unfold runComputation.
    cbn [acts ret forEach normalise catch option_map init heap log length app].
    unfold bind at 2 3 4. unfold bind at 1. cbv beta.
    assert (runAct (call1 (S (S (S n)))) (SafeRun2Succ 0) (SafeRun2Fail 0) (CallSucc x)
              (mkState [SafeRun2Vars (success (normalise (LRec (Some s) sf None)))
                                     (failure (normalise (LRec (Some s) sf None)))
                                     None noop0 noop0 false true] [])
            = Some (Ok tt, mkState [closed_leaf (normalise (LRec (Some s) sf None))]
                                   [Called s x])) as Hx.
    { by destruct sf. }
    cbn [normalise option_map] in Hx. rewrite Hx.
    pose proof (closed_leaf_acts (S n) (LRec (Some s) sf None) rest [Called s x]) as Hr.
    cbn [normalise option_map Nat.add] in Hr. rewrite Hr.
    by destruct sf.
Qed.

(** ** Tasks that settle at once, under [Map] and [MapRejected] *)

(** X6.  [Map] leaves a failure alone and [MapRejected] leaves a success alone:
    [fn] is not called and the run is the run of the inner task. *)
Theorem map_leaves_other_channel_alone e v fn n h :
  run (3 + n) (Map (Rejected e) fn) h init = run (2 + n) (Rejected e) h init /\
  run (3 + n) (MapRejected (Of v) fn) h init = run (2 + n) (Of v) h init.
Proof. split; by destruct h as [s|[s|] [f|] c]. Qed.

(** X7.  [Map] over a task that succeeds with [v] is the task that succeeds
    with [fn v], and [MapRejected] over a task that fails with [v] is the task
    that fails with [fn v]. *)
Theorem map_transforms_settlement v y fn n h :
  fn v = Ok y ->
  run (4 + n) (Map (Of v) fn) h init = run (2 + n) (Of y) h init /\
  run (4 + n) (MapRejected (Rejected v) fn) h init = run (2 + n) (Rejected y) h init.
Proof.
  intros E. split; destruct h as [s|[s|] [f|] c]; cbn; rewrite E; done.
Qed.

Lemma map_transforms_settlement_witness :
  run 4 (Map (Of (VNum 1)) (fun x => Ok (VArr [x]))) (LFn 0) init
  = Some (Ok noop0, mkState [] [Called 0 (VArr [VNum 1])]).
Proof.
  refine (eq_trans (proj1 (map_transforms_settlement (VNum 1) (VArr [VNum 1])
                             (fun x => Ok (VArr [x])) 0 (LFn 0) _)) _).
  - reflexivity.
  - reflexivity.
Defined.

(** X8.  When [fn] throws, the exception comes out of [run]; no handler is
    called, whatever handlers were given. *)
Theorem map_fn_exception_escapes v x fn n h :
  fn v = Throw x ->
  run (3 + n) (Map (Of v) fn) h init = Some (Throw x, init) /\
  run (3 + n) (MapRejected (Rejected v) fn) h init = Some (Throw x, init).
Proof.
  intros E. split; destruct h as [s|[s|] [f|] c]; cbn; rewrite E; done.
Qed.

Lemma map_fn_exception_escapes_witness :
  run 3 (Map (Of (VNum 1)) (fun x => Throw (VErr x))) (LRec (Some 0) (Some 1) (Some 2)) init
  = Some (Throw (VErr (VNum 1)), init).
Proof.
  refine (proj1 (map_fn_exception_escapes (VNum 1) (VErr (VNum 1))
                   (fun x => Throw (VErr x)) 0 (LRec (Some 0) (Some 1) (Some 2)) _)).
  reflexivity.
Defined.

(** ** [Chain] and [OrElse] *)

(** One step of the continuation closures. *)
Lemma call1_ChainSuccess k c fn s f cf x t :
  fn x = Ok t ->
  call1 (S k) (ChainSuccess c fn s f cf) x
  = match cf with
    | Some cf' =>
        try_catch (do cancel2 <- _run k t (normaliseRec (Some s) (Some f) cf);
                   setCancel2 c cancel2)
                  (fun e => call1 k cf' e)
    | None => do cancel2 <- _run k t (normaliseRec (Some s) (Some f) None);
              setCancel2 c cancel2
    end.
Proof. intros E. destruct cf; cbn [call1]; rewrite E; reflexivity. Qed.

Lemma call1_ChainSuccess_throws k c fn s f cf x e :
  fn x = Throw e ->
  call1 (S k) (ChainSuccess c fn s f cf) x
  = match cf with
    | Some cf' => call1 k cf' e
    | None => throw e
    end.
Proof. intros E. destruct cf; cbn [call1]; rewrite E; reflexivity. Qed.

Lemma call1_OrElseFailure k c fn s f x :
  call1 (S k) (OrElseFailure c fn s f) x
  = match fn x with
    | Ok t => do cancel2 <- _run k t (normaliseRec (Some s) (Some f) None);
              setCancel2 c cancel2
    | Throw e => throw e
    end.
Proof. reflexivity. Qed.

(** Run [Chain] or [OrElse] over a task that settles at once, up to the call
    of [fn], whose result is [E]. *)
Ltac second_stage E :=
  unfold run; cbn [Nat.add _run]; unfold safeRun2, safeRun;
  mstep ltac:(reflexivity); mstep ltac:(reflexivity);
  cbn [success failure catch normalise normaliseRec or_noop1 default option_map id from_option];
  first [erewrite call1_ChainSuccess by exact E
        |erewrite call1_ChainSuccess_throws by exact E
        |rewrite call1_OrElseFailure, E];
  reflexivity.

(** X9.  The second task is not started when there is nothing for it to do:
    [Chain] over a failed task is that failure, [OrElse] over a successful
    task is that success; [fn] is not called. *)
Theorem second_task_not_started e v fn n h :
  observed (run (4 + n) (Chain (Rejected e) fn) h init)
  = observed (run (2 + n) (Rejected e) h init) /\
  observed (run (4 + n) (OrElse (Of v) fn) h init)
  = observed (run (2 + n) (Of v) h init).
Proof. split; by destruct h as [s|[s|] [f|] [c|]]. Qed.

(** X10.  The second task succeeds at once: the chain is that success, for
    [Chain] after a success and for [OrElse] after a failure. *)
Theorem second_task_succeeds_at_once v y fn n h :
  fn v = Ok (Of y) ->
  observed (run (6 + n) (Chain (Of v) fn) h init) = observed (run (2 + n) (Of y) h init) /\
  observed (run (6 + n) (OrElse (Rejected v) fn) h init)
  = observed (run (2 + n) (Of y) h init).
Proof.
  intros E. split; destruct h as [s|[s|] [f|] [c|]]; second_stage E.
Qed.

Lemma second_task_succeeds_at_once_witness :
  observed (run 6 (Chain (Of (VNum 1)) (fun x => Ok (Of (VArr [x])))) (LFn 0) init)
  = Some (None, [Called 0 (VArr [VNum 1])]).
Proof.
  refine (eq_trans (proj1 (second_task_succeeds_at_once (VNum 1) (VArr [VNum 1])
                             (fun x => Ok (Of (VArr [x]))) 0 (LFn 0) _)) _).
  - reflexivity.
  - reflexivity.
Defined.

(** X11.  The second task fails at once.  [OrElse] passes the failure on as a
    direct run would.  So does [Chain], unless the caller gave a catch handler
    and no failure handler: then the exception of the default failure handler
    is caught inside [Chain] and handed to the catch handler, and [run]
    returns. *)
Theorem second_task_fails_at_once v y fn n h :
  fn v = Ok (Rejected y) ->
  (observed (run (6 + n) (OrElse (Rejected v) fn) h init)
   = observed (run (2 + n) (Rejected y) h init)) /\
  (catch (normalise h) = None \/ failure (normalise h) <> defaultFailureHandler ->
   observed (run (6 + n) (Chain (Of v) fn) h init)
   = observed (run (2 + n) (Rejected y) h init)) /\
  (forall so c, h = LRec so None (Some c) ->
   observed (run (6 + n) (Chain (Of v) fn) h init) = Some (None, [Called c (unhandled y)])).
Proof.
  intros E. split; [|split].
  - destruct h as [s|[s|] [f|] [c|]]; second_stage E.
  - intros H. destruct h as [s|[s|] [f|] [c|]];
      try (destruct H as [H|H]; [discriminate H|by destruct H]); second_stage E.
  - intros [s|] c ->; second_stage E.
Qed.

Lemma second_task_fails_at_once_witness :
  observed (run 6 (Chain (Of (VNum 1)) (fun x => Ok (Rejected x)))
                (LRec (Some 0) None (Some 2)) init)
  = Some (None, [Called 2 (VErr (VNum 1))]).
Proof.
  refine (proj2 (proj2 (second_task_fails_at_once (VNum 1) (VNum 1)
                          (fun x => Ok (Rejected x)) 0 (LRec (Some 0) None (Some 2)) _))
                (Some 0) 2 _).
  - reflexivity.
  - reflexivity.
Defined.

(** X12.  [Chain] over two computations.  Before the first has settled the
    handle cancels the first; a failure of the first is the failure of the
    chain and [fn] is not called; after the success of the first, [fn x] is
    running: the handle cancels it (and not the first again), and its
    settlement is the settlement of the chain, after which the handle cancels
    nothing. *)
Theorem chain_runs_second_task a b fn x y n s f oc :
  fn x = Ok (later b) ->
  let cancel := Cancel (SafeRun2Cancel 0) in
  exists s0 s1,
    run (4 + n) (Chain (later a) fn) (LRec (Some s) (Some f) oc) init
    = Some (Ok (SafeRun2Cancel 0), s0) /\
    fire (6 + n) (succeed 2 x) s0 = Some (Ok tt, s1) /\
    log s0 = [] /\ log s1 = [] /\
    log_after (6 + n) [cancel] s0 = Some [Cancelled a] /\
    log_after (6 + n) [fail 2 x; cancel] s0 = Some [Called f x] /\
    log_after (6 + n) [cancel] s1 = Some [Cancelled b] /\
    log_after (6 + n) [succeed 3 y; cancel] s1 = Some [Called s y] /\
    log_after (6 + n) [fail 3 y; cancel] s1 = Some [Called f y].
Proof.
  intros E cancel.
  destruct oc as [c|]; (eexists _, _; split; [lazy; reflexivity|]; split).
  1,3: unfold fire, succeed; cbn [Nat.add]; rewrite call1_SafeRun2Succ;
    unfold try_catch at 1; mstep ltac:(by apply read_eq);
    (erewrite bind_eq; [|erewrite call1_ChainSuccess by exact E; lazy; reflexivity]);
    lazy; reflexivity.
  all: repeat split; lazy; reflexivity.
Qed.

Lemma chain_runs_second_task_witness :
  exists s0 s1,
    run 4 (Chain (later 7) (fun _ => Ok (later 8))) (LRec (Some 0) (Some 1) None) init
    = Some (Ok (SafeRun2Cancel 0), s0) /\
    fire 6 (succeed 2 (VNum 1)) s0 = Some (Ok tt, s1) /\
    log s0 = [] /\ log s1 = [] /\
    log_after 6 [Cancel (SafeRun2Cancel 0)] s0 = Some [Cancelled 7] /\
    log_after 6 [fail 2 (VNum 1); Cancel (SafeRun2Cancel 0)] s0 = Some [Called 1 (VNum 1)] /\
    log_after 6 [Cancel (SafeRun2Cancel 0)] s1 = Some [Cancelled 8] /\
    log_after 6 [succeed 3 (VNum 2); Cancel (SafeRun2Cancel 0)] s1 = Some [Called 0 (VNum 2)] /\
    log_after 6 [fail 3 (VNum 2); Cancel (SafeRun2Cancel 0)] s1 = Some [Called 1 (VNum 2)].
Proof.
  refine (chain_runs_second_task 7 8 (fun _ => Ok (later 8)) (VNum 1) (VNum 2) 0 0 1 None _).
  reflexivity.
Defined.

(** X13.  An exception of [fn] in [Chain].  With a catch handler it is handed
    to that handler, once, and the instance is closed; without one it comes
    out of the callback that was invoked (out of [run] when the first task
    succeeds at once), and the first computation's guard stays open: a second
    success calls [fn] again and the handle still cancels the computation. *)
Theorem chain_defect_goes_to_catch a fn x e n so sf :
  fn x = Throw e ->
  let cancel := Cancel (SafeRun2Cancel 0) in
  (forall c,
     observed (run (5 + n) (Chain (Of x) fn) (LRec so sf (Some c)) init)
     = Some (None, [Called c e]) /\
     exists s0,
       run (4 + n) (Chain (later a) fn) (LRec so sf (Some c)) init
       = Some (Ok (SafeRun2Cancel 0), s0) /\
       log s0 = [] /\
       log_after (6 + n) [succeed 2 x] s0 = Some [Called c e] /\
       log_after (6 + n) [succeed 2 x; succeed 2 x; cancel] s0 = Some [Called c e]) /\
  observed (run (5 + n) (Chain (Of x) fn) (LRec so sf None) init) = Some (Some e, []) /\
  exists s0,
    run (4 + n) (Chain (later a) fn) (LRec so sf None) init
    = Some (Ok (SafeRun2Cancel 0), s0) /\
    log s0 = [] /\
    log_after (6 + n) [succeed 2 x] s0 = Some [Uncaught e] /\
    log_after (6 + n) [succeed 2 x; succeed 2 x; cancel] s0
    = Some [Uncaught e; Uncaught e; Cancelled a].
Proof.
  intros E cancel. split; [intros c; split|split].
  - destruct so, sf; second_stage E.
  - set (H := normalise (LRec so sf (Some c))).
    set (st := fun lg => mkState
      [SafeRun2Vars (success H) (failure H) (Some (User c))
                    (ChainOnCancel (SafeRun2Cancel 2) 1) noop0 false true;
       ChainVars noop0;
       SafeRun2Vars (ChainSuccess 1 fn (SafeRun2Succ 0) (SafeRun2Fail 0) (Some (SafeRun2Catch 0)))
                    (SafeRun2Fail 0) (Some (SafeRun2Catch 0)) (UserCancel a) noop0 false true] lg).
    assert (fire (6 + n) (succeed 2 x) (st [])
            = Some (Ok tt, mkState [closed_leaf H; ChainVars noop0; closed_leaf H] [Called c e]))
      as Hstep.
    { unfold fire, succeed; cbn [Nat.add]; rewrite call1_SafeRun2Succ.
      unfold try_catch at 1. mstep ltac:(by apply read_eq).
      erewrite bind_eq; [|erewrite call1_ChainSuccess_throws by exact E; lazy; reflexivity].
      reflexivity. }
    exists (st []). split; [by destruct so, sf|]. split; [done|].
    unfold log_after, final, fireAll. cbn [forEach]. split.
    + erewrite bind_eq; [|apply Hstep]. reflexivity.
    + erewrite bind_eq; [|apply Hstep]. reflexivity.
  - destruct so, sf; second_stage E.
  - set (H := normalise (LRec so sf None)).
    set (st := fun lg => mkState
      [SafeRun2Vars (success H) (failure H) None
                    (ChainOnCancel (SafeRun2Cancel 2) 1) noop0 false true;
       ChainVars noop0;
       SafeRun2Vars (ChainSuccess 1 fn (SafeRun2Succ 0) (SafeRun2Fail 0) None)
                    (SafeRun2Fail 0) None (UserCancel a) noop0 false true] lg).
    assert (forall lg, fire (6 + n) (succeed 2 x) (st lg)
                       = Some (Ok tt, st (lg ++ [Uncaught e]))) as Hstep.
    { intros lg. unfold fire, succeed; cbn [Nat.add]; rewrite call1_SafeRun2Succ.
      unfold try_catch at 1. mstep ltac:(by apply read_eq).
      unfold bind at 1. erewrite call1_ChainSuccess_throws by exact E. reflexivity. }
    exists (st []). split; [by destruct so, sf|]. split; [done|].
    unfold log_after, final, fireAll. cbn [forEach]. split.
    + erewrite bind_eq; [|apply Hstep]. reflexivity.
    + erewrite bind_eq; [|apply Hstep]. erewrite bind_eq; [|apply Hstep].
      by destruct so, sf.
Qed.

Lemma chain_defect_goes_to_catch_witness :
  observed (run 5 (Chain (Of (VNum 1)) (fun x => Throw (VErr x)))
                (LRec (Some 0) (Some 1) None) init)
  = Some (Some (VErr (VNum 1)), []).
Proof.
  refine (proj1 (proj2 (chain_defect_goes_to_catch 7 (fun x => Throw (VErr x)) (VNum 1)
                          (VErr (VNum 1)) 0 (Some 0) (Some 1) _))).
  reflexivity.
Defined.

(** X14.  [OrElse] over two computations.  Before the first has settled the
    handle cancels the first; a success of the first is the success of the
    whole and [fn] is not called; after the failure of the first, [fn x] is
    running: the handle cancels it, and its settlement is the settlement of
    the whole. *)
Theorem orElse_runs_second_task a b fn x y n s f oc :
  fn x = Ok (later b) ->
  let cancel := Cancel (SafeRunCancel 0) in
  exists s0 s1,
    run (4 + n) (OrElse (later a) fn) (LRec (Some s) (Some f) oc) init
    = Some (Ok (SafeRunCancel 0), s0) /\
    fire (6 + n) (fail 2 x) s0 = Some (Ok tt, s1) /\
    log s0 = [] /\ log s1 = [] /\
    log_after (6 + n) [cancel] s0 = Some [Cancelled a] /\
    log_after (6 + n) [succeed 2 x; cancel] s0 = Some [Called s x] /\
    log_after (6 + n) [cancel] s1 = Some [Cancelled b] /\
    log_after (6 + n) [succeed 3 y; cancel] s1 = Some [Called s y] /\
    log_after (6 + n) [fail 3 y; cancel] s1 = Some [Called f y].
Proof.
  intros E cancel.
  destruct oc as [c|]; (eexists _, _; split; [lazy; reflexivity|]; split).
  1,3: unfold fire, fail; cbn [Nat.add]; rewrite call1_SafeRun2Fail;
    unfold try_catch at 1; mstep ltac:(by apply read_eq);
    (erewrite bind_eq; [|rewrite call1_OrElseFailure, E; lazy; reflexivity]);
    lazy; reflexivity.
  all: repeat split; lazy; reflexivity.
Qed.

Lemma orElse_runs_second_task_witness :
  exists s0 s1,
    run 4 (OrElse (later 7) (fun _ => Ok (later 8))) (LRec (Some 0) (Some 1) None) init
    = Some (Ok (SafeRunCancel 0), s0) /\
    fire 6 (fail 2 (VNum 1)) s0 = Some (Ok tt, s1) /\
    log s0 = [] /\ log s1 = [] /\
    log_after 6 [Cancel (SafeRunCancel 0)] s0 = Some [Cancelled 7] /\
    log_after 6 [succeed 2 (VNum 1); Cancel (SafeRunCancel 0)] s0 = Some [Called 0 (VNum 1)] /\
    log_after 6 [Cancel (SafeRunCancel 0)] s1 = Some [Cancelled 8] /\
    log_after 6 [succeed 3 (VNum 2); Cancel (SafeRunCancel 0)] s1 = Some [Called 0 (VNum 2)] /\
    log_after 6 [fail 3 (VNum 2); Cancel (SafeRunCancel 0)] s1 = Some [Called 1 (VNum 2)].
Proof.
  refine (orElse_runs_second_task 7 8 (fun _ => Ok (later 8)) (VNum 1) (VNum 2) 0 0 1 None _).
  reflexivity.
Defined.

(** X15.  An exception of [fn] in [OrElse] is never handed to a catch handler,
    whatever handlers were given: it comes out of [run] when the first task
    fails at once, and out of the failure callback otherwise.  The guards stay
    open, so that a second failure calls [fn] again. *)
Theorem orElse_defect_is_not_caught a fn x e n h :
  fn x = Throw e ->
  observed (run (5 + n) (OrElse (Rejected x) fn) h init) = Some (Some e, []) /\
  exists s0,
    run (4 + n) (OrElse (later a) fn) h init = Some (Ok (SafeRunCancel 0), s0) /\
    log s0 = [] /\
    fire (6 + n) (fail 2 x) s0 = Some (Ok tt, mkState (heap s0) [Uncaught e]) /\
    fireAll (6 + n) [fail 2 x; fail 2 x] s0
    = Some (Ok tt, mkState (heap s0) [Uncaught e; Uncaught e]).
Proof.
  intros E. split.
  { destruct h as [s|[s|] [f|] [c|]]; second_stage E. }
  assert (forall h lg,
    let st := mkState
          [SafeRunVars h (OrElseCancel (SafeRun2Cancel 2) 1) noop0 false true;
           ChainVars noop0;
           SafeRun2Vars (SafeRunSucc 0) (OrElseFailure 1 fn (SafeRunSucc 0) (SafeRunFail 0)) None
                        (UserCancel a) noop0 false true] lg in
    fire (6 + n) (fail 2 x) st = Some (Ok tt, mkState (heap st) (lg ++ [Uncaught e]))) as Hstep.
  { intros h' lg st. unfold fire, fail; cbn [Nat.add]; rewrite call1_SafeRun2Fail.
    unfold try_catch at 1. mstep ltac:(by apply read_eq).
    unfold bind at 1. rewrite call1_OrElseFailure, E. reflexivity. }
  exists (mkState
          [SafeRunVars (normalise h) (OrElseCancel (SafeRun2Cancel 2) 1) noop0 false true;
           ChainVars noop0;
           SafeRun2Vars (SafeRunSucc 0) (OrElseFailure 1 fn (SafeRunSucc 0) (SafeRunFail 0)) None
                        (UserCancel a) noop0 false true] []).
  split; [by destruct h as [s|[s|] [f|] [c|]]|]. split; [done|]. split.
  - apply Hstep.
  - unfold fireAll. cbn [forEach].
    erewrite bind_eq; [|apply Hstep].
    erewrite bind_eq; [|apply Hstep]; reflexivity.
Qed.

Lemma orElse_defect_is_not_caught_witness :
  observed (run 5 (OrElse (Rejected (VNum 1)) (fun x => Throw (VErr x)))
                (LRec (Some 0) (Some 1) (Some 2)) init)
  = Some (Some (VErr (VNum 1)), []).
Proof.
  refine (proj1 (orElse_defect_is_not_caught 7 (fun x => Throw (VErr x)) (VNum 1)
                   (VErr (VNum 1)) 0 (LRec (Some 0) (Some 1) (Some 2)) _)).
  reflexivity.
Defined.

(** ** [concat] *)

(** X16.  [concat] of two computations: the first settlement, of either kind
    and of either task, is the settlement of the whole; it invokes the cancel
    functions of both computations, the one of the winner included; what comes
    later is absorbed.  A cancellation that comes first cancels both. *)
Theorem concat_takes_the_first a b n s f oc (first ok ok' : bool) x y :
  let winner := if first then 1 else 2 in
  let loser := if first then 2 else 1 in
  let cancel := Cancel (SafeRunCancel 0) in
  exists s0,
    run (3 + n) (concat (later a) (later b)) (LRec (Some s) (Some f) oc) init
    = Some (Ok (SafeRunCancel 0), s0) /\
    log s0 = [] /\
    log_after (5 + n) [settle winner ok x] s0
    = Some [Called (if ok then s else f) x; Cancelled a; Cancelled b] /\
    log_after (5 + n) [settle winner ok x; settle loser ok' y; cancel] s0
    = Some [Called (if ok then s else f) x; Cancelled a; Cancelled b] /\
    log_after (5 + n) [cancel; settle winner ok x; cancel] s0 = Some [Cancelled a; Cancelled b].
Proof.
  intros winner loser cancel. subst winner loser cancel.
  destruct oc; (eexists; split; [lazy; reflexivity|]);
    destruct first, ok, ok'; repeat split; lazy; reflexivity.
Qed.

(** X17.  [concat] with a task that settles at once: that settlement is the
    settlement of the whole; the other task is started all the same when it
    comes second, and a computation among the two is cancelled before [run]
    returns. *)
Theorem concat_decided_at_once a v w e n s f oc :
  let h := LRec (Some s) (Some f) oc in
  observed (run (4 + n) (concat (Of v) (later a)) h init)
  = Some (None, [Called s v; Cancelled a]) /\
  observed (run (4 + n) (concat (later a) (Of v)) h init)
  = Some (None, [Called s v; Cancelled a]) /\
  observed (run (4 + n) (concat (Rejected e) (later a)) h init)
  = Some (None, [Called f e; Cancelled a]) /\
  observed (run (4 + n) (concat (Of v) (Of w)) h init) = Some (None, [Called s v]) /\
  observed (run (4 + n) (concat (Rejected e) (Of w)) h init) = Some (None, [Called f e]) /\
  observed (run (4 + n) (concat (Of v) (Rejected e)) h init) = Some (None, [Called s v]).
Proof. destruct oc; repeat split; lazy; reflexivity. Qed.

(** X18.  [Empty] is neutral for [concat], on either side: under every
    sequence of successes, failures and cancellations, the handlers of the
    caller see of [concat Empty t] and of [concat t Empty] the calls they see
    of the computation [t] alone. *)
Theorem empty_is_neutral_for_concat a h n evs (left : bool) :
  let t := if left then concat Empty (later a) else concat (later a) Empty in
  exists s0 s1 s0' s1',
    run (3 + n) t h init = Some (Ok (SafeRunCancel 0), s0) /\
    fireAll (5 + n) (map raced_event evs) s0 = Some (Ok tt, s1) /\
    run (2 + n) (later a) h init = Some (Ok (SafeRun2Cancel 0), s0') /\
    fireAll (3 + n) (map leaf_event evs) s0' = Some (Ok tt, s1') /\
    called (log s1) = called (log s1').
Proof.
  intros t.
  set (cs := if left then [noop0; SafeRun2Cancel 1] else [SafeRun2Cancel 1; noop0]).
  set (P1 := fun lg => mkState
         [SafeRunVars (normalise h) noop0 (OnClose cs) false true;
          SafeRun2Vars (SafeRunSucc 0) (SafeRunFail 0) None (UserCancel a) noop0 false true] lg).
  set (Q1 := fun lg => mkState
         [SafeRunVars noopHandlers noop0 (OnClose cs) true false;
          SafeRun2Vars noop1 noop1 None noop0 noop0 true false] lg).
  set (P2 := fun lg => mkState [pending_leaf (normalise h) a] lg).
  set (Q2 := fun lg => mkState [closed_leaf (normalise h)] lg).
  set (Rel := fun st1 st2 : State => exists lg1 lg2, called lg1 = called lg2 /\
                ((st1 = P1 lg1 /\ st2 = P2 lg2) \/ (st1 = Q1 lg1 /\ st2 = Q2 lg2))).
  assert (forall ev st1 st2, Rel st1 st2 ->
            exists st1' st2', fire (5 + n) (raced_event ev) st1 = Some (Ok tt, st1') /\
                              fire (3 + n) (leaf_event ev) st2 = Some (Ok tt, st2') /\
                              Rel st1' st2') as Hstep.
  { intros ev st1 st2 (lg1 & lg2 & Hlg & [[-> ->]|[-> ->]]).
    - subst P1 P2 cs.
      destruct ev, left, h as [s|[s|] [f|] [c|]];
        (eexists _, _; split; [lazy; reflexivity|]; split; [lazy; reflexivity|]);
        eexists _, _; (split; [|first [left; split; reflexivity|right; split; reflexivity]]);
        rewrite ?called_app; simpl; rewrite ?app_nil_r, ?Hlg; reflexivity.
    - subst Q1 Q2 cs.
      destruct ev, left, h as [s|[s|] [f|] [c|]];
        (eexists _, _; split; [lazy; reflexivity|]; split; [lazy; reflexivity|]);
        eexists _, _; (split; [|right; split; reflexivity]); done. }
  assert (forall st1 st2, Rel st1 st2 ->
            exists s1 s1', fireAll (5 + n) (map raced_event evs) st1 = Some (Ok tt, s1) /\
                           fireAll (3 + n) (map leaf_event evs) st2 = Some (Ok tt, s1') /\
                           called (log s1) = called (log s1')) as Hall.
  { induction evs as [|ev evs IH]; intros st1 st2 HR.
    - exists st1, st2. split; [done|]. split; [done|].
      by destruct HR as (lg1 & lg2 & Hlg & [[-> ->]|[-> ->]]).
    - destruct (Hstep ev _ _ HR) as (st1' & st2' & E1 & E2 & HR').
      destruct (IH _ _ HR') as (s1 & s1' & F1 & F2 & Hc).
      exists s1, s1'. unfold fireAll in *. cbn [map forEach].
      erewrite bind_eq by exact E1. erewrite bind_eq by exact E2. done. }
  destruct (Hall (P1 []) (P2 [])) as (s1 & s1' & F1 & F2 & Hc).
  { exists [], []. split; [done|]. by left. }
  exists (P1 []), s1, (P2 []), s1'.
  split; [subst t P1 cs; by destruct left, h as [s|[s|] [f|] [c|]]|].
  split; [done|]. split; [apply run_leaf|]. done.
Qed.

(** ** [ap] *)

Lemma call1_MapSuccess k fn hs x :
  call1 (S k) (MapSuccess fn hs) x
  = match fn x with
    | Ok y => call1 k hs y
    | Throw e => throw e
    end.
Proof. reflexivity. Qed.

Lemma _run_Map n t fn h :
  _run (S n) (Map t fn) h
  = _run n t (normaliseRec (Some (MapSuccess fn (success h))) (Some (failure h)) None).
Proof. reflexivity. Qed.

Lemma _run_All n _tasks h :
  _run (S n) (All _tasks) h
  = safeRun (call0 n)
      (fun success failure =>
         let length := length _tasks in
         do a <- alloc (AllVars (replicate length VUndef) 0);
         do cancels <-
           mapi (fun task index =>
                   _run n task (normaliseRec (Some (AllSuccess a length index success))
                                             (Some failure) None))
                0 _tasks;
         mret (ReturnObject None (OnClose cancels)))
      h.
Proof. reflexivity. Qed.

Lemma _run_Of n v h : _run (S n) (Of v) h = (call1 n (success h) v ;; mret noop0).
Proof. reflexivity. Qed.

(** Run the first action of a sequence that the known state determines. *)
Ltac mnext := mstep ltac:(lazy; reflexivity); cbv beta iota.

(** The success that completes [ap]: the last value arrives, the guard of
    [All] hands the pair to [Map], which applies the function, whose result
    is [E]. *)
Ltac ap_completes E :=
  rewrite call1_AllSuccess; mnext; mnext; rewrite decide_True by done;
  rewrite call1_SafeRunSucc; mnext;
  cbn [success]; rewrite call1_MapSuccess; cbv beta iota; rewrite E;
  lazy; reflexivity.

(** X19.  [ap]: once both tasks have succeeded, with [f] and with [x], in
    either order, the success handler is called with [f(x)], and not before;
    so it is when both succeed at once. *)
Theorem ap_applies_the_function apply f x y a b n s sf oc :
  apply f x = Ok y ->
  (exists s0,
     run (5 + n) (ap apply (later a) (later b)) (LRec (Some s) sf oc) init
     = Some (Ok (SafeRunCancel 0), s0) /\
     log s0 = [] /\
     log_after (8 + n) [succeed 2 f] s0 = Some [] /\
     log_after (8 + n) [succeed 3 x] s0 = Some [] /\
     log_after (8 + n) [succeed 2 f; succeed 3 x] s0 = Some [Called s y; Cancelled b] /\
     log_after (8 + n) [succeed 3 x; succeed 2 f] s0 = Some [Called s y; Cancelled a]) /\
  observed (run (7 + n) (ap apply (Of f) (Of x)) (LRec (Some s) sf oc) init)
  = Some (None, [Called s y]).
Proof.
  intros E. split.
  - destruct sf, oc; (eexists; split; [lazy; reflexivity|]; split; [reflexivity|]).
    all: (split; [lazy; reflexivity|]); (split; [lazy; reflexivity|]).
    all: unfold log_after, final, fireAll; cbn [forEach]; split.
    all: (erewrite bind_eq; [|lazy; reflexivity]).
    all: (erewrite bind_eq;
            [|unfold fire, succeed; cbn [Nat.add]; unfold try_catch at 1;
              rewrite call1_SafeRun2Succ; mnext; ap_completes E]); reflexivity.
  - unfold run, ap. cbn [Nat.add]. rewrite _run_Map, _run_All. unfold safeRun.
    destruct sf, oc.
    all: mnext; mnext; cbn [mapi]; mnext; rewrite _run_Of;
      cbn [success normaliseRec or_noop1 default id from_option length]; rewrite ?bind_bind;
      ap_completes E.
Qed.

Lemma ap_applies_the_function_witness :
  observed (run 7 (ap (fun f x => Ok (VArr [f; x])) (Of (VNum 1)) (Of (VNum 2)))
                (LRec (Some 0) None None) init)
  = Some (None, [Called 0 (VArr [VNum 1; VNum 2])]).
Proof.
  refine (proj2 (ap_applies_the_function (fun f x => Ok (VArr [f; x])) (VNum 1) (VNum 2)
                   (VArr [VNum 1; VNum 2]) 7 8 0 0 None None _)).
  reflexivity.
Defined.

(** X20.  [ap]: the first failure of either task is the failure of the whole,
    and the function is not applied; the computations that are still running
    are cancelled (the one that failed too), and so they are by the handle. *)
Theorem ap_fails_with_either apply f x e a b n s sf oc :
  let cancel := Cancel (SafeRunCancel 0) in
  exists s0,
    run (5 + n) (ap apply (later a) (later b)) (LRec s (Some sf) oc) init
    = Some (Ok (SafeRunCancel 0), s0) /\
    log_after (8 + n) [fail 2 e; succeed 3 x; cancel] s0
    = Some [Called sf e; Cancelled a; Cancelled b] /\
    log_after (8 + n) [fail 3 e; succeed 2 f; cancel] s0
    = Some [Called sf e; Cancelled a; Cancelled b] /\
    log_after (8 + n) [succeed 2 f; fail 3 e; cancel] s0 = Some [Called sf e; Cancelled b] /\
    log_after (8 + n) [succeed 3 x; fail 2 e; cancel] s0 = Some [Called sf e; Cancelled a] /\
    log_after (8 + n) [succeed 2 f; cancel; succeed 3 x] s0 = Some [Cancelled b].
Proof.
  intros cancel. subst cancel.
  destruct s, oc; (eexists; split; [lazy; reflexivity|]); repeat split; lazy; reflexivity.
Qed.

(** X21.  [ap]: an exception of the function is not a failure.  It comes out
    of [run] when both tasks succeed at once, and out of the success callback
    of the task that succeeds last otherwise; no handler is called, whatever
    handlers were given, and the instance stays open: the handle still cancels
    the computation whose callback threw. *)
Theorem ap_function_throws apply f x e a b n h :
  apply f x = Throw e ->
  let cancel := Cancel (SafeRunCancel 0) in
  observed (run (7 + n) (ap apply (Of f) (Of x)) h init) = Some (Some e, []) /\
  exists s0,
    run (5 + n) (ap apply (later a) (later b)) h init = Some (Ok (SafeRunCancel 0), s0) /\
    log_after (8 + n) [succeed 2 f; succeed 3 x] s0 = Some [Uncaught e] /\
    log_after (8 + n) [succeed 2 f; succeed 3 x; cancel] s0 = Some [Uncaught e; Cancelled b].
Proof.
  intros E cancel. subst cancel. split.
  - unfold run, ap. cbn [Nat.add]. rewrite _run_Map, _run_All. unfold safeRun.
    destruct h as [s|[s|] [sf|] [c|]].
    all: mnext; mnext; cbn [mapi]; mnext; rewrite _run_Of;
      cbn [success normaliseRec or_noop1 default id from_option length]; rewrite ?bind_bind;
      ap_completes E.
  - destruct h as [s|[s|] [sf|] [c|]]; (eexists; split; [lazy; reflexivity|]).
    all: unfold log_after, final, fireAll; cbn [forEach]; split.
    all: (erewrite bind_eq; [|lazy; reflexivity]).
    all: (erewrite bind_eq;
            [|unfold fire, succeed; cbn [Nat.add]; unfold try_catch at 1;
              rewrite call1_SafeRun2Succ; mnext; ap_completes E]); reflexivity.
Qed.

Lemma ap_function_throws_witness :
  observed (run 7 (ap (fun f _ => Throw (VErr f)) (Of (VNum 1)) (Of (VNum 2)))
                (LRec (Some 0) (Some 1) (Some 2)) init)
  = Some (Some (VErr (VNum 1)), []).
Proof.
  refine (proj1 (ap_function_throws (fun f _ => Throw (VErr f)) (VNum 1) (VNum 2)
                   (VErr (VNum 1)) 7 8 0 (LRec (Some 0) (Some 1) (Some 2)) _)).
  reflexivity.
Defined.

(** ** [runAndPrintResult] *)

(** X22.  [runAndPrintResult] prints no failure: [run] takes one argument, so
    the failure printer is dropped.  For every task whose cancel functions
    return, whatever happens afterwards, nothing is printed or one success is;
    a task that fails at once makes [runAndPrintResult] throw instead. *)
Theorem runAndPrintResult_prints_no_failure n m ps pf t r s1 evs s2 :
  tame t ->
  runAndPrintResult n ps pf t init = Some (r, s1) ->
  Forall quiet_event evs ->
  final (fireAll m evs) s1 = Some s2 ->
  (called (log s2) = [] \/ exists v, called (log s2) = [(ps, v)]) /\
  (forall k e, runAndPrintResult (2 + k) ps pf (Rejected e) init
               = Some (Throw (unhandled e), init)).
Proof.
  intros Ht Hrun Hevs Hfin. split; [|done].
  unfold runAndPrintResult, bind in Hrun.
  destruct (run n t (LFn ps) init) as [[r' s1']|] eqn:E; [|done].
  assert (s1' = s1) as -> by (destruct r'; by inversion Hrun).
  destruct (run_settled n m t (normalise (LFn ps)) init r' s1 evs s2) as [H|(tag & v & Hf & H)];
    [done|by repeat split|apply Quiet_init|exact E|done|done|by left|right].
  exists v. rewrite H. destruct Hf as [Hf|[Hf|(c & Hc & _)]]; by simplify_eq/=.
Qed.

(** With a cancel function that throws the guard of [Race] is not closed, and
    every success is printed. *)
Lemma runAndPrintResult_prints_twice :
  exists s1,
    runAndPrintResult 6 0 1 (Race [later_throwing 7 (VNum 9); later 8]) init = Some (Ok tt, s1) /\
    option_map called (log_after 6 [succeed 2 (VNum 1); succeed 2 (VNum 2)] s1)
    = Some [(0, VNum 1); (0, VNum 2)].
Proof. eexists. split; [vm_compute; reflexivity|]. vm_compute. reflexivity. Qed.

Lemma runAndPrintResult_prints_no_failure_witness :
  called [Called 0 (VNum 1); Cancelled 7] = []
  \/ exists v, called [Called 0 (VNum 1); Cancelled 7] = [(0, v)].
Proof.
  refine (proj1 (runAndPrintResult_prints_no_failure 4 6 0 1
                   (concat Empty (later 7)) (Ok tt)
                   (mkState [SafeRunVars (normalise (LFn 0)) noop0
                                         (OnClose [noop0; SafeRun2Cancel 1]) false true;
                             SafeRun2Vars (SafeRunSucc 0) (SafeRunFail 0) None
                                          (UserCancel 7) noop0 false true] [])
                   [succeed 1 (VNum 1); fail 1 (VNum 2)]
                   (mkState [SafeRunVars noopHandlers noop0
                                         (OnClose [noop0; SafeRun2Cancel 1]) true false;
                             SafeRun2Vars noop1 noop1 None noop0 noop0 true false]
                            [Called 0 (VNum 1); Cancelled 7])
                   _ _ _ _)).
  - repeat split.
  - vm_compute. reflexivity.
  - repeat constructor.
  - vm_compute. reflexivity.
Defined.

(** ** The first revision ([part_000]) *)

Lemma legacy_invocations_app l1 l2 :
  Legacy.invocations (l1 ++ l2) = Legacy.invocations l1 + Legacy.invocations l2.
Proof. induction l1 as [|[] l1 IH]; simpl; lia. Qed.

Lemma legacy_dead_absorbs evs s : Legacy.dead s -> Legacy.fireAll evs s = s.
Proof.
  intros [Hv _]. induction evs as [|ev evs IH]; [done|].
  unfold Legacy.fireAll in *. cbn [fold_left].
  assert (Legacy.fire s ev = s) as ->; [|done].
  destruct s as [v lg]. simpl in Hv. subst. by destruct ev.
Qed.

(** What a callback of the computation does to an open or closed instance. *)
Lemma legacy_callback (b : bool) x s :
  Legacy.open s \/ Legacy.dead s ->
  let r := if b then Legacy.handleSucc x s else Legacy.handleFail x s in
  (Legacy.open (r.2) \/ Legacy.dead (r.2)) /\
  (Legacy.starting s -> Legacy.starting (r.2)) /\
  (Legacy.open (Legacy.report r) \/ Legacy.dead (Legacy.report r)).
Proof.
  destruct s as [[su fa ca cl clo] lg].
  intros [(Hc & Hd & Hi & Hsu & Hfa & Hca)|[Hv Hi]]; simpl in *.
  - subst. destruct b, su, fa; simpl in *; try done;
      unfold Legacy.open, Legacy.dead, Legacy.starting; simpl;
      rewrite ?legacy_invocations_app; simpl; rewrite ?Hi; naive_solver lia.
  - simplify_eq. destruct b; simpl; unfold Legacy.open, Legacy.dead, Legacy.starting; simpl;
      naive_solver lia.
Qed.

Lemma legacy_handle s :
  Legacy.open s \/ Legacy.dead s -> Legacy.dead (Legacy.report (Legacy.handle s)).
Proof.
  destruct s as [[su fa ca cl clo] lg].
  intros [(Hc & Hd & Hi & Hsu & Hfa & Hca)|[Hv Hi]]; simpl in *.
  - subst. destruct ca; try done; unfold Legacy.dead, Legacy.handle, Legacy.do_close; simpl;
      rewrite ?legacy_invocations_app; simpl; rewrite ?Hi; split; (done || lia).
  - simplify_eq. done.
Qed.

Lemma legacy_fire ev s :
  Legacy.open s \/ Legacy.dead s ->
  Legacy.open (Legacy.fire s ev) \/ Legacy.dead (Legacy.fire s ev).
Proof.
  intros H. destruct ev as [x|x|]; simpl.
  - apply (legacy_callback true x s H).
  - apply (legacy_callback false x s H).
  - right. by apply legacy_handle.
Qed.

Lemma legacy_fireAll evs s :
  Legacy.open s \/ Legacy.dead s ->
  Legacy.open (Legacy.fireAll evs s) \/ Legacy.dead (Legacy.fireAll evs s).
Proof.
  revert s. induction evs as [|ev evs IH]; intros s H; [done|].
  apply IH. by apply legacy_fire.
Qed.

Lemma legacy_runActs l s :
  Legacy.open s \/ Legacy.dead s -> Legacy.starting s ->
  (Legacy.open (Legacy.runActs l s).2 \/ Legacy.dead (Legacy.runActs l s).2) /\
  Legacy.starting (Legacy.runActs l s).2.
Proof.
  revert s. induction l as [|a l IH]; intros s H Hs; [done|].
  cbn [Legacy.runActs].
  destruct a as [v|v].
  - destruct (legacy_callback true v s H) as (H1 & H2 & _). simpl in H1, H2.
    destruct (Legacy.handleSucc v s) as [[[]|e] s'] eqn:E; simpl in *; [apply IH|]; auto.
  - destruct (legacy_callback false v s H) as (H1 & H2 & _). simpl in H1, H2.
    destruct (Legacy.handleFail v s) as [[[]|e] s'] eqn:E; simpl in *; [apply IH|]; auto.
Qed.

(** The computation has run: the instance is open or closed, and no cancel
    function is stored yet. *)
Lemma legacy_computation c hs hf :
  Legacy.polite hs -> Legacy.polite hf ->
  let s := Legacy.mkState (Legacy.mkVars hs hf Legacy.noopCancel false true) [] in
  (Legacy.open (Legacy.runActs (acts c) s).2 \/ Legacy.dead (Legacy.runActs (acts c) s).2) /\
  Legacy.starting (Legacy.runActs (acts c) s).2.
Proof. intros Hs Hf s. apply legacy_runActs; [left|]; by repeat split. Qed.

Lemma legacy_runWith c hs hf :
  Legacy.polite hs -> Legacy.polite hf -> Legacy.tame c ->
  Legacy.open (Legacy.runWith c hs hf []).2 \/ Legacy.dead (Legacy.runWith c hs hf []).2.
Proof.
  intros Hs Hf Hc. unfold Legacy.runWith, Legacy._computation.
  destruct (legacy_computation c hs hf Hs Hf) as [H Hst]. cbv zeta in H, Hst.
  destruct (Legacy.runActs (acts c) _) as [[[]|e] s'] eqn:E; simpl in *; [|done].
  unfold Legacy.tame in Hc.
  destruct (ret c); try done; simpl; destruct (Legacy.closed (Legacy.vars s')) eqn:Hcl; try done.
  all: destruct H as [(Hc' & Hd & Hi & Hsu & Hfa & Hca)|[Hv Hi]]; [by left|].
  all: rewrite Hv in Hcl; done.
Qed.

(** X23.  The guard of the first revision.  When the callbacks of the caller
    return and the computation returns no cancel function that throws, then
    whatever the computation does and whatever happens afterwards, the
    callbacks of the caller and the cancel function of the computation are
    invoked at most once, all together. *)
Theorem legacy_invokes_at_most_once c hs hf evs :
  Legacy.polite hs -> Legacy.polite hf -> Legacy.tame c ->
  Legacy.invocations (Legacy.log (Legacy.fireAll evs (Legacy.runWith c hs hf []).2)) <= 1.
Proof.
  intros Hs Hf Hc.
  destruct (legacy_fireAll evs _ (legacy_runWith c hs hf Hs Hf Hc)) as [(_ & _ & -> & _)|[_ H]];
    [lia|done].
Qed.

Lemma legacy_invokes_at_most_once_witness :
  Legacy.log (Legacy.fireAll [Fail (VNum 2); Succeed (VNum 3); CancelIt; Succeed (VNum 4)]
                (Legacy.run {| acts := []; ret := RetCancel 7 |} 0 None []).2)
  = [Uncaught (VErr (VNum 2)); Called 0 (VNum 3)] /\
  Legacy.invocations
    (Legacy.log (Legacy.fireAll [Fail (VNum 2); Succeed (VNum 3); CancelIt; Succeed (VNum 4)]
                   (Legacy.run {| acts := []; ret := RetCancel 7 |} 0 None []).2)) <= 1.
Proof.
  split; [reflexivity|].
  refine (legacy_invokes_at_most_once {| acts := []; ret := RetCancel 7 |}
            (Legacy.User 0) Legacy.defaultFailureHandler
            [Fail (VNum 2); Succeed (VNum 3); CancelIt; Succeed (VNum 4)] _ _ _); exact I.
Defined.

(** A callback of the caller that throws is invoked again, and so is a cancel
    function that throws: [close()] is not reached ([part_000], lines 118 and
    122). *)
Lemma legacy_throwing_code_is_invoked_again :
  Legacy.log (Legacy.fireAll [Succeed (VNum 1); Succeed (VNum 2)]
                (Legacy.runWith {| acts := []; ret := RetUndefined |}
                                (Legacy.UserThrows 0 (VNum 9)) Legacy.noop []).2)
  = [Called 0 (VNum 1); Uncaught (VNum 9); Called 0 (VNum 2); Uncaught (VNum 9)] /\
  Legacy.log (Legacy.fireAll [CancelIt; CancelIt; Succeed (VNum 1)]
                (Legacy.run {| acts := []; ret := RetCancelThrows 7 (VNum 9) |} 0 None []).2)
  = [Cancelled 7; Uncaught (VNum 9); Cancelled 7; Uncaught (VNum 9); Called 0 (VNum 1)].
Proof. split; reflexivity. Qed.

(** X24.  In the first revision, a computation that has settled before it
    returns has its cancel function dropped: nothing that happens afterwards
    changes anything. *)
Theorem legacy_settled_run_discards_cancel c hs hf evs :
  Legacy.closed (Legacy.vars (Legacy.run c hs hf []).2) = true ->
  Legacy.cancel (Legacy.vars (Legacy.run c hs hf []).2) = Legacy.noopCancel /\
  Legacy.fireAll evs (Legacy.run c hs hf []).2 = (Legacy.run c hs hf []).2.
Proof.
  intros Hcl.
  assert (Legacy.dead (Legacy.run c hs hf []).2) as Hdead.
  { revert Hcl. unfold Legacy.run, Legacy.runWith, Legacy._computation.
    destruct (legacy_computation c (Legacy.User hs)
                (from_option Legacy.User Legacy.defaultFailureHandler hf)) as [H Hst];
      [done|by destruct hf|].
    cbv zeta in H, Hst.
    destruct (Legacy.runActs (acts c) _) as [[[]|e] s'] eqn:E; simpl in *.
    - destruct H as [(_ & Hd & _)|Hdead].
      + destruct (ret c); simpl; rewrite ?Hd; simpl; congruence.
      + destruct Hdead as [Hv Hi]. destruct (ret c); simpl; rewrite Hv; simpl; intros _;
          by split; simpl; rewrite ?Hv.
    - intros Hcl. by destruct H as [(_ & Hd & _)|Hdead]; [congruence|]. }
  split; [|by apply legacy_dead_absorbs].
  destruct Hdead as [-> _]. done.
Qed.

Lemma legacy_settled_run_discards_cancel_witness :
  Legacy.log (Legacy.fireAll [CancelIt; Succeed (VNum 2)]
                (Legacy.run {| acts := [CallSucc (VNum 1)]; ret := RetCancel 7 |} 0 None []).2)
  = [Called 0 (VNum 1)].
Proof.
  refine (eq_trans (f_equal Legacy.log
            (proj2 (legacy_settled_run_discards_cancel
                      {| acts := [CallSucc (VNum 1)]; ret := RetCancel 7 |} 0 None
                      [CancelIt; Succeed (VNum 2)] _))) _).
  - reflexivity.
  - reflexivity.
Defined.

(** X25.  In the first revision, a failure that nobody handles is thrown as
    an error that wraps it, before [close()] is reached: the rest of the
    computation is not run, the instance stays open, and later callbacks are
    still delivered. *)
Theorem legacy_unhandled_failure_leaves_open x rest r hs y :
  let c := {| acts := CallFail x :: rest; ret := r |} in
  Legacy.run c hs None []
  = (Throw (VErr x),
     Legacy.mkState (Legacy.mkVars (Legacy.User hs) Legacy.defaultFailureHandler
                                   Legacy.noopCancel false true) []) /\
  Legacy.log (Legacy.fireAll [Fail x; Fail x; Succeed y; Fail x] (Legacy.run c hs None []).2)
  = [Uncaught (VErr x); Uncaught (VErr x); Called hs y].
Proof. done. Qed.

(** *** The two revisions *)

Lemma current_callback n (b : bool) x s :
  handled s ->
  let r := if b then Legacy.handleSucc x s else Legacy.handleFail x s in
  call1 (3 + n) (if b then SafeRun2Succ 0 else SafeRun2Fail 0) x (current s)
  = Some (Ok tt, current r.2) /\
  r.1 = Ok tt /\ handled r.2 /\ (Legacy.starting s -> Legacy.starting r.2).
Proof.
  destruct s as [[su fa ca cl clo] lg]. intros [Hs Hf]. simpl in *.
  destruct b, su, fa, ca, cl, clo; try done; repeat split; try done.
Qed.

Lemma current_acts n l s :
  handled s ->
  forEach (runAct (call1 (3 + n)) (SafeRun2Succ 0) (SafeRun2Fail 0)) l (current s)
  = Some (Ok tt, current (Legacy.runActs l s).2) /\
  (Legacy.runActs l s).1 = Ok tt /\ handled (Legacy.runActs l s).2 /\
  (Legacy.starting s -> Legacy.starting (Legacy.runActs l s).2).
Proof.
  revert s. induction l as [|a l IH]; intros s H; [done|].
  cbn [forEach Legacy.runActs].
  destruct a as [v|v].
  - destruct (current_callback n true v s H) as (E & Hr & H' & Hst). cbn [runAct].
    erewrite bind_eq by exact E.
    destruct (Legacy.handleSucc v s) as [[[]|e] s']; [|done].
    cbn [fst snd] in *. destruct (IH s' H') as (? & ? & ? & ?). split_and!; auto.
  - destruct (current_callback n false v s H) as (E & Hr & H' & Hst). cbn [runAct].
    erewrite bind_eq by exact E.
    destruct (Legacy.handleFail v s) as [[[]|e] s']; [|done].
    cbn [fst snd] in *. destruct (IH s' H') as (? & ? & ? & ?). split_and!; auto.
Qed.

Lemma current_fire n ev s :
  handled s ->
  fire (3 + n) (leaf_event ev) (current s) = Some (Ok tt, current (Legacy.fire s ev)) /\
  handled (Legacy.fire s ev).
Proof.
  intros H. destruct ev as [x|x|].
  - destruct (current_callback n true x s H) as (E & Hr & H' & _). unfold fire, try_catch.
    cbn [leaf_event succeed]. rewrite E. cbn [Legacy.fire].
    destruct (Legacy.handleSucc x s) as [[[]|e] s']; done.
  - destruct (current_callback n false x s H) as (E & Hr & H' & _). unfold fire, try_catch.
    cbn [leaf_event fail]. rewrite E. cbn [Legacy.fire].
    destruct (Legacy.handleFail x s) as [[[]|e] s']; done.
  - destruct s as [[su fa ca cl clo] lg]. destruct H as [Hs Hf]. simpl in *.
    destruct su, fa, ca, cl, clo; try done; repeat split; try done.
Qed.

Lemma current_fireAll n evs s :
  handled s ->
  fireAll (3 + n) (map leaf_event evs) (current s)
  = Some (Ok tt, current (Legacy.fireAll evs s)).
Proof.
  revert s. induction evs as [|ev evs IH]; intros s H; [done|].
  destruct (current_fire n ev s H) as [E H'].
  unfold fireAll in *. cbn [map forEach]. erewrite bind_eq by exact E.
  by apply IH.
Qed.

(** X26.  The two revisions agree on a computation run with a success and a
    failure handler: [run] throws what the old [run] throws, or returns in the
    state that the old variables describe, and every sequence of successes,
    failures and cancellations takes the two through the same states and
    logs. *)
Theorem revisions_agree c hs f n evs :
  let legacy := Legacy.run c hs (Some f) [] in
  run (4 + n) (FromComputation c) (LRec (Some hs) (Some f) None) init
  = Some (match legacy.1 with Ok _ => Ok (SafeRun2Cancel 0) | Throw e => Throw e end,
          current legacy.2) /\
  fireAll (3 + n) (map leaf_event evs) (current legacy.2)
  = Some (Ok tt, current (Legacy.fireAll evs legacy.2)).
Proof.
  intros legacy.
  set (s := Legacy.mkState (Legacy.mkVars (Legacy.User hs) (Legacy.User f)
                                          Legacy.noopCancel false true) []).
  assert (handled s) as Hs by done.
  destruct (current_acts n (acts c) s Hs) as (E & Hr & H' & Hst).
  assert (handled legacy.2) as Hl.
  { clear E. subst legacy s. unfold Legacy.run, Legacy.runWith, Legacy._computation.
    destruct (Legacy.runActs (acts c) _) as [[[]|e] s']; [|done].
    cbn [fst snd] in *. destruct H' as [H1 H2].
    unfold handled. destruct (ret c); simpl; destruct (Legacy.closed (Legacy.vars s')); simpl; auto. }
  split; [|by apply current_fireAll].
  unfold run. cbn [Nat.add _run]. unfold safeRun2.
  erewrite bind_eq; [|reflexivity]. rewrite bind_bind. unfold runComputation.
  cbn [normalise catch option_map init heap log length app success failure or_noop1 default].
  rewrite bind_bind. erewrite bind_eq by exact E.
  clear E Hl. subst legacy s. unfold Legacy.run, Legacy.runWith, Legacy._computation.
  destruct (Legacy.runActs (acts c) _) as [[[]|e] [[su fa ca cl clo] lg]]; [|done].
  destruct H' as [H1 H2]. specialize (Hst eq_refl).
  unfold Legacy.starting in Hst.
  cbn [fst snd Legacy.vars Legacy.succ Legacy.fail Legacy.cancel] in H1, H2, Hst. subst ca.
  destruct (ret c), su, fa, cl, clo; done.
Qed.

(** ** [Race] over any number of computations *)

Lemma call0_SafeRunCancel n i :
  call0 (S n) (SafeRunCancel i)
  = (do c <- read i;
     match c with
     | SafeRunVars _ cancel _ _ _ => call0 n cancel
     | _ => impossible
     end ;;
     close (call0 n) i).
Proof. reflexivity. Qed.

(** A callback of a closed leaf does nothing. *)
Lemma done_leaf_absorbs n pre (ls : list Leaf) j (ok : bool) x lg :
  j < length ls ->
  call1 (3 + n) (if ok then SafeRun2Succ (length pre + j) else SafeRun2Fail (length pre + j)) x
        (mkState (pre ++ map leaf_cell (map (fun _ => Done) ls)) lg)
  = Some (Ok tt, mkState (pre ++ map leaf_cell (map (fun _ => Done) ls)) lg).
Proof.
  intros Hj.
  assert ((pre ++ map leaf_cell (map (fun _ => Done) ls)) !! (length pre + j)
          = Some (leaf_cell Done)) as Hl.
  { apply lookup_leaf. rewrite list_lookup_fmap.
    destruct (lookup_lt_is_Some_2 ls j Hj) as [l ->]. done. }
  cbn [Nat.add]. destruct ok.
  - rewrite call1_SafeRun2Succ. mstep ltac:(by apply read_eq). cbn [leaf_cell].
    mstep ltac:(reflexivity). by apply close2_done.
  - rewrite call1_SafeRun2Fail. mstep ltac:(by apply read_eq). cbn [leaf_cell].
    mstep ltac:(reflexivity). by apply close2_done.
Qed.

(** X27.  [Race] over any number of computations: the first settlement, of
    either kind and of any of them, is the settlement of the whole, and it
    invokes the cancel function of every computation, in the order of the
    list; a cancellation that comes first does the same and silences the
    settlement that follows. *)
Theorem race_takes_the_first n tags s f oc j (ok : bool) x :
  j < length tags ->
  exists s0,
    run (3 + n) (Race (map later tags)) (LRec (Some s) (Some f) oc) init
    = Some (Ok (SafeRunCancel 0), s0) /\
    log s0 = [] /\
    log_after (5 + n) [settle (S j) ok x] s0
    = Some (Called (if ok then s else f) x :: map Cancelled tags) /\
    log_after (5 + n) [Cancel (SafeRunCancel 0); settle (S j) ok x] s0
    = Some (map Cancelled tags).
Proof.
  intros Hj. eexists. split; [apply run_race|]. split; [done|].
  set (h := normalise (LRec (Some s) (Some f) oc)).
  pose proof (race_first_settles n tags (success h) (failure h) (catch h) j ok x [] Hj
                [Called (if ok then s else f) x]) as H.
  cbv zeta in H.
  subst h. cbn [normalise option_map or_noop1 default success failure catch id from_option] in *.
  assert (forall i, settle i ok x = Invoke (if ok then SafeRun2Succ i else SafeRun2Fail i) x)
    as Hsettle by (by destruct ok).
  split.
  - unfold log_after, final, fireAll. cbn [forEach].
    erewrite bind_eq.
    2:{ unfold fire, try_catch. rewrite Hsettle.
        rewrite H; [reflexivity|]. by destruct ok. }
    reflexivity.
  - unfold log_after, final, fireAll. cbn [forEach].
    erewrite bind_eq.
    2:{ unfold fire, try_catch. cbn [Nat.add]. rewrite call0_SafeRunCancel.
        mstep ltac:(by apply read_eq). cbv beta iota. rewrite call0_noop. mstep ltac:(reflexivity).
        pose proof (close_guard (1 + n) (mkHandlers (User s) (User f) (option_map User oc))
                      noop0 false
                      (started (fun _ => SafeRunSucc 0) (SafeRunFail 0) 0 tags) []) as Hc.
        rewrite started_length, started_pending in Hc. cbn [Nat.add] in Hc.
        rewrite Hc. reflexivity. }
    erewrite bind_eq.
    2:{ unfold fire, try_catch. rewrite Hsettle.
        pose proof (done_leaf_absorbs (2 + n)
                      [SafeRunVars noopHandlers noop0 (OnClose (handles 1 (length tags))) true false]
                      (started (fun _ => SafeRunSucc 0) (SafeRunFail 0) 0 tags) j ok x
                      ([] ++ map Cancelled tags)) as Hd.
        rewrite started_length in Hd. cbn [length Nat.add app] in Hd.
        cbn [Nat.add app]. rewrite Hd by done. reflexivity. }
    reflexivity.
Qed.

Lemma race_takes_the_first_witness :
  exists s0,
    run 3 (Race (map later [7; 8; 9])) (LRec (Some 0) (Some 1) None) init
    = Some (Ok (SafeRunCancel 0), s0) /\
    log s0 = [] /\
    log_after 5 [settle 2 false (VNum 1)] s0
    = Some [Called 1 (VNum 1); Cancelled 7; Cancelled 8; Cancelled 9] /\
    log_after 5 [Cancel (SafeRunCancel 0); settle 2 false (VNum 1)] s0
    = Some [Cancelled 7; Cancelled 8; Cancelled 9].
Proof.
  refine (race_takes_the_first 0 [7; 8; 9] 0 1 None 1 false (VNum 1) _).
  simpl. lia.
Defined.

(** ** [All] over any number of computations *)

Lemma run_all n tags h :
  _run (3 + n) (All (map later tags)) h init
  = Some (Ok (SafeRunCancel 0), all_state h tags []).
Proof.
  cbn [Nat.add]. rewrite _run_All. unfold safeRun.
  erewrite bind_eq; [|reflexivity]. cbn [init heap log length app].
  rewrite !bind_bind. cbv zeta. erewrite bind_eq; [|reflexivity].
  rewrite !bind_bind.
  erewrite bind_eq;
    [|apply (mapi_later n (fun index => AllSuccess 1 (length (map later tags)) index (SafeRunSucc 0)))].
  rewrite length_map. reflexivity.
Qed.

Lemma settled_leaves_length js ls : length (settled_leaves js ls) = length ls.
Proof.
  revert ls. induction js as [|j js IH]; intros ls; [done|].
  unfold settled_leaves in *. cbn [foldl]. by rewrite IH, length_insert.
Qed.

Lemma settled_leaves_lookup js ls j :
  j ∉ js -> settled_leaves js ls !! j = ls !! j.
Proof.
  revert ls. induction js as [|i js IH]; intros ls Hj; [done|].
  apply not_elem_of_cons in Hj as [Hne Hj].
  unfold settled_leaves in *. cbn [foldl].
  rewrite IH by done. by apply list_lookup_insert_ne.
Qed.

Lemma settled_leaves_snoc js j ls :
  settled_leaves (js ++ [j]) ls = <[j := Done]> (settled_leaves js ls).
Proof. unfold settled_leaves. by rewrite foldl_app. Qed.

Lemma recorded_snoc arr jv vs :
  recorded (arr ++ [jv]) vs = <[jv.1 := jv.2]> (recorded arr vs).
Proof. unfold recorded. by rewrite foldl_app. Qed.

Lemma recorded_length arr vs : length (recorded arr vs) = length vs.
Proof.
  revert vs. induction arr as [|jv arr IH]; intros vs; [done|].
  unfold recorded in *. cbn [foldl]. by rewrite IH, length_insert.
Qed.

(** The leaf of a computation that has not settled. *)
Lemma all_pending tags (arr : Arrivals) j tag :
  tags !! j = Some tag -> j ∉ map fst arr ->
  settled_leaves (map fst arr)
    (started (fun index => AllSuccess 1 (length tags) index (SafeRunSucc 0)) (SafeRunFail 0) 0 tags)
  !! j = Some (Pending (AllSuccess 1 (length tags) j (SafeRunSucc 0)) (SafeRunFail 0) tag).
Proof.
  intros Htag Hj. rewrite settled_leaves_lookup by done.
  by rewrite (started_lookup _ _ 0 tags j tag Htag).
Qed.

(** A success that is not the last one is recorded, and that is all. *)
Lemma all_arrival n h tags (arr : Arrivals) j v :
  j < length tags -> j ∉ map fst arr -> S (length arr) <> length tags ->
  fire (5 + n) (arrival (j, v)) (all_state h tags arr)
  = Some (Ok tt, all_state h tags (arr ++ [(j, v)])).
Proof.
  intros Hj Hfresh Hmore.
  destruct (lookup_lt_is_Some_2 tags j Hj) as [tag Htag].
  pose proof (all_pending tags arr j tag Htag Hfresh) as Hleaf.
  unfold fire, try_catch, arrival, succeed. cbn [fst snd Nat.add].
  rewrite call1_SafeRun2Succ.
  erewrite bind_eq.
  2:{ apply read_eq. exact (lookup_leaf [_; _] _ j _ Hleaf). }
  cbn [leaf_cell]. rewrite call1_AllSuccess.
  mstep ltac:(eapply modify_eq; reflexivity).
  cbn [heap log all_state].
  mstep ltac:(apply read_eq; reflexivity).
  cbv beta iota. rewrite decide_False by done.
  mstep ltac:(reflexivity).
  unfold close2. mstep ltac:(apply read_eq; exact (lookup_leaf [_; _] _ j _ Hleaf)).
  cbn [leaf_cell]. rewrite call0_noop.
  mstep ltac:(reflexivity).
  erewrite modify_eq; [|exact (lookup_leaf [_; _] _ j _ Hleaf)|reflexivity].
  unfold all_state. rewrite recorded_snoc, map_app. cbn [map fst snd].
  rewrite settled_leaves_snoc, length_app.
  cbn [heap log length]. rewrite Nat.add_1_r, list_fmap_insert. reflexivity.
Qed.

(** [close()] of the guard of [All] over computations. *)
Lemma close_guard_all n h cancel closed a ls len lg :
  len = length ls ->
  close (call0 (3 + n)) 0
        (mkState (SafeRunVars h cancel (OnClose (handles 2 len)) closed true
                  :: a :: map leaf_cell ls) lg)
  = Some (Ok tt,
          mkState (SafeRunVars noopHandlers noop0 (OnClose (handles 2 len)) true false
                   :: a :: map leaf_cell (map (fun _ => Done) ls))
                  (lg ++ map Cancelled (pending_tags ls))).
Proof.
  intros ->. unfold close. mstep ltac:(by apply read_eq). cbn [Nat.add].
  rewrite call0_OnClose.
  mstep ltac:(apply (cancel_leaves n ls [SafeRunVars h cancel (OnClose (handles 2 (length ls)))
                                                     closed true; a])).
  by erewrite modify_eq.
Qed.

Lemma calm_handles base len : calm (OnClose (handles base len)).
Proof.
  apply calm_OnClose, Forall_forall. intros c (j & -> & _)%list_elem_of_fmap. done.
Qed.

Lemma called_cancelled l tags : called (l ++ map Cancelled tags) = called l.
Proof.
  rewrite called_app. induction tags as [|t tags IH]; [by rewrite app_nil_r|done].
Qed.

(** The last success: the values go to the success handler, and the guard
    closes. *)
Lemma all_completes n h s tags (arr : Arrivals) j v :
  success h = User s ->
  j < length tags -> j ∉ map fst arr -> S (length arr) = length tags ->
  exists s',
    fire (6 + n) (arrival (j, v)) (all_state h tags arr) = Some (Ok tt, s') /\
    called (log s') = [(s, VArr (recorded (arr ++ [(j, v)]) (replicate (length tags) VUndef)))] /\
    Quiet s'.
Proof.
  intros Hs Hj Hfresh Hlast.
  destruct (lookup_lt_is_Some_2 tags j Hj) as [tag Htag].
  pose proof (all_pending tags arr j tag Htag Hfresh) as Hleaf.
  set (ls := settled_leaves (map fst arr) _) in Hleaf.
  assert (length tags = length ls) as Hlen.
  { subst ls. by rewrite settled_leaves_length, started_length. }
  eexists. split; [|split].
  - unfold fire, try_catch, arrival, succeed. cbn [fst snd Nat.add].
    rewrite call1_SafeRun2Succ.
    mstep ltac:(apply read_eq; exact (lookup_leaf [_; _] _ j _ Hleaf)).
    cbn [leaf_cell]. rewrite call1_AllSuccess.
    mstep ltac:(eapply modify_eq; reflexivity).
    cbn [heap log all_state].
    mstep ltac:(apply read_eq; reflexivity).
    cbv beta iota. rewrite decide_True by done.
    rewrite call1_SafeRunSucc.
    mstep ltac:(apply read_eq; reflexivity).
    cbv beta iota. rewrite Hs, call1_User.
    mstep ltac:(reflexivity).
    fold ls.
    mstep ltac:(apply (close_guard_all n h noop0 false _ ls (length tags) _ Hlen)).
    rewrite close2_done; [reflexivity|].
    apply (lookup_leaf [_; _] (map (fun _ => Done) ls) j Done).
    rewrite list_lookup_fmap, Hleaf. done.
  - cbn [log]. rewrite called_cancelled. rewrite recorded_snoc. done.
  - intros [|[|i]] c Hc; cbn [heap] in Hc; simplify_eq/=;
      [split; [by repeat split|split; [done|apply calm_handles]]|done|].
    rewrite !list_lookup_fmap in Hc. destruct (ls !! i); by simplify_eq/=.
Qed.

Lemma recorded_other (arr : Arrivals) vs j :
  j ∉ map fst arr -> recorded arr vs !! j = vs !! j.
Proof.
  revert vs. induction arr as [|[i w] arr IH]; intros vs Hj; [done|].
  cbn [map fst] in Hj. apply not_elem_of_cons in Hj as [Hne Hj].
  unfold recorded in *. cbn [foldl fst snd].
  rewrite IH by done. by apply list_lookup_insert_ne.
Qed.

(** Every value is at the index of its task. *)
Lemma recorded_lookup (arr : Arrivals) vs j v :
  NoDup (map fst arr) -> (j, v) ∈ arr -> j < length vs -> recorded arr vs !! j = Some v.
Proof.
  revert vs. induction arr as [|[i w] arr IH]; intros vs Hnd Hin Hj.
  - by apply elem_of_nil in Hin.
  - cbn [map fst] in Hnd. apply NoDup_cons in Hnd as [Hi Hnd].
    change (recorded ((i, w) :: arr) vs) with (recorded arr (<[i := w]> vs)).
    apply elem_of_cons in Hin as [Heq|Hin].
    + simplify_eq. rewrite recorded_other by done. by apply list_lookup_insert_eq.
    + apply IH; [done|done|by rewrite length_insert].
Qed.

(** Successes short of the last one are recorded one after the other. *)
Lemma all_arrivals n h tags (arr done : Arrivals) :
  NoDup (map fst (done ++ arr)) ->
  Forall (fun jv => jv.1 < length tags) arr ->
  length (done ++ arr) < length tags ->
  fireAll (6 + n) (map arrival arr) (all_state h tags done)
  = Some (Ok tt, all_state h tags (done ++ arr)).
Proof.
  revert done. induction arr as [|[j v] arr IH]; intros done Hnd Hlt Hlen.
  - by rewrite app_nil_r.
  - apply Forall_cons in Hlt as [Hj Hlt]. cbn [fst] in Hj.
    rewrite map_app in Hnd. cbn [map fst] in Hnd.
    pose proof Hnd as Hnd'. apply NoDup_app in Hnd' as (_ & Hfresh & _).
    rewrite length_app in Hlen. cbn [length] in Hlen.
    unfold fireAll in *. cbn [map forEach].
    erewrite bind_eq.
    2:{ apply (all_arrival (S n)); [done| |lia].
        intros Hin. apply (Hfresh j Hin). left. }
    replace (done ++ (j, v) :: arr) with ((done ++ [(j, v)]) ++ arr)
      by (by rewrite <- app_assoc).
    apply IH; [|done|].
    + rewrite <- app_assoc, map_app. done.
    + rewrite <- app_assoc, length_app. cbn [length app]. lia.
Qed.

Lemma fireAll_app n evs1 evs2 s s' :
  fireAll n evs1 s = Some (Ok tt, s') -> fireAll n (evs1 ++ evs2) s = fireAll n evs2 s'.
Proof.
  revert s. induction evs1 as [|ev evs1 IH]; intros s E.
  - by inversion E.
  - unfold fireAll in *. cbn [app forEach] in *. unfold bind in *.
    destruct (fire n ev s) as [[[[]|e] s1]|]; [|done|done]. by apply IH.
Qed.

(** There are no more distinct indices below [len] than [len]. *)
Lemma arrivals_bounded (arr : Arrivals) len :
  NoDup (map fst arr) -> Forall (fun jv => jv.1 < len) arr -> length arr <= len.
Proof.
  intros Hnd Hlt. rewrite <- (length_map fst arr), <- (length_seq len 0).
  apply submseteq_length, NoDup_submseteq; [done|].
  intros j Hj. apply list_elem_of_fmap in Hj as ([j' v] & -> & Hin).
  rewrite Forall_forall in Hlt. specialize (Hlt _ Hin). cbn [fst] in *.
  apply elem_of_seq. lia.
Qed.

(** X28.  [All] over any number of computations that succeed one after the
    other, each once, in any order: nothing is called before the last success;
    with the last one the success handler is called, once, with the values in
    the order of the tasks, whatever the order of arrival; nothing that happens
    afterwards calls a handler again.  An empty list is left out: there is no
    last success. *)
Theorem all_collects_in_task_order n m tags s sf oc (arr : Arrivals) evs :
  NoDup (map fst arr) ->
  Forall (fun jv => jv.1 < length tags) arr ->
  Forall quiet_event evs ->
  let h := normalise (LRec (Some s) sf oc) in
  exists s1,
    run (3 + n) (All (map later tags)) (LRec (Some s) sf oc) init
    = Some (Ok (SafeRunCancel 0), all_state h tags []) /\
    fireAll (6 + n) (map arrival arr) (all_state h tags []) = Some (Ok tt, s1) /\
    (length arr < length tags -> log s1 = []) /\
    (0 < length tags -> length arr = length tags ->
     exists values,
       called (log s1) = [(s, VArr values)] /\
       length values = length tags /\
       (forall j v, (j, v) ∈ arr -> values !! j = Some v) /\
       (forall s2, final (fireAll m evs) s1 = Some s2 -> called (log s2) = [(s, VArr values)])).
Proof.
  intros Hnd Hlt Hevs h.
  pose proof (arrivals_bounded arr (length tags) Hnd Hlt) as Hle.
  destruct (decide (length arr < length tags)) as [Hless|Hfull].
  - exists (all_state h tags arr). split; [apply run_all|]. split.
    + by apply (all_arrivals n h tags arr []).
    + split; [done|lia].
  - assert (length arr = length tags) as Hlen by lia.
    destruct (decide (0 < length tags)) as [Hpos|Hzero].
    2:{ assert (arr = []) as -> by (apply nil_length_inv; lia).
        exists (all_state h tags []). split; [apply run_all|]. split; [done|]. split; [done|lia]. }
    destruct arr as [|jv0 arr0] using rev_ind; [simpl in Hlen; lia|]. clear IHarr0.
    destruct jv0 as [j v].
    apply Forall_app in Hlt as [Hlt0 Hj]. apply Forall_inv in Hj. cbn [fst] in Hj.
    rewrite length_app in Hlen. cbn [length] in Hlen.
    pose proof Hnd as Hnd'. rewrite map_app in Hnd'. cbn [map fst] in Hnd'.
    apply NoDup_app in Hnd' as (Hnd0 & Hfresh & _).
    assert (j ∉ map fst arr0) as Hj0.
    { intros Hin. apply (Hfresh j Hin). left. }
    destruct (all_completes n h s tags arr0 j v) as (s1 & E & Hcalled & HQ);
      [reflexivity|done|done|lia|].
    exists s1. split; [apply run_all|]. split.
    { rewrite map_app. erewrite fireAll_app;
        [|apply (all_arrivals n h tags arr0 []); [exact Hnd0|exact Hlt0|cbn [app]; lia]].
      unfold fireAll. cbn [map forEach]. by erewrite bind_eq by exact E. }
    split; [rewrite length_app; cbn [length]; lia|].
    intros _ _. eexists. split; [exact Hcalled|]. split; [|split].
    + by rewrite recorded_length, length_replicate.
    + intros i w Hin. apply recorded_lookup; [done|done|].
      rewrite length_replicate. rewrite Forall_forall in Hlt0.
      apply elem_of_app in Hin as [Hin|Hin].
      * apply (Hlt0 _ Hin).
      * apply list_elem_of_singleton in Hin. by simplify_eq.
    + intros s2 Hfin. destruct (Quiet_fireAll m evs s1 s2 HQ Hevs Hfin) as [_ ->]. done.
Qed.

Lemma all_collects_in_task_order_witness :
  exists s1,
    fireAll 6 (map arrival [(1, VNum 2); (0, VNum 1)]) (all_state (normalise (LFn 0)) [7; 8] [])
    = Some (Ok tt, s1) /\
    exists values, called (log s1) = [(0, VArr values)] /\
                   values !! 0 = Some (VNum 1) /\ values !! 1 = Some (VNum 2).
Proof.
  destruct (all_collects_in_task_order 0 0 [7; 8] 0 None None [(1, VNum 2); (0, VNum 1)] [])
    as (s1 & _ & E & _ & Hfull).
  - apply (bool_decide_unpack _). vm_compute. exact I.
  - repeat constructor; simpl; lia.
  - constructor.
  - destruct Hfull as (values & Hc & _ & Hv & _); [simpl; lia|reflexivity|].
    exists s1. split; [exact E|]. exists values. split; [exact Hc|].
    split; apply Hv; [right; left|left].
Defined.


Lemma settled_leaves_done js ls j :
  j ∈ js -> j < length ls -> settled_leaves js ls !! j = Some Done.
Proof.
  revert ls. induction js as [|i js IH]; intros ls Hin Hj.
  - by apply elem_of_nil in Hin.
  - change (settled_leaves (i :: js) ls) with (settled_leaves js (<[i := Done]> ls)).
    destruct (decide (j ∈ js)) as [Hjs|Hjs].
    + apply IH; [done|by rewrite length_insert].
    + apply elem_of_cons in Hin as [->|Hin]; [|done].
      rewrite settled_leaves_lookup by done. by apply list_lookup_insert_eq.
Qed.

(** The leaves that are still pending are those of the computations that have
    not settled. *)
Lemma pending_unsettled js sf ff index tags ls :
  length ls = length tags ->
  (forall k tag, tags !! k = Some tag ->
     ls !! k = Some (if decide (index + k ∈ js) then Done else Pending (sf (index + k)) ff tag)) ->
  pending_tags ls = unsettled js index tags.
Proof.
  revert index ls. induction tags as [|tag tags IH]; intros index [|l ls] Hlen Hls; try done.
  cbn [unsettled]. pose proof (Hls 0 tag eq_refl) as H0. rewrite Nat.add_0_r in H0.
  cbn [lookup list_lookup] in H0. simplify_eq.
  assert (pending_tags ls = unsettled js (S index) tags) as Hrest.
  { apply IH; [by simplify_eq/=|]. intros k t Hk.
    specialize (Hls (S k) t Hk). replace (S index + k) with (index + S k) by lia. exact Hls. }
  destruct (decide (index ∈ js)); cbn [pending_tags]; by rewrite Hrest.
Qed.

Lemma all_unsettled tags (arr : Arrivals) :
  pending_tags
    (settled_leaves (map fst arr)
       (started (fun index => AllSuccess 1 (length tags) index (SafeRunSucc 0))
                (SafeRunFail 0) 0 tags))
  = unsettled (map fst arr) 0 tags.
Proof.
  apply (pending_unsettled _ (fun index => AllSuccess 1 (length tags) index (SafeRunSucc 0))
                           (SafeRunFail 0)).
  - by rewrite settled_leaves_length, started_length.
  - intros k tag Hk. cbn [Nat.add]. destruct (decide (k ∈ map fst arr)) as [Hin|Hin].
    + apply settled_leaves_done; [done|]. rewrite started_length.
      by apply lookup_lt_Some in Hk.
    + by apply all_pending.
Qed.

(** A failure before the last success: it goes to the failure handler, and
    the guard closes. *)
Lemma all_fails n h f tags (arr : Arrivals) j e :
  failure h = User f ->
  j < length tags -> j ∉ map fst arr ->
  exists s',
    fire (6 + n) (fail (2 + j) e) (all_state h tags arr) = Some (Ok tt, s') /\
    log s' = Called f e :: map Cancelled (unsettled (map fst arr) 0 tags) /\
    Quiet s'.
Proof.
  intros Hf Hj Hfresh.
  destruct (lookup_lt_is_Some_2 tags j Hj) as [tag Htag].
  pose proof (all_pending tags arr j tag Htag Hfresh) as Hleaf.
  pose proof (all_unsettled tags arr) as Hpend.
  set (ls := settled_leaves (map fst arr) _) in Hleaf, Hpend.
  assert (length tags = length ls) as Hlen.
  { subst ls. by rewrite settled_leaves_length, started_length. }
  eexists. split; [|split].
  - unfold fire, try_catch, fail. cbn [Nat.add].
    rewrite call1_SafeRun2Fail.
    mstep ltac:(apply read_eq; exact (lookup_leaf [_; _] _ j _ Hleaf)).
    cbn [leaf_cell]. rewrite call1_SafeRunFail.
    mstep ltac:(apply read_eq; reflexivity).
    cbv beta iota. rewrite Hf, call1_User.
    mstep ltac:(reflexivity).
    cbn [all_state heap log]. fold ls.
    mstep ltac:(apply (close_guard_all (1 + n) h noop0 false _ ls (length tags) _ Hlen)).
    rewrite close2_done; [reflexivity|].
    apply (lookup_leaf [_; _] (map (fun _ => Done) ls) j Done).
    rewrite list_lookup_fmap, Hleaf. done.
  - cbn [log app]. by rewrite Hpend.
  - intros [|[|i]] c Hc; cbn [heap] in Hc; simplify_eq/=;
      [split; [by repeat split|split; [done|apply calm_handles]]|done|].
    rewrite !list_lookup_fmap in Hc. destruct (ls !! i); by simplify_eq/=.
Qed.

(** X29.  [All] over any number of computations, some of which have succeeded:
    the failure of one that has not is the failure of the whole, at once; the
    cancel functions of the computations that have not succeeded are invoked,
    in the order of the list, and nothing that happens afterwards calls a
    handler again. *)
Theorem all_fails_with_the_first_failure n m tags so f oc (arr : Arrivals) j e evs :
  NoDup (map fst arr) ->
  Forall (fun jv => jv.1 < length tags) arr ->
  j < length tags -> j ∉ map fst arr ->
  Forall quiet_event evs ->
  let h := normalise (LRec so (Some f) oc) in
  exists s1,
    run (3 + n) (All (map later tags)) (LRec so (Some f) oc) init
    = Some (Ok (SafeRunCancel 0), all_state h tags []) /\
    fireAll (6 + n) (map arrival arr ++ [fail (2 + j) e]) (all_state h tags [])
    = Some (Ok tt, s1) /\
    log s1 = Called f e :: map Cancelled (unsettled (map fst arr) 0 tags) /\
    (forall s2, final (fireAll m evs) s1 = Some s2 -> called (log s2) = [(f, e)]).
Proof.
  intros Hnd Hlt Hj Hfresh Hevs h.
  assert (length arr < length tags) as Hless.
  { pose proof (arrivals_bounded (arr ++ [(j, e)]) (length tags)) as Hb.
    rewrite length_app in Hb. cbn [length] in Hb.
    enough (length arr + 1 <= length tags) by lia. apply Hb.
    - rewrite map_app. cbn [map fst]. apply NoDup_app. split; [done|]. split.
      + intros i Hi Hi'. apply list_elem_of_singleton in Hi'. by subst.
      + apply NoDup_singleton.
    - apply Forall_app. split; [done|]. by apply Forall_singleton. }
  destruct (all_fails n h f tags arr j e) as (s1 & E & Hlog & HQ); [reflexivity|done|done|].
  exists s1. split; [apply run_all|]. split; [|split].
  - erewrite fireAll_app; [|apply (all_arrivals n h tags arr []); [exact Hnd|exact Hlt|exact Hless]].
    unfold fireAll. cbn [forEach]. by erewrite bind_eq by exact E.
  - exact Hlog.
  - intros s2 Hfin. destruct (Quiet_fireAll m evs s1 s2 HQ Hevs Hfin) as [_ ->].
    rewrite Hlog. cbn [called]. f_equal. apply (called_cancelled []).
Qed.

Lemma all_fails_with_the_first_failure_witness :
  exists s1,
    fireAll 6 (map arrival [(2, VNum 3)] ++ [fail (2 + 0) (VNum 4)])
            (all_state (normalise (LRec None (Some 1) None)) [7; 8; 9] [])
    = Some (Ok tt, s1) /\
    log s1 = [Called 1 (VNum 4); Cancelled 7; Cancelled 8].
Proof.
  destruct (all_fails_with_the_first_failure 0 0 [7; 8; 9] None 1 None [(2, VNum 3)] 0 (VNum 4) [])
    as (s1 & _ & E & Hlog & _).
  - apply (bool_decide_unpack _). vm_compute. exact I.
  - repeat constructor; simpl; lia.
  - simpl. lia.
  - apply (bool_decide_unpack _). vm_compute. exact I.
  - constructor.
  - exists s1. split; [exact E|]. rewrite Hlog. reflexivity.
Defined.

(** ** [Map] and [MapRejected] over a computation *)

Lemma call1_MapRejectedFailure k fn hf x :
  call1 (S k) (MapRejectedFailure fn hf) x
  = match fn x with
    | Ok y => call1 k hf y
    | Throw e => throw e
    end.
Proof. reflexivity. Qed.

(** A callback of a computation under [Map] or [MapRejected] whose handler
    applies the function, with the result [E]. *)
Ltac map_callback E :=
  unfold fire, succeed, fail; cbn [Nat.add]; unfold try_catch at 1;
  first [rewrite call1_SafeRun2Succ | rewrite call1_SafeRun2Fail]; mnext;
  first [rewrite call1_MapSuccess | rewrite call1_MapRejectedFailure]; rewrite E;
  lazy; reflexivity.

(** X30.  [Map] over a computation: a success is delivered transformed, once;
    a failure is delivered as it is and the function is not called; when the
    function throws, the exception comes out of the success callback, nothing
    is delivered and the guard stays open, so that a later success is still
    delivered and the handle still cancels the computation.  [MapRejected]
    does the same with the roles of success and failure exchanged. *)
Theorem map_over_computation a fn x y x' e n s f oc :
  fn x = Ok y -> fn x' = Throw e ->
  let cancel := Cancel (SafeRun2Cancel 0) in
  (exists s0,
     run (3 + n) (Map (later a) fn) (LRec (Some s) (Some f) oc) init
     = Some (Ok (SafeRun2Cancel 0), s0) /\
     log_after (4 + n) [succeed 0 x; succeed 0 x] s0 = Some [Called s y] /\
     log_after (4 + n) [fail 0 x; succeed 0 x] s0 = Some [Called f x] /\
     log_after (4 + n) [succeed 0 x'; succeed 0 x; cancel] s0 = Some [Uncaught e; Called s y] /\
     log_after (4 + n) [succeed 0 x'; cancel; succeed 0 x] s0 = Some [Uncaught e; Cancelled a]) /\
  (exists s0,
     run (3 + n) (MapRejected (later a) fn) (LRec (Some s) (Some f) oc) init
     = Some (Ok (SafeRun2Cancel 0), s0) /\
     log_after (4 + n) [fail 0 x; fail 0 x] s0 = Some [Called f y] /\
     log_after (4 + n) [succeed 0 x; fail 0 x] s0 = Some [Called s x] /\
     log_after (4 + n) [fail 0 x'; fail 0 x; cancel] s0 = Some [Uncaught e; Called f y] /\
     log_after (4 + n) [fail 0 x'; cancel; fail 0 x] s0 = Some [Uncaught e; Cancelled a]).
Proof.
  intros E E' cancel. subst cancel.
  split; (eexists; split; [lazy; reflexivity|]);
    unfold log_after, final, fireAll; cbn [forEach]; (split; [|split; [|split]]).
  - (erewrite bind_eq; [|map_callback E]); lazy; reflexivity.
  - lazy; reflexivity.
  - (erewrite bind_eq; [|map_callback E']).
    (erewrite bind_eq; [|map_callback E]); lazy; reflexivity.
  - (erewrite bind_eq; [|map_callback E']); lazy; reflexivity.
  - (erewrite bind_eq; [|map_callback E]); lazy; reflexivity.
  - lazy; reflexivity.
  - (erewrite bind_eq; [|map_callback E']).
    (erewrite bind_eq; [|map_callback E]); lazy; reflexivity.
  - (erewrite bind_eq; [|map_callback E']); lazy; reflexivity.
Qed.

Lemma map_over_computation_witness :
  exists s0,
    run 3 (Map (later 7) (fun v => match v with VNum _ => Ok (VArr [v]) | _ => Throw (VErr v) end))
        (LRec (Some 0) (Some 1) None) init
    = Some (Ok (SafeRun2Cancel 0), s0) /\
    log_after 4 [succeed 0 VUndef; succeed 0 (VNum 1); Cancel (SafeRun2Cancel 0)] s0
    = Some [Uncaught (VErr VUndef); Called 0 (VArr [VNum 1])].
Proof.
  destruct (map_over_computation 7
              (fun v => match v with VNum _ => Ok (VArr [v]) | _ => Throw (VErr v) end)
              (VNum 1) (VArr [VNum 1]) VUndef (VErr VUndef) 0 0 1 None)
    as [(s0 & E & _ & _ & H & _) _].
  - reflexivity.
  - reflexivity.
  - exists s0. split; [exact E|exact H].
Defined.

(** * [Race] and [All] with cancel functions that throw, and that return *)

(** ** C5: [Race] *)





(** ** C4: [All] *)



